(** * gosdk: the parallel REST client [resty] and the replicated
      collaborator update of [zboxcore/sdk]

    A shallow embedding of [resty.go] (package resty) and of
    [zboxcore/sdk/collaboratorworker.go].

    Go values that live behind pointers and are mutated (the body reader
    handed to [Do], the client, the buffered channel) are kept in explicit
    state that the functions thread; goroutines are processes of a small
    scheduler whose choices are an explicit argument; a nil-pointer panic
    and a receive that can never be served are results of their own. *)

From Stdlib Require Import ZArith Lia.
From Stdlib.Strings Require Import Byte.
From stdpp Require Import base option list gmap strings.

#[local] Open Scope Z_scope.

(** ** Outcomes of Go code that may not return normally *)

(** A goroutine either returns a value, panics (which ends the whole
    process), or never returns: it waits on a channel operation that
    nothing can serve, or it loops beyond every bound. *)
Inductive Run (A : Type) : Type :=
  | Returns (a : A)
  | Panics
  | Hangs.
Arguments Returns {A} a.
Arguments Panics {A}.
Arguments Hangs {A}.

(** Go's [error] values, by their message; [nil] is [None]. *)
Definition error : Type := string.

(** ** Buffered channels *)

(** [make(chan T, n)]: the queued values, oldest first, and the capacity. *)
Record Chan (T : Type) : Type := mkChan { chan_buf : list T; chan_cap : Z }.
Arguments mkChan {T} chan_buf chan_cap.
Arguments chan_buf {T} c.
Arguments chan_cap {T} c.

Definition make_chan {T : Type} (n : Z) : Chan T := mkChan [] n.

(** [ch <- v]: [None] when the buffer is full, that is when the sender
    would have to wait for a receiver. *)
Definition chan_send {T : Type} (ch : Chan T) (v : T) : option (Chan T) :=
  if Z.of_nat (length (chan_buf ch)) <? chan_cap ch
  then Some (mkChan (chan_buf ch ++ [v]) (chan_cap ch))
  else None.

(** [<-ch]: [None] when the buffer is empty. *)
Definition chan_recv {T : Type} (ch : Chan T) : option (T * Chan T) :=
  match chan_buf ch with
  | [] => None
  | v :: rest => Some (v, mkChan rest (chan_cap ch))
  end.

(** ** net/http, as far as [resty] uses it *)

Module http.

Definition MethodGet : string := "GET".
Definition MethodPost : string := "POST".
Definition MethodPut : string := "PUT".
Definition MethodDelete : string := "DELETE".

Definition StatusOK : Z := 200.
Definition StatusCreated : Z := 201.
Definition StatusAccepted : Z := 202.
Definition StatusNoContent : Z := 204.
Definition StatusTooManyRequests : Z := 429.
Definition StatusInternalServerError : Z := 500.

(** An [io.Reader] is a pointer to a stream object.  The dynamic type
    matters to [NewRequest]: only the three in-memory readers of the
    standard library can be replayed. *)
Inductive ReaderKind : Type :=
  | BytesBuffer
  | BytesReader
  | StringsReader
  | OtherReader.

Record Stream : Type := mkStream { kind : ReaderKind; unread : list byte }.

(** The heap of stream objects; an address is an index. *)
Abbreviation Store := (list Stream).

Definition alloc (st : Store) (s : Stream) : nat * Store :=
  (length st, st ++ [s]).

(** [Request.Body]: [http.NoBody], or a closer around a reader. *)
Inductive BodyRef : Type :=
  | NoBody
  | ReaderAt (a : nat).

(** What a populated [Request.GetBody] returns on each call:
    [http.NoBody], or a fresh reader over the bytes that [NewRequest]
    captured. *)
Inductive BodySource : Type :=
  | SourceNoBody
  | SourceSnapshot (content : list byte).

(** [context.Context] values a request can carry here. *)
Inductive Context : Type :=
  | Background
  | BatchContext.

Record Request : Type := mkRequest {
  Method : string;
  URL : string;
  Header : gmap string string;
  Body : option BodyRef;
  GetBody : option BodySource;
  ContentLength : Z;
  Ctx : Context;
}.

Definition set_Body (req : Request) (b : option BodyRef) : Request :=
  mkRequest (Method req) (URL req) (Header req) b (GetBody req)
            (ContentLength req) (Ctx req).

(** [req.Header.Set(key, value)] *)
Definition Header_Set (req : Request) (key value : string) : Request :=
  mkRequest (Method req) (URL req) (<[key := value]> (Header req)) (Body req)
            (GetBody req) (ContentLength req) (Ctx req).

(** [req.WithContext(ctx)]: a shallow copy, so [Body] still points to
    the same reader. *)
Definition WithContext (req : Request) (ctx : Context) : Request :=
  mkRequest (Method req) (URL req) (Header req) (Body req) (GetBody req)
            (ContentLength req) ctx.

(** A response body: the bytes a full read yields, or the error the read
    ends with. *)
Record ResponseBody : Type := mkResponseBody {
  payload : list byte;
  read_error : option error;
}.

Record Response : Type := mkResponse {
  StatusCode : Z;
  RespBody : option ResponseBody;
}.

(** [http.NewRequest(method, url, body)] once the method and the URL have
    been accepted: [Body] wraps the reader that was passed in (no copy);
    for the three in-memory readers [ContentLength] and [GetBody] are
    taken from the bytes still unread at this moment, and an empty one
    becomes [NoBody]; for any other reader [GetBody] stays nil. *)
Definition new_request (method url : string) (body : option nat) (st : Store)
  : Request :=
  let method := if String.eqb method "" then MethodGet else method in
  match body with
  | None => mkRequest method url ∅ None None 0 Background
  | Some a =>
      match st !! a with
      | Some (mkStream OtherReader _) | None =>
          mkRequest method url ∅ (Some (ReaderAt a)) None 0 Background
      | Some (mkStream _ bytes) =>
          if decide (bytes = [])
          then mkRequest method url ∅ (Some NoBody) (Some SourceNoBody) 0
                         Background
          else mkRequest method url ∅ (Some (ReaderAt a))
                         (Some (SourceSnapshot bytes))
                         (Z.of_nat (length bytes)) Background
      end
  end.

(** The bytes a reader of [req.Body] can still get. *)
Definition body_bytes (st : Store) (b : option BodyRef) : list byte :=
  match b with
  | Some (ReaderAt a) => from_option unread [] (st !! a)
  | _ => []
  end.

(** Reading [n] bytes from [req.Body] moves the shared stream forward. *)
Definition consume (st : Store) (b : option BodyRef) (n : nat) : Store :=
  match b with
  | Some (ReaderAt a) =>
      match st !! a with
      | Some s => <[a := mkStream (kind s) (drop n (unread s))]> st
      | None => st
      end
  | _ => st
  end.

(** Calling [req.GetBody()].  A nil function value panics. *)
Definition call_GetBody (req : Request) (st : Store)
  : Run (option BodyRef * Store) :=
  match GetBody req with
  | None => Panics
  | Some SourceNoBody => Returns (Some NoBody, st)
  | Some (SourceSnapshot bytes) =>
      let '(a, st') := alloc st (mkStream BytesReader bytes) in
      Returns (Some (ReaderAt a), st')
  end.

End http.

Module resty.

Import http.

(** [Result] of one target. *)
Record Result : Type := mkResult {
  Request : option http.Request;
  Response : option http.Response;
  ResponseBody : list byte;
  Err : option error;
}.

(** [type Client interface { Do(req) (resp, err) }].  A client is a
    Go object, so a call may change it.  The call is given the bytes
    that the request's body stream can still deliver and says how many
    of them it read. *)
Class Client (C : Type) : Type :=
  client_Do : C → http.Request → list byte
              → (option http.Response * option error) * C * nat.

(** [context.CancelFunc].  What calling it does to the batch is seen by
    the reducers as [CtxDone] among the selects that follow. *)
Inductive CancelFunc : Type := cancelFunc.

(** [type Handle func(req, resp, respBody, cf, err) error] *)
Definition Handle : Type :=
  option http.Request → option http.Response → list byte → CancelFunc
  → option error → option error.

(** [requestInterceptor func(req *http.Request) error]: it may change the
    request it is given. *)
Definition Interceptor : Type := http.Request → http.Request * option error.

(** The fields of [Resty] that [Do], [httpDo], [Wait] and [First] use.
    The client is kept apart, in the state the goroutines share. *)
Record Resty : Type := mkResty {
  qty : Z;
  done : Chan Result;
  handle : option Handle;
  requestInterceptor : option Interceptor;
  retry : Z;
  header : gmap string string;
}.

Definition set_batch (r : Resty) (n : Z) (ch : Chan Result) : Resty :=
  mkResty n ch (handle r) (requestInterceptor r) (retry r) (header r).

(** What a worker does besides returning, in order. *)
Inductive Event : Type :=
  | EvClientDo (i : Z) (req : http.Request)
               (resp : option http.Response) (err : option error)
  | EvBodyClose (i : Z)
  | EvSleep (d : Z)
  | EvReadAll
  | EvLastClose.

(** [time.Second], in nanoseconds. *)
Definition Second : Z := 1000000000.

Definition is_post_or_put (m : string) : bool :=
  String.eqb m MethodPost || String.eqb m MethodPut.

(** success: 200,201,202,204 *)
Definition success_status (resp : option http.Response) : bool :=
  match resp with
  | Some resp =>
      (StatusCode resp =? StatusOK) || (StatusCode resp =? StatusCreated)
      || (StatusCode resp =? StatusAccepted)
      || (StatusCode resp =? StatusNoContent)
  | None => false
  end.

Definition has_body (resp : option http.Response) : bool :=
  match resp with
  | Some resp => bool_decide (is_Some (RespBody resp))
  | None => false
  end.

Definition too_many_requests (resp : option http.Response) : bool :=
  match resp with
  | Some resp => StatusCode resp =? StatusTooManyRequests
  | None => false
  end.

Section Executor.

Context {C : Type} `{!Client C}.

(** The state the goroutines of one batch share. *)
Record World : Type := mkWorld {
  w_client : C;
  w_store : Store;
  w_trace : list Event;
}.

Definition log (w : World) (e : Event) : World :=
  mkWorld (w_client w) (w_store w) (w_trace w ++ [e]).

(** [r.client.Do(request)] on the shared state. *)
Definition call_client (i : Z) (request : http.Request) (w : World)
  : option http.Response * option error * World :=
  let '(resp, err, c, n) :=
    client_Do (w_client w) request (body_bytes (w_store w) (Body request)) in
  (resp, err,
   mkWorld c (consume (w_store w) (Body request) n)
           (w_trace w ++ [EvClientDo i request resp err])).

(** One pass through the body of the retry loop of [httpDo]. *)
Inductive Pass : Type :=
  | Break (request : http.Request) (resp : option http.Response)
          (err : option error) (w : World)
  | Again (request : http.Request) (w : World)
  | PassPanics.

Definition replays (request : http.Request) : bool :=
  is_post_or_put (Method request) && bool_decide (is_Some (Body request)).

Definition pass (r : Resty) (i : Z) (request : http.Request) (w : World)
  : Pass :=
  let cloned :=
    if replays request
    then call_GetBody request (w_store w)
    else Returns (None, w_store w) in
  match cloned with
  | Returns (bodyCopy, st) =>
      let '(resp, err, w) :=
        call_client i request (mkWorld (w_client w) st (w_trace w)) in
      if success_status resp then Break request resp err w
      else
        let w := if has_body resp && (i <? retry r)
                 then log w (EvBodyClose i) else w in
        if i =? retry r then Break request resp err w
        else
          let w := if too_many_requests resp
                   then log w (EvSleep (1 * Second)) else w in
          let request := if replays request
                         then set_Body request bodyCopy else request in
          Again request w
  | _ => PassPanics
  end.

(** [for i := 1; ; i++ { ... }].  [fuel] bounds the passes that
    follow this one; [retry_loop_fuel] below shows that [retry r - i]
    is always enough. *)
Fixpoint retry_loop (fuel : nat) (r : Resty) (i : Z)
         (request : http.Request) (w : World)
  : Run (http.Request * option http.Response * option error * World) :=
  match pass r i request w with
  | Break request resp err w => Returns (request, resp, err, w)
  | Again request w =>
      match fuel with
      | O => Hangs
      | S fuel => retry_loop fuel r (i + 1) request w
      end
  | PassPanics => Panics
  end.

(** The part of [httpDo] after the loop: read and close the body. *)
Definition finish (request : http.Request) (resp : option http.Response)
           (err : option error) (w : World) : Run (Result * World) :=
  match resp with
  | None => Returns (mkResult (Some request) None [] err, w)
  | Some rsp =>
      match RespBody rsp with
      | None => Panics
      | Some b =>
          let w := log w EvReadAll in
          match read_error b with
          | Some e => Returns (mkResult (Some request) resp [] (Some e), w)
          | None =>
              Returns (mkResult (Some request) resp (payload b) err,
                       log w EvLastClose)
          end
      end
  end.

(** [httpDo] up to the send on [r.done]: the [Result] it is about to
    post. *)
Definition httpDo (r : Resty) (req : http.Request) (w : World)
  : Run (Result * World) :=
  let attempts :=
    if 0 <? retry r
    then retry_loop (Z.to_nat (retry r - 1)) r 1 req w
    else
      let '(resp, err, w) := call_client 1 (WithContext req BatchContext) w in
      Returns (req, resp, err, w) in
  match attempts with
  | Returns (request, resp, err, w) => finish request resp err w
  | Panics => Panics
  | Hangs => Hangs
  end.

(** *** Dispatch: [Do] *)

(** What [http.NewRequest] rejects before it builds anything: a method
    that is not a token, a URL that does not parse. *)
Variable request_error : string → string → option error.

Definition NewRequest (method url : string) (body : option nat) (st : Store)
  : http.Request + error :=
  match request_error method url with
  | Some err => inr err
  | None => inl (new_request method url body st)
  end.

(** What one pass of the loop of [Do] does for its target: a send on
    [r.done], or a [go] statement. *)
Inductive Dispatch : Type :=
  | Post (res : Result)
  | Spawn (req : http.Request).

Definition dispatch (r : Resty) (method : string) (bodyReader : option nat)
           (url : string) (st : Store) : Dispatch :=
  match NewRequest method url bodyReader st with
  | inr err => Post (mkResult None None [] (Some err))
  | inl req =>
      let req :=
        map_fold (λ key value req, Header_Set req key value) req (header r) in
      (* reuse http connection if it is possible *)
      let req := Header_Set req "Connection" "keep-alive" in
      match requestInterceptor r with
      | Some f =>
          match f req with
          | (req, Some err) => Post (mkResult (Some req) None [] (Some err))
          | (req, None) => Spawn (WithContext req BatchContext)
          end
      | None => Spawn (WithContext req BatchContext)
      end
  end.

Definition set_done (r : Resty) (ch : Chan Result) : Resty :=
  set_batch r (qty r) ch.

(** [Do] when no worker runs before the loop is over: the [Resty] it
    returns and the requests it has started a goroutine for. *)
Fixpoint Do_loop (r : Resty) (method : string) (bodyReader : option nat)
         (urls : list string) (st : Store) (spawned : list http.Request)
  : Run (Resty * list http.Request) :=
  match urls with
  | [] => Returns (r, spawned)
  | url :: urls =>
      match dispatch r method bodyReader url st with
      | Post res =>
          match chan_send (done r) res with
          | Some ch => Do_loop (set_done r ch) method bodyReader urls st spawned
          | None => Hangs
          end
      | Spawn req => Do_loop r method bodyReader urls st (spawned ++ [req])
      end
  end.

Definition Do (r : Resty) (method : string) (body : option nat)
           (urls : list string) (st : Store) : Run (Resty * list http.Request) :=
  let n := Z.of_nat (length urls) in
  let r := set_batch r n (make_chan n) in
  let bodyReader := body in
  Do_loop r method bodyReader urls st [].

Definition DoGet (r : Resty) (urls : list string) (st : Store) :=
  Do r MethodGet None urls st.

Definition DoPost (r : Resty) (body : option nat) (urls : list string)
           (st : Store) :=
  Do r MethodPost body urls st.

Definition DoPut (r : Resty) (body : option nat) (urls : list string)
           (st : Store) :=
  Do r MethodPut body urls st.

Definition DoDelete (r : Resty) (urls : list string) (st : Store) :=
  Do r MethodDelete None urls st.

(** *** The batch as concurrent processes *)

(** A worker goroutine between two passes of its loop.  [wk_target] is
    the URL the loop of [Do] was at when it started the goroutine; the
    code does not keep it, the proofs do. *)
Record Worker : Type := mkWorker {
  wk_target : string;
  wk_request : http.Request;
  wk_pass : Z;
}.

Inductive Progress : Type :=
  | Continues (wk : Worker) (w : World)
  | Posts (res : Result) (w : World)
  | WorkerPanics.

Definition post_of (r : Run (Result * World)) : Progress :=
  match r with
  | Returns (res, w) => Posts res w
  | _ => WorkerPanics
  end.

(** One turn of a worker: one pass of the retry loop and, when the loop
    is left, the rest of [httpDo]. *)
Definition worker_step (r : Resty) (wk : Worker) (w : World) : Progress :=
  if 0 <? retry r
  then
    match pass r (wk_pass wk) (wk_request wk) w with
    | Again request w =>
        Continues (mkWorker (wk_target wk) request (wk_pass wk + 1)) w
    | Break request resp err w => post_of (finish request resp err w)
    | PassPanics => WorkerPanics
    end
  else
    let '(resp, err, w) :=
      call_client 1 (WithContext (wk_request wk) BatchContext) w in
    post_of (finish (wk_request wk) resp err w).

(** A worker left alone takes its turns one after the other. *)
Fixpoint worker_run (fuel : nat) (r : Resty) (wk : Worker) (w : World)
  : Run (Result * World) :=
  match worker_step r wk w with
  | Continues wk w =>
      match fuel with
      | O => Hangs
      | S fuel => worker_run fuel r wk w
      end
  | Posts res w => Returns (res, w)
  | WorkerPanics => Panics
  end.

(** The batch while [Do] and its workers run.  [b_posted] lists, in the
    order of the sends, the target each queued [Result] stands for. *)
Record Batch : Type := mkBatch {
  b_resty : Resty;
  b_urls : list string;
  b_workers : list Worker;
  b_posted : list string;
  b_world : World;
}.

(** The scheduler's choice: the goroutine that called [Do], or the
    [k]-th worker that has not posted yet. *)
Inductive Choice : Type :=
  | TurnOfDo
  | TurnOfWorker (k : nat).

(** A turn moves the batch on; or it cannot be taken, because the
    goroutine chosen is not there or would have to wait at its send; or
    the goroutine panics and the process is gone. *)
Inductive Step : Type :=
  | Moves (b : Batch)
  | Waits
  | Crashes.

Definition step (method : string) (bodyReader : option nat) (ch : Choice)
           (b : Batch) : Step :=
  let r := b_resty b in
  match ch with
  | TurnOfDo =>
      match b_urls b with
      | [] => Waits
      | url :: urls =>
          match dispatch r method bodyReader url (w_store (b_world b)) with
          | Post res =>
              match chan_send (done r) res with
              | Some ch =>
                  Moves (mkBatch (set_done r ch) urls (b_workers b)
                                 (b_posted b ++ [url]) (b_world b))
              | None => Waits
              end
          | Spawn req =>
              Moves (mkBatch r urls (b_workers b ++ [mkWorker url req 1])
                             (b_posted b) (b_world b))
          end
      end
  | TurnOfWorker k =>
      match b_workers b !! k with
      | None => Waits
      | Some wk =>
          match worker_step r wk (b_world b) with
          | Continues wk w =>
              Moves (mkBatch r (b_urls b) (<[k := wk]> (b_workers b))
                             (b_posted b) w)
          | Posts res w =>
              match chan_send (done r) res with
              | Some ch =>
                  Moves (mkBatch (set_done r ch) (b_urls b)
                                 (delete k (b_workers b))
                                 (b_posted b ++ [wk_target wk]) w)
              | None => Waits
              end
          | WorkerPanics => Crashes
          end
      end
  end.

Fixpoint exec (method : string) (bodyReader : option nat)
         (sched : list Choice) (b : Batch) : Step :=
  match sched with
  | [] => Moves b
  | ch :: sched =>
      match step method bodyReader ch b with
      | Moves b => exec method bodyReader sched b
      | stop => stop
      end
  end.

(** The batch right after the first three statements of [Do]. *)
Definition start (r : Resty) (urls : list string) (w : World) : Batch :=
  let n := Z.of_nat (length urls) in
  mkBatch (set_batch r n (make_chan n)) urls [] [] w.

(** Nothing is left to run. *)
Definition finished (b : Batch) : Prop := b_urls b = [] ∧ b_workers b = [].

End Executor.

(** *** Reducers: [Wait] and [First] *)

(** What one [select] of a reducer yields. *)
Inductive Select : Type :=
  | CtxDone
  | Received (result : Result).

(** The loop of [Wait].  [sel] is what the successive selects yield; when
    it is used up nothing more arrives and the select waits.  Beside the
    value returned, the selects that were not consumed. *)
Fixpoint Wait_loop (r : Resty) (errs : list error) (n : Z) (sel : list Select)
  : Run (list error * list Select) :=
  match sel with
  | [] => Hangs
  | CtxDone :: sel => Returns (errs, sel)
  | Received result :: sel =>
      let errs :=
        match handle r with
        | Some h =>
            match h (Request result) (Response result) (ResponseBody result)
                    cancelFunc (Err result) with
            | Some err => errs ++ [err]
            | None => errs
            end
        | None =>
            match Err result with
            | Some err => errs ++ [err]
            | None => errs
            end
        end in
      let n := n + 1 in
      if qty r <=? n then Returns (errs, sel) else Wait_loop r errs n sel
  end.

Definition Wait (r : Resty) (sel : list Select)
  : Run (list error * list Select) :=
  let errs := [] in
  let n := 0 in
  if qty r =? 0 then Returns (errs, sel) else Wait_loop r errs n sel.

(** The loop of [First]; a returned [None] is Go's nil slice. *)
Fixpoint First_loop (r : Resty) (errs : list error) (n : Z) (sel : list Select)
  : Run (option (list error) * list Select) :=
  match sel with
  | [] => Hangs
  | CtxDone :: sel => Returns (Some errs, sel)
  | Received result :: sel =>
      let continue errs :=
        let n := n + 1 in
        if qty r <=? n then Returns (Some errs, sel)
        else First_loop r errs n sel in
      match handle r with
      | Some h =>
          match h (Request result) (Response result) (ResponseBody result)
                  cancelFunc (Err result) with
          | Some err => continue (errs ++ [err])
          | None => Returns (None, sel)
          end
      | None =>
          match Err result with
          | Some err => continue (errs ++ [err])
          | None => Returns (None, sel)
          end
      end
  end.

Definition First (r : Resty) (sel : list Select)
  : Run (option (list error) * list Select) :=
  let errs := [] in
  let n := 0 in
  if qty r =? 0 then Returns (Some errs, sel) else First_loop r errs n sel.

End resty.

(** ** Replicated collaborator update: [zboxcore/sdk] *)

Module sdk.

Import http.

(** [blockchain.StorageNode] *)
Record StorageNode : Type := mkStorageNode { ID : string; Baseurl : string }.

Record Allocation : Type := mkAllocation {
  Blobbers : list StorageNode;
  Tx : string;
}.

(** Modelled from the spec: the type [Consensus], declared elsewhere in
    package sdk.  The spec's Quorum is
    [{achievedCount, requiredThreshold}]. *)
Record Consensus : Type := mkConsensus {
  achievedCount : Z;
  requiredThreshold : Z;
}.

(** Modelled from the spec: the method [Consensus.Done], declared
    elsewhere in package sdk.  "Feed each boolean into the Quorum:
    increment [achievedCount] on true." *)
Definition Consensus_Done (c : Consensus) : Consensus :=
  mkConsensus (achievedCount c + 1) (requiredThreshold c).

(** Modelled from the spec: the method [Consensus.isConsensusOk],
    declared elsewhere in package sdk.  "A quorum's decision is
    [achievedCount ≥ requiredThreshold]." *)
Definition isConsensusOk (c : Consensus) : bool :=
  requiredThreshold c <=? achievedCount c.

(** The wait group is not a field here: every worker below runs to its
    end before the code after [req.wg.Wait()] starts. *)
Record CollaboratorRequest : Type := mkCollaboratorRequest {
  a : Allocation;
  path : string;
  collaboratorID : string;
  consensus : Consensus;
}.

Definition set_consensus (req : CollaboratorRequest) (c : Consensus)
  : CollaboratorRequest :=
  mkCollaboratorRequest (a req) (path req) (collaboratorID req) c.

Section Replicas.

(** [zboxutil.NewCollaboratorRequest(baseUrl, allocation, body)] and
    [zboxutil.DeleteCollaboratorRequest(baseUrl, allocation, query)]:
    the request, or the error of building it.  The form and the query are
    given by their fields. *)
Variable NewCollaboratorRequest :
  string → string → list (string * string) → http.Request + error.
Variable DeleteCollaboratorRequest :
  string → string → list (string * string) → http.Request + error.

(** [formWriter.FormDataContentType()] *)
Variable FormDataContentType : string.

(** What the replica behind a request answers within the deadline:
    the result of [zboxutil.Client.Do]. *)
Variable Client_Do : http.Request → option http.Response * option error.

(** Modelled from the spec: [zboxutil.HttpDo(ctx, cncl, req, f)], which is
    declared in package zboxutil.  One request is sent for the replica and
    its outcome, a response or the error of the transport or of the
    deadline, is handed to [f] once; the error of [f] is returned. *)
Definition HttpDo {S : Type} (req : http.Request)
           (f : option http.Response → option error → S → Run (option error * S))
           (s : S) : Run (option error * S) :=
  let '(resp, err) := Client_Do req in f resp err s.

(** The function literal that both workers hand to [HttpDo]; its state is
    the channel [rspCh].  Without an error it uses [resp.Body] (the
    deferred [Close]), which panics on a nil response or a nil body. *)
Definition report (resp : option http.Response) (err : option error)
           (rspCh : Chan bool) : Run (option error * Chan bool) :=
  match err with
  | Some e =>
      match chan_send rspCh false with
      | Some ch => Returns (Some e, ch)
      | None => Hangs
      end
  | None =>
      match resp with
      | None => Panics
      | Some resp =>
          match RespBody resp with
          | None => Panics
          | Some _ =>
              match chan_send rspCh (bool_decide (StatusCode resp = StatusOK)) with
              | Some ch => Returns (None, ch)
              | None => Hangs
              end
          end
      end
  end.

Definition updateCollaboratorToBlobber (req : CollaboratorRequest)
           (blobber : StorageNode) (blobberIdx : nat) (rspCh : Chan bool)
  : Run (Chan bool) :=
  let body := [("path", path req); ("collab_id", collaboratorID req)] in
  match NewCollaboratorRequest (Baseurl blobber) (Tx (a req)) body with
  | inr err => Returns rspCh
  | inl httpreq =>
      let httpreq := Header_Set httpreq "Content-Type" FormDataContentType in
      match HttpDo httpreq report rspCh with
      | Returns (err, ch) => Returns ch
      | Panics => Panics
      | Hangs => Hangs
      end
  end.

Definition removeCollaboratorFromBlobber (req : CollaboratorRequest)
           (blobber : StorageNode) (blobberIdx : nat) (rspCh : Chan bool)
  : Run (Chan bool) :=
  let query := [("path", path req); ("collab_id", collaboratorID req)] in
  match DeleteCollaboratorRequest (Baseurl blobber) (Tx (a req)) query with
  | inr err => Returns rspCh
  | inl httpreq =>
      match HttpDo httpreq report rspCh with
      | Returns (err, ch) => Returns ch
      | Panics => Panics
      | Hangs => Hangs
      end
  end.

(** The goroutines started by the first loop, run one after the other in
    the order [sched] in which the scheduler lets them post. *)
Fixpoint run_workers
         (worker : StorageNode → nat → Chan bool → Run (Chan bool))
         (sched : list (nat * StorageNode)) (rspCh : Chan bool)
  : Run (Chan bool) :=
  match sched with
  | [] => Returns rspCh
  | (i, blobber) :: sched =>
      match worker blobber i rspCh with
      | Returns ch => run_workers worker sched ch
      | Panics => Panics
      | Hangs => Hangs
      end
  end.

(** The second loop: [numList] receives.  All workers are over, so a
    receive from the empty channel is never served. *)
Fixpoint collect (numList : nat) (rspCh : Chan bool) (c : Consensus)
  : Run Consensus :=
  match numList with
  | O => Returns c
  | S numList =>
      match chan_recv rspCh with
      | None => Hangs
      | Some (resp, ch) =>
          collect numList ch (if resp : bool then Consensus_Done c else c)
      end
  end.

(** The goroutines of a call, with the index each was started with. *)
Definition jobs (req : CollaboratorRequest) : list (nat * StorageNode) :=
  imap (λ i blobber, (i, blobber)) (Blobbers (a req)).

(** [sched] is the order in which the workers of [jobs req] get to run. *)
Definition UpdateCollaboratorToBlobbers (req : CollaboratorRequest)
           (sched : list (nat * StorageNode))
  : Run (bool * CollaboratorRequest) :=
  let numList := length (Blobbers (a req)) in
  let rspCh := make_chan (Z.of_nat numList) in
  match run_workers (updateCollaboratorToBlobber req) sched rspCh with
  | Returns rspCh =>
      match collect numList rspCh (consensus req) with
      | Returns c => Returns (isConsensusOk c, set_consensus req c)
      | Panics => Panics
      | Hangs => Hangs
      end
  | Panics => Panics
  | Hangs => Hangs
  end.

Definition RemoveCollaboratorFromBlobbers (req : CollaboratorRequest)
           (sched : list (nat * StorageNode))
  : Run (bool * CollaboratorRequest) :=
  let numList := length (Blobbers (a req)) in
  let rspCh := make_chan (Z.of_nat numList) in
  match run_workers (removeCollaboratorFromBlobber req) sched rspCh with
  | Returns rspCh =>
      match collect numList rspCh (consensus req) with
      | Returns c => Returns (isConsensusOk c, set_consensus req c)
      | Panics => Panics
      | Hangs => Hangs
      end
  | Panics => Panics
  | Hangs => Hangs
  end.

End Replicas.

End sdk.

(** ** go-ethereum, as far as the bindings of [authorizers] use it *)

Module common.

(** [common.Address] and [common.Hash], in hexadecimal; the zero value is
    the empty string. *)
Definition Address : Type := string.
Definition Hash : Type := string.

End common.

Module types.

(** [types.Log] *)
Record Log : Type := mkLog {
  Address : common.Address;
  Topics : list common.Hash;
  Data : list byte;
  BlockNumber : Z;
  TxHash : common.Hash;
  TxIndex : Z;
  BlockHash : common.Hash;
  Index : Z;
  Removed : bool;
}.

(** [types.Log{}] *)
Definition zero : Log := mkLog "" [] [] 0 "" 0 "" 0 false.

End types.

(** ** Package authorizers: the events of the contract *)

Module authorizers.

Record AuthorizersOwnershipTransferred : Type := mkAuthorizersOwnershipTransferred {
  PreviousOwner : common.Address;
  NewOwner : common.Address;
  Raw : types.Log;
}.

(** The iterator with the two channels it selects on.  [logs] holds, oldest
    first, the logs that the channel [it.logs] still delivers.  [sub] is
    what [it.sub.Err()] delivers once the subscription is over: the error
    it ended with, or nil when the channel is closed after a complete
    retrieval; [None] when the subscription never ends.  A subscription
    that is over sends no more logs. *)
Record AuthorizersOwnershipTransferredIterator : Type :=
  mkAuthorizersOwnershipTransferredIterator {
  Event : option AuthorizersOwnershipTransferred;
  event : string;
  logs : list types.Log;
  sub : option (option error);
  done : bool;
  fail : option error;
}.

Section Contract.

(** [contract.UnpackLog(out, event, log)] on a fresh [out]: the two
    fields of [out] after the call, and the error. *)
Variable UnpackLog :
  string → types.Log → common.Address * common.Address * option error.

(** The body of [case log := <-it.logs], the same in both selects of
    [Next]; [rest] is what the channel holds after the receive. *)
Definition received (it : AuthorizersOwnershipTransferredIterator)
           (log : types.Log) (rest : list types.Log)
  : bool * AuthorizersOwnershipTransferredIterator :=
  let '(previousOwner, newOwner, err) := UnpackLog (event it) log in
  match err with
  | Some err =>
      (false,
       mkAuthorizersOwnershipTransferredIterator
         (Some (mkAuthorizersOwnershipTransferred previousOwner newOwner
                                                  types.zero))
         (event it) rest (sub it) (done it) (Some err))
  | None =>
      (true,
       mkAuthorizersOwnershipTransferredIterator
         (Some (mkAuthorizersOwnershipTransferred previousOwner newOwner log))
         (event it) rest (sub it) (done it) (fail it))
  end.

(** [Next] up to its second [select]: what a call does on an iterator
    that has failed or completed.  The select has a default, so the call
    never waits. *)
Definition Next_completed (it : AuthorizersOwnershipTransferredIterator)
  : bool * AuthorizersOwnershipTransferredIterator :=
  match fail it with
  | Some _ => (false, it)
  | None =>
      match logs it with
      | log :: rest => received it log rest
      | [] => (false, it)
      end
  end.

(** [Next].  When both channels are ready the select takes either;
    [takes_err] says which.  The recursive call at the end of the second
    select runs on an iterator with [done] set, that is
    [Next_completed]. *)
Definition Next (takes_err : bool) (it : AuthorizersOwnershipTransferredIterator)
  : Run (bool * AuthorizersOwnershipTransferredIterator) :=
  match fail it with
  | Some _ => Returns (false, it)
  | None =>
      if done it then Returns (Next_completed it)
      else
        let completed err :=
          Next_completed
            (mkAuthorizersOwnershipTransferredIterator
               (Event it) (event it) (logs it) (sub it) true err) in
        match logs it, sub it with
        | log :: rest, None => Returns (received it log rest)
        | log :: rest, Some err =>
            if takes_err then Returns (completed err)
            else Returns (received it log rest)
        | [], Some err => Returns (completed err)
        | [], None => Hangs
        end
  end.

Definition Error (it : AuthorizersOwnershipTransferredIterator)
  : option error :=
  fail it.

(** [contract.FilterLogs(opts, name, query...)]: the two channels, or an
    error. *)
Variable FilterOpts : Type.
Variable FilterLogs :
  FilterOpts → string → list (list common.Address) →
  list types.Log * option (option error) + error.

Definition FilterOwnershipTransferred (opts : FilterOpts)
           (previousOwner newOwner : list common.Address)
  : AuthorizersOwnershipTransferredIterator + error :=
  let previousOwnerRule := foldl (λ rule item, rule ++ [item]) [] previousOwner in
  let newOwnerRule := foldl (λ rule item, rule ++ [item]) [] newOwner in
  match FilterLogs opts "OwnershipTransferred"
                   [previousOwnerRule; newOwnerRule] with
  | inr err => inr err
  | inl (logs, sub) =>
      inl (mkAuthorizersOwnershipTransferredIterator
             None "OwnershipTransferred" logs sub false None)
  end.

Definition ParseOwnershipTransferred (log : types.Log)
  : option AuthorizersOwnershipTransferred * option error :=
  let '(previousOwner, newOwner, err) :=
    UnpackLog "OwnershipTransferred" log in
  match err with
  | Some err => (None, Some err)
  | None =>
      (Some (mkAuthorizersOwnershipTransferred previousOwner newOwner log),
       None)
  end.

(** What the inner select of the forwarding loop of
    [WatchOwnershipTransferred] yields, and the outer one.  A log comes
    with what happens to the send of its event, should it unpack. *)
Inductive Sending : Type :=
  | SinkTakes
  | ErrWhileSending (err : option error)
  | QuitWhileSending.

Inductive Selected : Type :=
  | LogArrives (log : types.Log) (sending : Sending)
  | ErrArrives (err : option error)
  | QuitArrives.

(** The function that [WatchOwnershipTransferred] hands to
    [event.NewSubscription]: its return value and the events it has put on
    [sink].  [sel] is what the successive selects yield; when it is used
    up nothing more arrives and the select waits. *)
Fixpoint forward (sel : list Selected)
         (sink : list AuthorizersOwnershipTransferred)
  : Run (option error * list AuthorizersOwnershipTransferred) :=
  match sel with
  | [] => Hangs
  | LogArrives log sending :: sel =>
      let '(previousOwner, newOwner, err) :=
        UnpackLog "OwnershipTransferred" log in
      match err with
      | Some err => Returns (Some err, sink)
      | None =>
          let event :=
            mkAuthorizersOwnershipTransferred previousOwner newOwner log in
          match sending with
          | SinkTakes => forward sel (sink ++ [event])
          | ErrWhileSending err => Returns (err, sink)
          | QuitWhileSending => Returns (None, sink)
          end
      end
  | ErrArrives err :: _ => Returns (err, sink)
  | QuitArrives :: _ => Returns (None, sink)
  end.

(** [contract.WatchLogs(opts, name, query...)]: its error, if any; the
    two channels it returns are what [sel] describes. *)
Variable WatchOpts : Type.
Variable WatchLogs :
  WatchOpts → string → list (list common.Address) → option error.

Definition WatchOwnershipTransferred (opts : WatchOpts)
           (previousOwner newOwner : list common.Address)
  : (list Selected → list AuthorizersOwnershipTransferred →
     Run (option error * list AuthorizersOwnershipTransferred)) + error :=
  let previousOwnerRule := foldl (λ rule item, rule ++ [item]) [] previousOwner in
  let newOwnerRule := foldl (λ rule item, rule ++ [item]) [] newOwner in
  match WatchLogs opts "OwnershipTransferred"
                  [previousOwnerRule; newOwnerRule] with
  | Some err => inr err
  | None => inl forward
  end.

End Contract.

End authorizers.

(** * Vocabulary of the properties *)

Module resty_facts.

Import http resty.

(** ** The retry loop of [httpDo] *)

Section Retry.

Context {C : Type} `{!Client C}.

(** The reply of a call of the client, and the client after it. *)
Definition reply (c : C) (req : http.Request) (bytes : list byte)
  : option http.Response * option error :=
  (client_Do c req bytes).1.1.

Definition after (c : C) (req : http.Request) (bytes : list byte) : C :=
  (client_Do c req bytes).1.2.

(** "The next calls of the client answer as [Ps] says, one after the
    other, whatever they are asked." *)
Fixpoint next_calls (Ps : list (option http.Response * option error → Prop))
         (c : C) : Prop :=
  match Ps with
  | [] => True
  | P :: Ps =>
      ∀ req bytes, P (reply c req bytes) ∧ next_calls Ps (after c req bytes)
  end.

(** The contract of [http.Client.Do] that [httpDo] relies on when it reads
    the body: a response comes with a body. *)
Definition bodied (x : option http.Response * option error) : Prop :=
  ∀ resp, x.1 = Some resp → is_Some (RespBody resp).

Definition conforming : Prop :=
  ∀ (c : C) req bytes, bodied (reply c req bytes).

(** The contract on the caller of the executor: a POST or PUT request
    with a body can hand out copies of it. *)
Definition replayable (request : http.Request) : Prop :=
  replays request = true → is_Some (GetBody request).

(** The events of one pass, from what the client answered. *)
Definition segment (r : Resty) (i : Z)
           (a : http.Request * (option http.Response * option error))
  : list Event :=
  let '(req, (resp, err)) := a in
  EvClientDo i req resp err ::
  (if success_status resp then []
   else (if has_body resp && (i <? retry r) then [EvBodyClose i] else [])
        ++ (if (i =? retry r) then []
            else if too_many_requests resp then [EvSleep (1 * Second)]
                 else [])).

Fixpoint run_trace (r : Resty) (i : Z)
         (atts : list (http.Request * (option http.Response * option error)))
  : list Event :=
  match atts with
  | [] => []
  | a :: atts => segment r i a ++ run_trace r (i + 1) atts
  end.

Definition is_call (e : Event) : bool :=
  match e with EvClientDo _ _ _ _ => true | _ => false end.

Definition is_sleep (e : Event) : bool :=
  match e with EvSleep _ => true | _ => false end.

(** The number of calls of the client in a trace. *)
Definition calls (tr : list Event) : nat := length (filter is_call tr).

(** The calls of the client, numbered from [i], for the answers [atts]. *)
Fixpoint call_events (i : Z)
         (atts : list (http.Request * (option http.Response * option error)))
  : list Event :=
  match atts with
  | [] => []
  | (req, (resp, err)) :: atts =>
      EvClientDo i req resp err :: call_events (i + 1) atts
  end.

(** The calls and the sleeps that the fixed back-off policy asks for: one
    sleep of one second after each call but the last allowed one that was
    answered 429. *)
Fixpoint backoff (r : Resty) (i : Z)
         (atts : list (http.Request * (option http.Response * option error)))
  : list Event :=
  match atts with
  | [] => []
  | (req, (resp, err)) :: atts =>
      EvClientDo i req resp err ::
      (if (i <? retry r) && too_many_requests resp
       then [EvSleep (1 * Second)] else [])
      ++ backoff r (i + 1) atts
  end.

Definition good_status (code : Z) : Prop :=
  code ∈ [StatusOK; StatusCreated; StatusAccepted; StatusNoContent].

(** A failed attempt: an error and no response, or a response whose
    status is not one of 200, 201, 202, 204. *)
Definition failed (x : option http.Response * option error) : Prop :=
  match x with
  | (Some resp, _) => ¬ good_status (StatusCode resp)
  | (None, err) => is_Some err
  end.

Definition succeeded (x : option http.Response * option error) : Prop :=
  match x with
  | (Some resp, None) => good_status (StatusCode resp)
  | _ => False
  end.

(** An attempt answered with status 429. *)
Definition rate_limited (x : option http.Response * option error) : Prop :=
  match x.1 with
  | Some resp => StatusCode resp = StatusTooManyRequests
  | None => False
  end.

(** An attempt that failed with the error [e] of the context and no
    response. *)
Definition context_done (e : error)
           (x : option http.Response * option error) : Prop :=
  x = (None, Some e).

(** [context.DeadlineExceeded] *)
Definition DeadlineExceeded : error := "context deadline exceeded".

(** "A call of the client that fails because the context is done is the
    last call": in [tr] no call follows a call that failed with [e]. *)
Definition no_call_after (e : error) (tr : list Event) : Prop :=
  ∀ pre i req post,
    tr = pre ++ EvClientDo i req None (Some e) :: post →
    filter is_call post = [].

(** The body of the last response, and the error of reading it, if any. *)
Definition body_of (resp : option http.Response) : option http.ResponseBody :=
  match resp with
  | Some resp => RespBody resp
  | None => None
  end.

Definition read_failure (resp : option http.Response) : option error :=
  match body_of resp with
  | Some b => read_error b
  | None => None
  end.

(** The events after the loop, from the last response. *)
Definition drain_trace (resp : option http.Response) : list Event :=
  match resp with
  | None => []
  | Some _ =>
      EvReadAll :: match read_failure resp with
                   | Some _ => []
                   | None => [EvLastClose]
                   end
  end.

(** The [Result] that [httpDo] builds from the last answer. *)
Definition outcome (request : http.Request) (resp : option http.Response)
           (err : option error) : Result :=
  match read_failure resp with
  | Some e => mkResult (Some request) resp [] (Some e)
  | None =>
      mkResult (Some request) resp
               (from_option payload [] (body_of resp)) err
  end.

End Retry.

(** ** The batch *)

(** The contract on the caller of [Do], for a batch with retries: a body
    handed to POST or PUT is one of the in-memory readers that
    [http.NewRequest] can replay, and the interceptor leaves a request
    replayable. *)
Definition body_ok (method : string) (body : option nat) (st : Store) : Prop :=
  match body with
  | None => True
  | Some a =>
      is_post_or_put method = false
      ∨ ∃ s, st !! a = Some s ∧ kind s ≠ OtherReader
  end.

Definition interceptor_ok (r : Resty) : Prop :=
  ∀ f req, requestInterceptor r = Some f →
           replayable req → replayable (f req).1.

Definition admissible (r : Resty) (method : string) (body : option nat)
           (st : Store) : Prop :=
  0 < retry r → body_ok method body st ∧ interceptor_ok r.

(** The two things the loop of [Do] can do for a target. *)
Definition posted_of (d : Dispatch) : option Result :=
  match d with Post res => Some res | Spawn _ => None end.

Definition spawned_of (d : Dispatch) : option http.Request :=
  match d with Post _ => None | Spawn req => Some req end.

(** The request of a target as the interceptor gets it. *)
Definition prepared (r : Resty) (method : string) (body : option nat)
           (url : string) (st : Store) : http.Request :=
  Header_Set
    (map_fold (λ key value req, Header_Set req key value)
              (new_request method url body st) (header r))
    "Connection" "keep-alive".

(** "Request construction fails for the target, or the configured
    interceptor returns an error for it": the error, if any.  [None] is a
    target that nothing refuses. *)
Definition refused (request_error : string → string → option error)
           (r : Resty) (method : string) (body : option nat) (st : Store)
           (url : string) : option error :=
  match request_error method url with
  | Some e => Some e
  | None =>
      match requestInterceptor r with
      | Some f => (f (prepared r method body url st)).2
      | None => None
      end
  end.

(** The request that a worker goroutine is started with for a target that
    nothing refuses: the prepared request, as the interceptor leaves it,
    under the context of the batch. *)
Definition started (r : Resty) (method : string) (body : option nat)
           (st : Store) (url : string) : http.Request :=
  WithContext
    match requestInterceptor r with
    | Some f => (f (prepared r method body url st)).1
    | None => prepared r method body url st
    end
    BatchContext.

(** The stream objects of [st0] are still there in [st], with their
    dynamic type. *)
Definition same_kinds (st0 st : Store) : Prop :=
  ∀ a s0, st0 !! a = Some s0 → ∃ s, st !! a = Some s ∧ kind s = kind s0.

Section Batch.

Context {C : Type} `{!Client C}.

(** The turns a worker may still need. *)
Definition work (r : Resty) (wk : Worker) : nat :=
  Z.to_nat (Z.max 1 (retry r) + 1 - wk_pass wk).

(** A bound on the turns left in a batch. *)
Definition turns_left (b : @Batch C) : nat :=
  (length (b_urls b) * S (Z.to_nat (Z.max 1 (retry (b_resty b))))
   + sum_list (work (b_resty b) <$> b_workers b))%nat.

Definition worker_ok (r : Resty) (wk : Worker) : Prop :=
  (0 < retry r → replayable (wk_request wk))
  ∧ 1 ≤ wk_pass wk ≤ Z.max 1 (retry r).

(** What holds of a batch started by [Do r method body urls] in the
    store [st0], all along. *)
Record batch_inv (r : Resty) (urls : list string) (st0 : Store)
       (b : @Batch C) : Prop := mkBatchInv {
  inv_targets :
    b_posted b ++ (wk_target <$> b_workers b) ++ b_urls b ≡ₚ urls;
  inv_queued :
    length (chan_buf (done (b_resty b))) = length (b_posted b);
  inv_cap : chan_cap (done (b_resty b)) = Z.of_nat (length urls);
  inv_qty : qty (b_resty b) = Z.of_nat (length urls);
  inv_retry : retry (b_resty b) = retry r;
  inv_header : header (b_resty b) = header r;
  inv_interceptor : requestInterceptor (b_resty b) = requestInterceptor r;
  inv_handle : handle (b_resty b) = handle r;
  inv_workers : Forall (worker_ok r) (b_workers b);
  inv_store : same_kinds st0 (w_store (b_world b));
}.

End Batch.

(** A stub client for tests.  Its state is the number of calls made so
    far; call number [n] (from 0) is answered [nth n replies default],
    and the body of the request is not read. *)
Definition stub (replies : list (option http.Response * option error))
           (default : option http.Response * option error) : Client nat :=
  λ n _ _, (nth n replies default, S n, 0%nat).

(** How a reducer judges a [Result]: the error the handler returns for
    it, or without a handler its [Err]; [None] accepts. *)
Definition verdict (r : Resty) (result : Result) : option error :=
  match handle r with
  | Some h =>
      h (Request result) (Response result) (ResponseBody result) cancelFunc
        (Err result)
  | None => Err result
  end.

(** Inputs for the examples. *)
Definition reply_with (code : Z) (body : string)
  : option http.Response * option error :=
  (Some (mkResponse code (Some (mkResponseBody (String.list_byte_of_string body) None))),
   None).

Definition reply_error (e : error) : option http.Response * option error :=
  (None, Some e).

Definition plain (retry : Z) : Resty :=
  mkResty 0 (make_chan 0) None None retry ∅.

Definition get_request (url : string) : http.Request :=
  new_request MethodGet url None [].

Definition fresh_world : @World nat := mkWorld 0%nat [] [].

(** [http.NewRequest] accepting every URL but the empty one. *)
Definition no_empty_url (method url : string) : option error :=
  if String.eqb url "" then Some "parse : empty url"%string else None.

Definition two_targets : list string := ["http://blobber-1"; "http://blobber-2"].

Definition hello : list byte := String.list_byte_of_string "hello".

(** A store whose only object is a [*bytes.Reader] over "hello", and one
    whose only object is a reader of another type, say an [*os.File]. *)
Definition hello_reader : Store := [mkStream BytesReader hello].

Definition hello_file : Store := [mkStream OtherReader hello].

(** A client that reads the body of each request to its end, keeps what
    it has read, and answers 200. *)
Definition recorder : Client (list (list byte)) :=
  λ seen _ bytes, (reply_with 200 "", seen ++ [bytes], length bytes).

(** Results for the examples of the reducers. *)
Definition result_of (x : option http.Response * option error) : Result :=
  mkResult None x.1 [] x.2.

Definition waiting (n : Z) (h : option Handle) : Resty :=
  mkResty n (make_chan n) h None 3 ∅.

(** A handler that accepts a response with status 200 only. *)
Definition only_200 : Handle :=
  λ _ resp _ _ err,
    match err, resp with
    | Some e, _ => Some e
    | None, Some resp =>
        if StatusCode resp =? StatusOK then None
        else Some "unexpected status"%string
    | None, None => Some "no response"%string
    end.

End resty_facts.

Module sdk_facts.

Import http sdk.

(** What a replica's answer makes its worker post on [rspCh]: [false] for
    an error of the transport or of the deadline, else whether the status
    is 200.  [None]: the answer breaks the contract of the client (no
    response and no error, or a response without a body). *)
Definition vote (x : option http.Response * option error) : option bool :=
  match x with
  | (_, Some _) => Some false
  | (Some resp, None) =>
      match RespBody resp with
      | Some _ => Some (bool_decide (StatusCode resp = StatusOK))
      | None => None
      end
  | (None, None) => None
  end.

(** Whether a request could be built. *)
Definition built (x : http.Request + error) : bool :=
  match x with inl _ => true | inr _ => false end.

(** The fields of the form, and of the query. *)
Definition fields (req : CollaboratorRequest) : list (string * string) :=
  [("path", path req); ("collab_id", collaboratorID req)].

Section Votes.

Variable NewCollaboratorRequest :
  string → string → list (string * string) → http.Request + error.
Variable DeleteCollaboratorRequest :
  string → string → list (string * string) → http.Request + error.
Variable FormDataContentType : string.
Variable Client_Do : http.Request → option http.Response * option error.

(** "The replica [blobber] reports [v] for the update." *)
Definition update_reports (req : CollaboratorRequest) (blobber : StorageNode)
           (v : bool) : Prop :=
  ∃ httpreq,
    NewCollaboratorRequest (Baseurl blobber) (Tx (a req)) (fields req)
    = inl httpreq ∧
    vote (Client_Do (Header_Set httpreq "Content-Type" FormDataContentType))
    = Some v.

(** "The replica [blobber] reports [v] for the removal." *)
Definition remove_reports (req : CollaboratorRequest) (blobber : StorageNode)
           (v : bool) : Prop :=
  ∃ httpreq,
    DeleteCollaboratorRequest (Baseurl blobber) (Tx (a req)) (fields req)
    = inl httpreq ∧
    vote (Client_Do httpreq) = Some v.

End Votes.

(** The pattern that both operations follow, for any worker. *)
Definition fan_out
           (worker : StorageNode → nat → Chan bool → Run (Chan bool))
           (req : CollaboratorRequest) (sched : list (nat * StorageNode))
  : Run (bool * CollaboratorRequest) :=
  let numList := length (Blobbers (a req)) in
  match run_workers worker sched (make_chan (Z.of_nat numList)) with
  | Returns rspCh =>
      match collect numList rspCh (consensus req) with
      | Returns c => Returns (isConsensusOk c, set_consensus req c)
      | Panics => Panics
      | Hangs => Hangs
      end
  | Panics => Panics
  | Hangs => Hangs
  end.

(** The number of replicas that accept. *)
Definition accepted (votes : list bool) : Z :=
  Z.of_nat (length (filter Is_true votes)).

(** Inputs for the examples: five replicas; a request is built for every
    base URL but the empty one; a replica answers with the status that
    [statuses] gives for its URL, or not at all within the deadline. *)
Definition five : list StorageNode :=
  [mkStorageNode "b1" "http://blobber-1"; mkStorageNode "b2" "http://blobber-2";
   mkStorageNode "b3" "http://blobber-3"; mkStorageNode "b4" "http://blobber-4";
   mkStorageNode "b5" "http://blobber-5"].

Definition build (baseUrl tx : string) (fields : list (string * string))
  : http.Request + error :=
  if String.eqb baseUrl "" then inr "parse : empty url"%string
  else inl (new_request MethodPost baseUrl None []).

Definition answers (statuses : list (string * Z)) (req : http.Request)
  : option http.Response * option error :=
  match list_find (λ p, p.1 = URL req) statuses with
  | Some (_, (_, code)) =>
      (Some (mkResponse code (Some (mkResponseBody [] None))), None)
  | None => (None, Some "context deadline exceeded"%string)
  end.

Definition update_request (blobbers : list StorageNode) (threshold : Z)
  : CollaboratorRequest :=
  mkCollaboratorRequest (mkAllocation blobbers "tx") "/file" "collab"
                        (mkConsensus 0 threshold).

End sdk_facts.

Module resty_extra_facts.

Import http resty resty_facts.

(** A worker is at a pass its loop can be at. *)
Definition pass_in_range (r : Resty) (wk : Worker) : Prop :=
  1 ≤ wk_pass wk ≤ Z.max 1 (retry r).

Section Batch.

Context {C : Type} `{!Client C}.

(** The calls of the client made so far in a batch, and those that its
    workers and the targets not yet dispatched may still make. *)
Definition calls_budget (r : Resty) (b : @Batch C) : nat :=
  (calls (w_trace (b_world b))
   + sum_list (work r <$> b_workers b)
   + length (b_urls b) * Z.to_nat (Z.max 1 (retry r)))%nat.

End Batch.

(** The response bodies that a trace has received, and those it has
    closed. *)
Definition with_body (e : Event) : bool :=
  match e with EvClientDo _ _ resp _ => has_body resp | _ => false end.

Definition is_close (e : Event) : bool :=
  match e with EvBodyClose _ | EvLastClose => true | _ => false end.

Definition bodies (tr : list Event) : nat := length (filter with_body tr).

Definition closes (tr : list Event) : nat := length (filter is_close tr).

(** A response body that is still open after [httpDo]: the one whose
    read has failed. *)
Definition left_open (res : Result) : nat :=
  match read_failure (Response res) with Some _ => 1 | None => 0 end.

(** A client that reads the body of each request to its end, keeps what
    it has read, and answers 503. *)
Definition busy_reader : Client (list (list byte)) :=
  λ seen _ bytes, (reply_with 503 "busy", seen ++ [bytes], length bytes).

End resty_extra_facts.

Module sdk_extra_facts.

Import http sdk sdk_facts.

(** What a worker does with [rspCh]: it returns without posting, it
    posts a boolean, or it panics. *)
Inductive Act : Type :=
  | Silent
  | Says (v : bool)
  | Dies.

#[global] Instance Act_eq_dec : EqDecision Act.
Proof. solve_decision. Defined.

Definition said (x : Act) : option bool :=
  match x with Says v => Some v | _ => None end.

(** What the worker of a replica does, from the request built for it, or
    the error of building it, and from the answer to that request. *)
Definition act_of (built : http.Request + error)
           (answer : http.Request → option http.Response * option error)
  : Act :=
  match built with
  | inr _ => Silent
  | inl httpreq =>
      match vote (answer httpreq) with
      | Some v => Says v
      | None => Dies
      end
  end.

Section Acts.

Variable NewCollaboratorRequest :
  string → string → list (string * string) → http.Request + error.
Variable DeleteCollaboratorRequest :
  string → string → list (string * string) → http.Request + error.
Variable FormDataContentType : string.
Variable Client_Do : http.Request → option http.Response * option error.

Definition update_act (req : CollaboratorRequest) (blobber : StorageNode)
  : Act :=
  act_of (NewCollaboratorRequest (Baseurl blobber) (Tx (a req)) (fields req))
         (λ httpreq,
            Client_Do (Header_Set httpreq "Content-Type" FormDataContentType)).

Definition remove_act (req : CollaboratorRequest) (blobber : StorageNode)
  : Act :=
  act_of (DeleteCollaboratorRequest (Baseurl blobber) (Tx (a req)) (fields req))
         Client_Do.

End Acts.

(** A worker that does what [act] says, whenever [rspCh] has room. *)
Definition behaves (worker : StorageNode → nat → Chan bool → Run (Chan bool))
           (act : StorageNode → Act) : Prop :=
  ∀ blobber i (ch : Chan bool),
    Z.of_nat (length (chan_buf ch)) < chan_cap ch →
    worker blobber i ch
    = match act blobber with
      | Silent => Returns ch
      | Says v => Returns (mkChan (chan_buf ch ++ [v]) (chan_cap ch))
      | Dies => Panics
      end.

(** How an operation ends, from what its workers do. *)
Definition decided (req : CollaboratorRequest) (acts : list Act)
  : Run (bool * CollaboratorRequest) :=
  if decide (Dies ∈ acts) then Panics
  else if decide (Silent ∈ acts) then Hangs
  else
    let c := mkConsensus
               (achievedCount (consensus req) + accepted (omap said acts))
               (requiredThreshold (consensus req)) in
    Returns (isConsensusOk c, set_consensus req c).

(** A replica that answers without a body, against the contract of
    [http.Client.Do]. *)
Definition bodiless (code : Z) (req : http.Request)
  : option http.Response * option error :=
  (Some (mkResponse code None), None).

End sdk_extra_facts.

Module authorizers_facts.

Import authorizers.

Section Iteration.

Variable UnpackLog :
  string → types.Log → common.Address * common.Address * option error.

(** The loop [for it.Next() { ... it.Event ... }] of a caller: the events
    it sees and the iterator it is left with.  [takes_err k] is the
    choice of the select in call number [k]; [fuel] bounds the calls. *)
Fixpoint iterate (fuel : nat) (takes_err : nat → bool) (k : nat)
         (it : AuthorizersOwnershipTransferredIterator)
  : Run (list AuthorizersOwnershipTransferred
         * AuthorizersOwnershipTransferredIterator) :=
  match fuel with
  | O => Hangs
  | S fuel =>
      match Next UnpackLog (takes_err k) it with
      | Returns (true, it) =>
          match iterate fuel takes_err (S k) it with
          | Returns (evs, it') => Returns (option_list (Event it) ++ evs, it')
          | Panics => Panics
          | Hangs => Hangs
          end
      | Returns (false, it) => Returns ([], it)
      | Panics => Panics
      | Hangs => Hangs
      end
  end.

(** A log that unpacks, and the event it stands for. *)
Definition unpacks (name : string) (log : types.Log) : Prop :=
  (UnpackLog name log).2 = None.

Definition event_of (name : string) (log : types.Log)
  : AuthorizersOwnershipTransferred :=
  mkAuthorizersOwnershipTransferred (UnpackLog name log).1.1
                                    (UnpackLog name log).1.2 log.

(** How a select ends the forwarding loop, if it does: with the error of
    a log that does not unpack, with what the subscription ended with, or
    with nil when the caller has unsubscribed. *)
Definition ends (s : Selected) : option (option error) :=
  match s with
  | LogArrives log sending =>
      match (UnpackLog "OwnershipTransferred" log).2 with
      | Some err => Some (Some err)
      | None =>
          match sending with
          | SinkTakes => None
          | ErrWhileSending err => Some err
          | QuitWhileSending => Some None
          end
      end
  | ErrArrives err => Some err
  | QuitArrives => Some None
  end.

End Iteration.

(** Inputs for the examples: a log whose topics are the signature of the
    event and the two owners unpacks; any other does not. *)
Definition transfer (previousOwner newOwner : common.Address) (block : Z)
  : types.Log :=
  types.mkLog "0xa0" ["0x8be0079c"; previousOwner; newOwner] [] block "" 0 ""
              0 false.

Definition unpack_topics (name : string) (log : types.Log)
  : common.Address * common.Address * option error :=
  match types.Topics log with
  | [_; previousOwner; newOwner] => (previousOwner, newOwner, None)
  | _ => ("", "", Some "abi: topic/field count mismatch")%string
  end.

Definition fresh (logs : list types.Log) (sub : option (option error))
  : AuthorizersOwnershipTransferredIterator :=
  mkAuthorizersOwnershipTransferredIterator
    None "OwnershipTransferred" logs sub false None.

End authorizers_facts.

(** * Properties *)

Module resty_proofs.

Import http resty resty_facts.

Section RetryFacts.

Context {C : Type} `{!Client C}.

(** Another pass follows only before the last allowed one. *)
Lemma pass_again (r : Resty) i request (w : @World C) request' w' :
  pass r i request w = Again request' w' → i ≠ retry r.
Proof.
  unfold pass. intros Hp Hi. rewrite (proj2 (Z.eqb_eq _ _) Hi) in Hp.
  by repeat case_match.
Qed.

(** The fuel that [httpDo] gives to the loop is enough: the loop never
    runs out of it. *)
Lemma retry_loop_fuel (r : Resty) :
  ∀ fuel i request (w : @World C),
    i ≤ retry r →
    (Z.to_nat (retry r - i) ≤ fuel)%nat →
    retry_loop fuel r i request w ≠ Hangs.
Proof.
  induction fuel as [|fuel IH]; intros i request w Hi Hfuel; simpl.
  - destruct (pass r i request w) eqn:Hp; try done.
    apply pass_again in Hp. lia.
  - destruct (pass r i request w) eqn:Hp; try done.
    apply pass_again in Hp. apply IH; lia.
Qed.

(** A worker that takes all its turns in a row is [httpDo]. *)
Lemma worker_run_retry_loop (r : Resty) target :
  0 < retry r →
  ∀ fuel i request (w : @World C),
    worker_run fuel r (mkWorker target request i) w
    = match retry_loop fuel r i request w with
      | Returns (request, resp, err, w) =>
          match finish request resp err w with
          | Returns x => Returns x
          | _ => Panics
          end
      | Panics => Panics
      | Hangs => Hangs
      end.
Proof.
  intros Hpos. induction fuel as [|fuel IH]; intros i request w; simpl;
    unfold worker_step; simpl;
    destruct (Z.ltb_spec 0 (retry r)); try lia;
    destruct (pass r i request w) as [request' resp err w'|request' w'|];
    try done.
  all: unfold post_of; by destruct (finish _ _ _ _) as [[res w'']| |].
Qed.

Lemma finish_no_hang request resp err (w : @World C) :
  finish request resp err w ≠ Hangs.
Proof. unfold finish. by repeat case_match. Qed.

Lemma worker_run_httpDo (r : Resty) target request (w : @World C) :
  worker_run (Z.to_nat (retry r - 1)) r (mkWorker target request 1) w
  = httpDo r request w.
Proof.
  unfold httpDo. destruct (Z.ltb_spec 0 (retry r)) as [Hpos|Hneg].
  - rewrite worker_run_retry_loop by done.
    destruct (retry_loop _ r 1 request w) as [[[[request' resp] err] w']| |];
      try done.
    pose proof (finish_no_hang request' resp err w').
    by destruct (finish _ _ _ _).
  - replace (Z.to_nat (retry r - 1)) with O by lia. simpl.
    unfold worker_step. destruct (Z.ltb_spec 0 (retry r)); [lia|]. simpl.
    destruct (call_client _ _ _) as [[resp err] w'].
    pose proof (finish_no_hang request resp err w').
    unfold post_of. by destruct (finish _ _ _ _) as [[res w'']| |].
Qed.

(** What one pass does, read off the answer of the client. *)
Lemma pass_cases (r : Resty) (i : Z) (request : http.Request) (w : World) :
  replayable request →
  ∃ bytes,
    let x := reply (w_client w) request bytes in
    match pass r i request w with
    | Break request' resp err w' =>
        request' = request ∧ (resp, err) = x ∧
        (success_status resp = true ∨ i = retry r) ∧
        w_client w' = after (w_client w) request bytes ∧
        w_trace w' = w_trace w ++ segment r i (request, x)
    | Again request' w' =>
        success_status x.1 = false ∧ i ≠ retry r ∧ replayable request' ∧
        w_client w' = after (w_client w) request bytes ∧
        w_trace w' = w_trace w ++ segment r i (request, x)
    | PassPanics => False
    end.
Proof.
  intros Hrep. unfold pass, call_client, segment, reply, after.
  assert (∃ bodyCopy st,
    (if replays request then call_GetBody request (w_store w)
     else Returns (None, w_store w)) = Returns (bodyCopy, st)
    ∧ replayable (if replays request then set_Body request bodyCopy
                  else request)) as (bodyCopy & st & -> & Hrep').
  { destruct (replays request) eqn:Hr; [|by eauto].
    destruct (Hrep Hr) as [src Hsrc]. unfold call_GetBody. rewrite Hsrc.
    destruct src; simpl; eexists _, _; (split; [done|]);
      intros _; simpl; by rewrite Hsrc. }
  simpl. exists (body_bytes st (Body request)).
  destruct (client_Do (w_client w) request _) as [[[resp err] c] n].
  simpl. destruct (success_status resp) eqn:Hs; [by repeat split; auto|].
  destruct (Z.eqb_spec i (retry r)) as [Hi|Hi].
  - destruct (has_body resp && _); simpl; rewrite ?app_nil_r, <- ?app_assoc;
      by repeat split; auto.
  - destruct (has_body resp && _), (too_many_requests resp); simpl;
      rewrite <- ?app_assoc; by repeat split; auto.
Qed.

Lemma retry_loop_calls (r : Resty) Ps :
  ∀ Q i request (w : World) fuel,
    replayable request →
    next_calls (Ps ++ [Q]) (w_client w) →
    Forall (λ P, ∀ x, P x → success_status x.1 = false) Ps →
    (length Ps ≤ fuel)%nat →
    i + Z.of_nat (length Ps) ≤ retry r →
    (∀ x, Q x → success_status x.1 = true)
    ∨ i + Z.of_nat (length Ps) = retry r →
    ∃ atts request' resp err w',
      retry_loop fuel r i request w = Returns (request', resp, err, w') ∧
      w_trace w' = w_trace w ++ run_trace r i atts ∧
      Forall2 (λ P a, P a.2) (Ps ++ [Q]) atts ∧
      last atts = Some (request', (resp, err)).
Proof.
  induction Ps as [|P Ps IH]; intros Q i request w fuel Hrep Hnext Hfail Hfuel Hle Hend.
  - destruct (pass_cases r i request w Hrep) as [bytes Hp].
    destruct (Hnext request bytes) as [HQ _]. simpl in Hp.
    destruct fuel; simpl; destruct (pass r i request w) as [request' resp err w'|request' w'|];
      try done.
    all: try (destruct Hp as (Hs & Hi & _); destruct Hend as [Hend|Hend];
              [by rewrite (Hend _ HQ) in Hs | simpl in Hend; lia]).
    all: destruct Hp as (-> & Hx & _ & _ & Htr);
      exists [(request, reply (w_client w) request bytes)], request, resp, err, w';
      simpl; rewrite app_nil_r; split_and!; [done|done| |by rewrite <- Hx].
    all: by repeat constructor.
  - destruct (pass_cases r i request w Hrep) as [bytes Hp].
    destruct (Hnext request bytes) as [HP Hnext']. simpl in Hp.
    apply Forall_cons_1 in Hfail as [HPf Hfail]. simpl in Hfuel, Hle.
    destruct fuel as [|fuel]; [lia|]. simpl.
    destruct (pass r i request w) as [request' resp err w'|request' w'|]; try done.
    + destruct Hp as (_ & Hx & [Hs|Hi] & _); [|lia].
      apply HPf in HP. rewrite <- Hx in HP. simpl in HP. congruence.
    + destruct Hp as (_ & _ & Hrep' & Hc & Htr).
      rewrite <- Hc in Hnext'.
      destruct (IH Q (i + 1) request' w' fuel Hrep' Hnext' Hfail)
        as (atts & request'' & resp & err & w'' & Hrun & Htr' & Hall & Hlast);
        [lia|lia|destruct Hend as [Hend|Hend];
                  [by left|right; simpl in Hend; lia]|].
      exists ((request, reply (w_client w) request bytes) :: atts),
        request'', resp, err, w''.
      split_and!; [done| |by constructor|].
      * rewrite Htr', Htr. simpl. by rewrite <- app_assoc.
      * destruct atts; [by inversion Hall|done].
Qed.

Lemma next_calls_bodied Ps :
  conforming → ∀ c : C, next_calls Ps c →
  next_calls (map (λ P x, P x ∧ bodied x) Ps) c.
Proof.
  intros Hconf. induction Ps as [|P Ps IH]; intros c Hnext; [done|].
  intros req bytes. destruct (Hnext req bytes) as [HP Hnext'].
  split; [split; [done|apply Hconf]|by apply IH].
Qed.

Lemma finish_outcome request resp err (w : @World C) :
  bodied (resp, err) →
  ∃ w' : @World C, finish request resp err w = Returns (outcome request resp err, w')
        ∧ w_client w' = w_client w
        ∧ w_store w' = w_store w
        ∧ w_trace w' = w_trace w ++ drain_trace resp.
Proof.
  intros Hb. unfold finish, outcome, drain_trace, read_failure, body_of.
  destruct resp as [rsp|]; [|eexists; by rewrite app_nil_r].
  destruct (Hb rsp eq_refl) as [b ->].
  destruct (read_error b); eexists; (split; [done|]); simpl;
    by rewrite <- ?app_assoc.
Qed.

(** The loop ends within [retry r - i + 1] passes, whatever the client
    answers. *)
Lemma retry_loop_total (r : Resty) :
  conforming →
  ∀ fuel i request (w : World),
    replayable request →
    i ≤ retry r →
    (Z.to_nat (retry r - i) ≤ fuel)%nat →
    ∃ atts request' resp err w',
      retry_loop fuel r i request w = Returns (request', resp, err, w') ∧
      w_trace w' = w_trace w ++ run_trace r i atts ∧
      last atts = Some (request', (resp, err)) ∧
      bodied (resp, err) ∧
      i + Z.of_nat (length atts) ≤ retry r + 1.
Proof.
  intros Hconf. induction fuel as [|fuel IH]; intros i request w Hrep Hi Hfuel.
  - destruct (pass_cases r i request w Hrep) as [bytes Hp]. simpl in *.
    destruct (pass r i request w) as [request' resp err w'|request' w'|];
      [|destruct Hp as (_ & ? & _); lia|done].
    destruct Hp as (-> & Hx & _ & _ & Htr).
    exists [(request, reply (w_client w) request bytes)], request, resp, err, w'.
    simpl. rewrite app_nil_r. split_and!; [done|done|by rewrite <- Hx| |lia].
    rewrite Hx. apply Hconf.
  - destruct (pass_cases r i request w Hrep) as [bytes Hp]. simpl in *.
    destruct (pass r i request w) as [request' resp err w'|request' w'|];
      [| |done].
    + destruct Hp as (-> & Hx & _ & _ & Htr).
      exists [(request, reply (w_client w) request bytes)], request, resp, err, w'.
      simpl. rewrite app_nil_r. split_and!; [done|done|by rewrite <- Hx| |lia].
      rewrite Hx. apply Hconf.
    + destruct Hp as (_ & Hne & Hrep' & _ & Htr).
      destruct (IH (i + 1) request' w' Hrep')
        as (atts & request'' & resp & err & w'' & Hrun & Htr' & Hlast & Hb & Hlen);
        [lia|lia|].
      exists ((request, reply (w_client w) request bytes) :: atts),
        request'', resp, err, w''.
      split_and!; [done| | |done|simpl length; lia].
      * rewrite Htr', Htr. simpl. by rewrite <- app_assoc.
      * destruct atts; [done|done].
Qed.

(** [httpDo] with a retry limit, from what the next calls of the client
    answer: the calls made, the events, and the [Result]. *)
Lemma httpDo_calls (r : Resty) request (w : World) Ps Q :
  0 < retry r →
  conforming →
  replayable request →
  next_calls (Ps ++ [Q]) (w_client w) →
  Forall (λ P, ∀ x, P x → success_status x.1 = false) Ps →
  1 + Z.of_nat (length Ps) ≤ retry r →
  (∀ x, Q x → success_status x.1 = true)
  ∨ 1 + Z.of_nat (length Ps) = retry r →
  ∃ atts request' resp err w',
    httpDo r request w = Returns (outcome request' resp err, w') ∧
    w_trace w' = w_trace w ++ run_trace r 1 atts ++ drain_trace resp ∧
    Forall2 (λ P a, P a.2 ∧ bodied a.2) (Ps ++ [Q]) atts ∧
    last atts = Some (request', (resp, err)).
Proof.
  intros Hretry Hconf Hrep Hnext Hfail Hle Hend.
  apply (next_calls_bodied _ Hconf) in Hnext. rewrite map_app in Hnext.
  destruct (retry_loop_calls r _ _ 1 request w (Z.to_nat (retry r - 1)) Hrep Hnext)
    as (atts & request' & resp & err & w' & Hrun & Htr & Hall & Hlast).
  - apply Forall_map. eapply Forall_impl; [exact Hfail|].
    intros P HP x [HPx _]. by apply HP.
  - rewrite length_map. lia.
  - by rewrite length_map.
  - rewrite length_map. destruct Hend as [HQ|Heq]; [left|by right].
    intros x [HQx _]. by apply HQ.
  - change [λ x, Q x ∧ bodied x] with (map (λ P x, P x ∧ bodied x) [Q]) in Hall.
    rewrite <- map_app in Hall. apply Forall2_fmap_l in Hall.
    assert (bodied (resp, err)) as Hb.
    { apply Forall2_app_inv_l in Hall as (atts1 & atts2 & _ & Hall' & ->).
      apply Forall2_cons_inv_l in Hall' as (a & atts2' & [_ Hb] & Hnil & ->).
      apply Forall2_nil_inv_l in Hnil as ->. rewrite last_snoc in Hlast.
      injection Hlast as ->. exact Hb. }
    destruct (finish_outcome request' resp err w' Hb) as (w'' & Hfin & _ & _ & Htr').
    exists atts, request', resp, err, w''. unfold httpDo.
    destruct (Z.ltb_spec 0 (retry r)); [|lia]. rewrite Hrun.
    split_and!; [done| |done|done].
    by rewrite Htr', Htr, <- app_assoc.
Qed.

(** [httpDo] with a retry limit returns, after at most [retry r] calls. *)
Lemma httpDo_total (r : Resty) request (w : World) :
  0 < retry r →
  conforming →
  replayable request →
  ∃ atts request' resp err w',
    httpDo r request w = Returns (outcome request' resp err, w') ∧
    w_trace w' = w_trace w ++ run_trace r 1 atts ++ drain_trace resp ∧
    last atts = Some (request', (resp, err)) ∧
    Z.of_nat (length atts) ≤ retry r.
Proof.
  intros Hretry Hconf Hrep.
  destruct (retry_loop_total r Hconf (Z.to_nat (retry r - 1)) 1 request w Hrep)
    as (atts & request' & resp & err & w' & Hrun & Htr & Hlast & Hb & Hlen);
    [lia|lia|].
  destruct (finish_outcome request' resp err w' Hb) as (w'' & Hfin & _ & _ & Htr').
  exists atts, request', resp, err, w''. unfold httpDo.
  destruct (Z.ltb_spec 0 (retry r)); [|lia]. rewrite Hrun.
  split_and!; [done| |done|lia].
  by rewrite Htr', Htr, <- app_assoc.
Qed.

Lemma good_status_success resp :
  good_status (StatusCode resp) ↔ success_status (Some resp) = true.
Proof.
  unfold good_status, success_status, StatusOK, StatusCreated, StatusAccepted,
    StatusNoContent.
  rewrite !elem_of_cons, elem_of_nil, !orb_true_iff, !Z.eqb_eq. tauto.
Qed.

Lemma failed_no_success x : failed x → success_status x.1 = false.
Proof.
  destruct x as [[resp|] err]; [|done]. simpl. intros Hf.
  apply not_true_is_false. intros Hs. apply Hf. by apply good_status_success.
Qed.

Lemma succeeded_success x : succeeded x → success_status x.1 = true.
Proof.
  destruct x as [[resp|] [err|]]; try done. simpl.
  apply good_status_success.
Qed.

Lemma rate_limited_spec x :
  rate_limited x → too_many_requests x.1 = true ∧ success_status x.1 = false.
Proof.
  unfold rate_limited. destruct x as [[resp|] err]; [|done]. simpl.
  intros ->. done.
Qed.

Lemma filter_call_run_trace (r : Resty) atts :
  ∀ i, filter is_call (run_trace r i atts) = call_events i atts.
Proof.
  induction atts as [|[req [resp err]] atts IH]; intros i; [done|].
  simpl. rewrite filter_cons_True by done. f_equal.
  rewrite filter_app, IH. by repeat case_match.
Qed.

Lemma filter_call_drain resp : filter is_call (drain_trace resp) = [].
Proof. destruct resp; [|done]. simpl. by destruct (read_failure _). Qed.

Lemma length_call_events atts : ∀ i, length (call_events i atts) = length atts.
Proof.
  induction atts as [|[req [resp err]] atts IH]; intros i; simpl; by rewrite ?IH.
Qed.

Lemma last_call_events atts request resp err :
  last atts = Some (request, (resp, err)) →
  ∀ i, last (call_events i atts)
       = Some (EvClientDo (i + Z.of_nat (length atts) - 1) request resp err).
Proof.
  induction atts as [|[req [rsp er]] atts IH]; [done|].
  intros Hlast i. destruct atts as [|a atts].
  - injection Hlast as -> -> ->. simpl. do 2 f_equal. lia.
  - specialize (IH Hlast (i + 1)). simpl length in *. simpl call_events in *.
    destruct a as [? [? ?]]. rewrite last_cons_cons. simpl in IH. rewrite IH.
    do 2 f_equal. lia.
Qed.

Lemma filter_backoff_run_trace (r : Resty) atts :
  ∀ i, i + Z.of_nat (length atts) ≤ retry r + 1 →
  filter (λ e, is_call e || is_sleep e) (run_trace r i atts) = backoff r i atts.
Proof.
  induction atts as [|[req [resp err]] atts IH]; intros i Hi; [done|].
  simpl in *. rewrite filter_cons_True by done. f_equal.
  rewrite filter_app, IH by lia. f_equal.
  destruct (too_many_requests resp) eqn:H429.
  - destruct (rate_limited_spec (resp, err)) as [_ Hs].
    { unfold rate_limited. destruct resp as [resp|]; [|done]. simpl in *. lia. }
    simpl in Hs. rewrite Hs, andb_true_r.
    destruct (Z.eqb_spec i (retry r)), (Z.ltb_spec i (retry r)), (has_body resp);
      simpl; try done; lia.
  - rewrite andb_false_r. by repeat case_match.
Qed.

Lemma filter_backoff_drain resp :
  filter (λ e, is_call e || is_sleep e) (drain_trace resp) = [].
Proof. destruct resp; [|done]. simpl. by destruct (read_failure _). Qed.

(** C6.  With a retry limit [retry r ≥ 1], a client that returns a
    body with every response and a request whose body can be replayed:
    when the client fails the first [k < retry r] attempts (an error, or
    a status other than 200, 201, 202, 204) and then succeeds, [httpDo]
    calls it exactly [k + 1] times and the [Result] carries the
    successful response; when the client fails every attempt, [httpDo]
    calls it exactly [retry r] times and the [Result] carries the last
    failure. *)
Theorem retry_until_success_or_limit (r : Resty) request (w : World) :
  1 ≤ retry r →
  conforming →
  replayable request →
  (∀ k : nat,
     Z.of_nat k < retry r →
     next_calls (replicate k failed ++ [succeeded]) (w_client w) →
     ∃ res w' tr request' resp,
       httpDo r request w = Returns (res, w') ∧
       w_trace w' = w_trace w ++ tr ∧
       calls tr = S k ∧
       last (filter is_call tr)
       = Some (EvClientDo (Z.of_nat (S k)) request' (Some resp) None) ∧
       good_status (StatusCode resp) ∧
       Response res = Some resp)
  ∧ (next_calls (replicate (Z.to_nat (retry r)) failed) (w_client w) →
     ∃ res w' tr request' resp err,
       httpDo r request w = Returns (res, w') ∧
       w_trace w' = w_trace w ++ tr ∧
       calls tr = Z.to_nat (retry r) ∧
       last (filter is_call tr)
       = Some (EvClientDo (retry r) request' resp err) ∧
       failed (resp, err) ∧
       Response res = resp ∧
       (read_failure resp = None → Err res = err)).
Proof.
  intros Hretry Hconf Hrep. split.
  - intros k Hk Hnext.
    destruct (httpDo_calls r request w (replicate k failed) succeeded)
      as (atts & request' & resp & err & w' & Hrun & Htr & Hall & Hlast);
      try done.
    + lia.
    + apply Forall_replicate. intros x. apply failed_no_success.
    + rewrite length_replicate. lia.
    + left. intros x. apply succeeded_success.
    + assert (length atts = S k) as Hlen.
      { apply Forall2_length in Hall.
        rewrite length_app, length_replicate in Hall. simpl in Hall. lia. }
      assert (succeeded (resp, err)) as Hok.
      { apply Forall2_app_inv_l in Hall as (atts1 & atts2 & _ & Hall & ->).
        apply Forall2_cons_inv_l in Hall as (a & atts2' & [HQ _] & Hnil & ->).
        apply Forall2_nil_inv_l in Hnil as ->. rewrite last_snoc in Hlast.
        by injection Hlast as ->. }
      destruct resp as [resp|]; [|done]. destruct err; [done|].
      exists (outcome request' (Some resp) None), w',
        (run_trace r 1 atts ++ drain_trace (Some resp)), request', resp.
      split_and!; [done|exact Htr| | |done|].
      * unfold calls.
        by rewrite filter_app, filter_call_run_trace, filter_call_drain,
          app_nil_r, length_call_events.
      * rewrite filter_app, filter_call_run_trace, filter_call_drain, app_nil_r.
        rewrite (last_call_events _ _ _ _ Hlast), Hlen. do 2 f_equal. lia.
      * unfold outcome. by destruct (read_failure _).
  - intros Hnext.
    assert (∃ n, Z.to_nat (retry r) = S n) as [n Hn] by (exists (Z.to_nat (retry r - 1)); lia).
    rewrite Hn, replicate_S_end in Hnext.
    destruct (httpDo_calls r request w (replicate n failed) failed)
      as (atts & request' & resp & err & w' & Hrun & Htr & Hall & Hlast);
      try done.
    + lia.
    + apply Forall_replicate. intros x. apply failed_no_success.
    + rewrite length_replicate. lia.
    + right. rewrite length_replicate. lia.
    + assert (length atts = S n) as Hlen.
      { apply Forall2_length in Hall.
        rewrite length_app, length_replicate in Hall. simpl in Hall. lia. }
      assert (failed (resp, err)) as Hok.
      { apply Forall2_app_inv_l in Hall as (atts1 & atts2 & _ & Hall & ->).
        apply Forall2_cons_inv_l in Hall as (a & atts2' & [HQ _] & Hnil & ->).
        apply Forall2_nil_inv_l in Hnil as ->. rewrite last_snoc in Hlast.
        by injection Hlast as ->. }
      exists (outcome request' resp err), w',
        (run_trace r 1 atts ++ drain_trace resp), request', resp, err.
      split_and!; [done|exact Htr| | |done| |].
      * unfold calls.
        rewrite filter_app, filter_call_run_trace, filter_call_drain,
          app_nil_r, length_call_events. lia.
      * rewrite filter_app, filter_call_run_trace, filter_call_drain, app_nil_r.
        rewrite (last_call_events _ _ _ _ Hlast), Hlen. do 2 f_equal. lia.
      * unfold outcome. by destruct (read_failure _).
      * unfold outcome. by intros ->.
Qed.

Lemma segment_rate_limited (r : Resty) i req x :
  rate_limited x → bodied x → i < retry r →
  ∃ resp, x.1 = Some resp ∧ StatusCode resp = StatusTooManyRequests ∧
    segment r i (req, x)
    = [EvClientDo i req (Some resp) x.2; EvBodyClose i; EvSleep (1 * Second)].
Proof.
  intros Hrl Hb Hi. destruct (rate_limited_spec x Hrl) as [H429 Hs].
  destruct x as [[resp|] err]; [|done]. exists resp.
  unfold rate_limited in Hrl. simpl in *. split_and!; [done..|].
  rewrite Hs, H429. destruct (Hb resp eq_refl) as [b Hbody].
  rewrite Hbody, bool_decide_eq_true_2 by done.
  destruct (Z.ltb_spec i (retry r)); [|lia].
  destruct (Z.eqb_spec i (retry r)); [lia|done].
Qed.

Lemma segment_last (r : Resty) req resp err :
  segment r (retry r) (req, (resp, err)) = [EvClientDo (retry r) req resp err].
Proof.
  unfold segment. rewrite Z.ltb_irrefl, Z.eqb_refl, andb_false_r.
  by destruct (success_status resp).
Qed.

(** C7.  With a retry limit [retry r ≥ 1], a client that returns a
    body with every response and a request whose body can be replayed:
    among the calls and sleeps of [httpDo], a sleep follows a call
    exactly when that call is not the last allowed one and was answered
    429, and it always lasts one second.  With retry limit 3 and a client
    that answers 429 every time: three calls, the body closed and one
    sleep of a second after the first and after the second, nothing of
    the kind after the third, and the [Result] carries the third
    response. *)
Theorem backoff_on_rate_limit (r : Resty) request (w : World) :
  1 ≤ retry r →
  conforming →
  replayable request →
  ∃ res w' atts resp,
    httpDo r request w = Returns (res, w') ∧
    w_trace w' = w_trace w ++ run_trace r 1 atts ++ drain_trace resp ∧
    Z.of_nat (length atts) ≤ retry r ∧
    filter (λ e, is_call e || is_sleep e)
           (run_trace r 1 atts ++ drain_trace resp)
    = backoff r 1 atts ∧
    (retry r = 3 →
     next_calls (replicate 3 rate_limited) (w_client w) →
     ∃ req1 req2 req3 resp1 resp2 resp3 err1 err2 err3,
       run_trace r 1 atts ++ drain_trace resp
       = [EvClientDo 1 req1 (Some resp1) err1; EvBodyClose 1;
          EvSleep (1 * Second);
          EvClientDo 2 req2 (Some resp2) err2; EvBodyClose 2;
          EvSleep (1 * Second);
          EvClientDo 3 req3 (Some resp3) err3]
         ++ drain_trace (Some resp3) ∧
       StatusCode resp1 = StatusTooManyRequests ∧
       StatusCode resp2 = StatusTooManyRequests ∧
       StatusCode resp3 = StatusTooManyRequests ∧
       Response res = Some resp3).
Proof.
  intros Hretry Hconf Hrep.
  destruct (httpDo_total r request w)
    as (atts & request' & resp & err & w' & Hrun & Htr & Hlast & Hlen);
    [lia|done|done|].
  exists (outcome request' resp err), w', atts, resp.
  split_and!; [done|done|done| |].
  - rewrite filter_app, filter_backoff_drain, app_nil_r.
    apply filter_backoff_run_trace. lia.
  - intros H3 Hnext.
    destruct (httpDo_calls r request w [rate_limited; rate_limited] rate_limited)
      as (atts' & request'' & resp' & err' & w'' & Hrun' & Htr' & Hall & Hlast');
      [lia|done|done|done| |simpl; lia|right; simpl; lia|].
    { repeat constructor; intros x Hx; by apply rate_limited_spec. }
    rewrite Hrun in Hrun'. injection Hrun' as Hout <-.
    rewrite Htr in Htr'. apply app_inv_head in Htr'. rewrite Htr'.
    assert (Response (outcome request' resp err) = resp) as ->
      by (unfold outcome; by destruct (read_failure _)).
    assert (resp = resp') as <-.
    { apply (f_equal Response) in Hout. unfold outcome in Hout.
      by destruct (read_failure resp), (read_failure resp'). }
    simpl in Hall.
    apply Forall2_cons_inv_l in Hall as ([req1 x1] & atts1 & [H1 B1] & Hall & ->).
    apply Forall2_cons_inv_l in Hall as ([req2 x2] & atts2 & [H2 B2] & Hall & ->).
    apply Forall2_cons_inv_l in Hall as ([req3 x3] & atts3 & [H3' B3] & Hall & ->).
    apply Forall2_nil_inv_l in Hall as ->.
    simpl in Hlast'. injection Hlast' as -> ->.
    destruct (segment_rate_limited r 1 req1 x1) as (resp1 & Hx1 & Hc1 & Hs1);
      [done|done|lia|].
    destruct (segment_rate_limited r 2 req2 x2) as (resp2 & Hx2 & Hc2 & Hs2);
      [done|done|lia|].
    unfold rate_limited in H3'. simpl in H3'.
    destruct resp as [resp3|]; [|done].
    exists req1, req2, request'', resp1, resp2, resp3, x1.2, x2.2, err'.
    split_and!; [|done..].
    change (run_trace r 1 [(req1, x1); (req2, x2); (request'', (Some resp3, err'))])
      with (segment r 1 (req1, x1) ++ segment r 2 (req2, x2)
            ++ segment r (1 + 1 + 1) (request'', (Some resp3, err')) ++ []).
    rewrite Hs1, Hs2.
    replace (1 + 1 + 1) with (retry r) by lia. rewrite segment_last.
    replace (retry r) with 3 by lia. done.
Qed.

(** C3, as the code has it.  The retry loop does not look at the
    context.  When the first [j < retry r] attempts fail and the context
    is done from then on, so that every later call fails with the error
    [e] of the context, the remaining attempts are still made: the client
    is called exactly [retry r] times, and the error of the last call is
    the [Err] of the [Result], which has no response. *)
Theorem retries_ignore_deadline (r : Resty) request (w : World)
        (e : error) (j : nat) :
  1 ≤ retry r →
  conforming →
  replayable request →
  (j < Z.to_nat (retry r))%nat →
  next_calls (replicate j failed
              ++ replicate (Z.to_nat (retry r) - j) (context_done e))
             (w_client w) →
  ∃ res w' tr request',
    httpDo r request w = Returns (res, w') ∧
    w_trace w' = w_trace w ++ tr ∧
    calls tr = Z.to_nat (retry r) ∧
    last (filter is_call tr)
    = Some (EvClientDo (retry r) request' None (Some e)) ∧
    Response res = None ∧
    Err res = Some e.
Proof.
  intros Hretry Hconf Hrep Hj Hnext.
  set (m := (Z.to_nat (retry r) - j - 1)%nat).
  replace (Z.to_nat (retry r) - j)%nat with (S m) in Hnext by lia.
  rewrite replicate_S_end, app_assoc in Hnext.
  assert (0 < retry r) as Hpos by lia.
  destruct (httpDo_calls r request w _ _ Hpos Hconf Hrep Hnext)
    as (atts & request' & resp & err & w' & Hrun & Htr & Hall & Hlast).
  - apply Forall_app. split; apply Forall_replicate; intros x.
    + apply failed_no_success.
    + by intros ->.
  - rewrite length_app, !length_replicate. lia.
  - right. rewrite length_app, !length_replicate. lia.
  - assert (length atts = Z.to_nat (retry r)) as Hlen.
    { apply Forall2_length in Hall.
      rewrite !length_app, !length_replicate in Hall. simpl in Hall. lia. }
    assert ((resp, err) = (None, Some e)) as [= -> ->].
    { apply Forall2_app_inv_l in Hall as (atts1 & atts2 & _ & Hall & ->).
      apply Forall2_cons_inv_l in Hall as (a & atts2' & [HQ _] & Hnil & ->).
      apply Forall2_nil_inv_l in Hnil as ->. rewrite last_snoc in Hlast.
      injection Hlast as ->. exact HQ. }
    exists (outcome request' None (Some e)), w', (run_trace r 1 atts ++ []),
      request'.
    split_and!; [done|exact Htr| | |done|done].
    + unfold calls.
      by rewrite app_nil_r, filter_call_run_trace, length_call_events.
    + rewrite app_nil_r, filter_call_run_trace.
      rewrite (last_call_events _ _ _ _ Hlast), Hlen. do 2 f_equal. lia.
Qed.

End RetryFacts.

Lemma stub_conforming replies default :
  Forall bodied replies → bodied default → @conforming nat (stub replies default).
Proof.
  intros Hall Hd n req bytes. unfold reply, client_Do, stub. simpl.
  destruct (nth_in_or_default n replies default) as [Hin| ->]; [|done].
  rewrite Forall_forall in Hall. apply Hall. by apply list_elem_of_In.
Qed.

Lemma get_request_replayable url : replayable (get_request url).
Proof. by intros. Qed.

(** C3, as the claim has it, fails: with retry limit 3 and a context that
    is done from the start, the first call fails with the error of the
    context and two more calls follow. *)
Lemma deadline_does_not_stop_retries :
  ∃ res w',
    @httpDo nat (stub [] (reply_error DeadlineExceeded)) (plain 3)
            (get_request "http://blobber-1") fresh_world
    = Returns (res, w') ∧
    calls (w_trace w') = 3%nat ∧
    ¬ no_call_after DeadlineExceeded (w_trace w').
Proof.
  eexists _, _. split; [vm_compute; reflexivity|]. split; [done|].
  intros Hno.
  specialize (Hno [] 1 (get_request "http://blobber-1") _ eq_refl).
  discriminate Hno.
Qed.

Lemma retries_ignore_deadline_witness :
  ∃ res w' tr request',
    @httpDo nat (stub [reply_with 500 "busy"] (reply_error DeadlineExceeded))
            (plain 3) (get_request "http://blobber-1") fresh_world
    = Returns (res, w') ∧
    w_trace w' = [] ++ tr ∧
    calls tr = 3%nat ∧
    last (filter is_call tr)
    = Some (EvClientDo 3 request' None (Some DeadlineExceeded)) ∧
    Response res = None ∧
    Err res = Some DeadlineExceeded.
Proof.
  apply (@retries_ignore_deadline nat
           (stub [reply_with 500 "busy"] (reply_error DeadlineExceeded))
           (plain 3) (get_request "http://blobber-1") fresh_world
           DeadlineExceeded 1).
  - simpl. lia.
  - apply stub_conforming; [|done]. repeat constructor. intros resp [= <-]. by eexists.
  - apply get_request_replayable.
  - simpl. lia.
  - simpl. intros req bytes. split.
    + unfold good_status. simpl. rewrite !elem_of_cons, elem_of_nil.
      unfold StatusOK, StatusCreated, StatusAccepted, StatusNoContent. lia.
    + by repeat split.
Defined.

(** ** Reducers *)

Lemma Wait_loop_all (r : Resty) results :
  ∀ errs n rest,
    results ≠ [] →
    n + Z.of_nat (length results) = qty r →
    Wait_loop r errs n (map Received results ++ rest)
    = Returns (errs ++ omap (verdict r) results, rest).
Proof.
  induction results as [|res results IH]; intros errs n rest Hne Hn; [done|].
  simpl in *. unfold verdict at 1.
  destruct (decide (results = [])) as [->|Hne'].
  - simpl in *. destruct (Z.leb_spec (qty r) (n + 1)); [|lia].
    destruct (handle r) as [h|];
      [destruct (h _ _ _ _ _)|destruct (Err res)]; simpl;
      by rewrite ?app_nil_r.
  - assert (0 < Z.of_nat (length results)) by (destruct results; simpl; [done|lia]).
    destruct (Z.leb_spec (qty r) (n + 1)); [lia|].
    rewrite IH by (done || lia).
    destruct (handle r) as [h|];
      [destruct (h _ _ _ _ _)|destruct (Err res)]; simpl;
      by rewrite <- ?app_assoc.
Qed.

Lemma First_loop_rejected (r : Resty) results :
  ∀ errs n rest,
    results ≠ [] →
    n + Z.of_nat (length results) = qty r →
    Forall (λ res, is_Some (verdict r res)) results →
    First_loop r errs n (map Received results ++ rest)
    = Returns (Some (errs ++ omap (verdict r) results), rest).
Proof.
  induction results as [|res results IH]; intros errs n rest Hne Hn Hrej; [done|].
  apply Forall_cons_1 in Hrej as [[e He] Hrej].
  simpl in *. rewrite He. unfold verdict in He.
  destruct (decide (results = [])) as [->|Hne'].
  - simpl in *. destruct (Z.leb_spec (qty r) (n + 1)); [|lia].
    by destruct (handle r) as [h|]; rewrite He.
  - assert (0 < Z.of_nat (length results)) by (destruct results; simpl; [done|lia]).
    destruct (Z.leb_spec (qty r) (n + 1)); [lia|].
    destruct (handle r) as [h|]; rewrite He, IH by (done || lia);
      by rewrite <- app_assoc.
Qed.

Lemma First_loop_accepted (r : Resty) rejected :
  ∀ errs n accepted rest,
    n + Z.of_nat (length rejected) < qty r →
    Forall (λ res, is_Some (verdict r res)) rejected →
    verdict r accepted = None →
    First_loop r errs n (map Received rejected ++ Received accepted :: rest)
    = Returns (None, rest).
Proof.
  induction rejected as [|res rejected IH]; intros errs n accepted rest Hn Hrej Hacc.
  - simpl. unfold verdict in Hacc. by destruct (handle r) as [h|]; rewrite Hacc.
  - apply Forall_cons_1 in Hrej as [[e He] Hrej].
    simpl in *. unfold verdict in He.
    destruct (Z.leb_spec (qty r) (n + 1)); [lia|].
    destruct (handle r) as [h|]; rewrite He; apply IH; (done || lia).
Qed.

(** C8.  [First] returns nil as soon as one [Result] is accepted (by the
    handler, or without a handler by having no [Err]) and leaves what
    would arrive later unconsumed; when all [qty r] results are rejected
    it returns the list of all their errors. *)
Theorem First_returns_on_first_success (r : Resty) :
  (∀ rejected accepted rest,
     Z.of_nat (length rejected) < qty r →
     Forall (λ res, is_Some (verdict r res)) rejected →
     verdict r accepted = None →
     First r (map Received rejected ++ Received accepted :: rest)
     = Returns (None, rest))
  ∧ (∀ results rest,
       Z.of_nat (length results) = qty r →
       Forall (λ res, is_Some (verdict r res)) results →
       First r (map Received results ++ rest)
       = Returns (Some (omap (verdict r) results), rest)
       ∧ length (omap (verdict r) results) = length results).
Proof.
  split.
  - intros rejected accepted rest Hn Hrej Hacc. unfold First.
    destruct (Z.eqb_spec (qty r) 0); [lia|].
    by apply First_loop_accepted.
  - intros results rest Hn Hrej. split.
    + unfold First. destruct (Z.eqb_spec (qty r) 0) as [H0|H0].
      * by destruct results; [|simpl in Hn; lia].
      * apply First_loop_rejected; [|lia|done].
        intros ->. simpl in Hn. lia.
    + clear Hn. induction Hrej as [|res results [e He] _ IH]; [done|].
      simpl. rewrite He. simpl. by f_equal.
Qed.

(** C10.  Without a handler only [Err] counts, whatever the response:
    [Wait] returns the errors of the results that have one, [First]
    returns nil at the first result without one, and a result without
    one adds nothing to the list of [Wait], whatever its status. *)
Theorem no_handler_judges_by_Err (r : Resty) :
  handle r = None →
  (∀ results rest,
     Z.of_nat (length results) = qty r →
     Wait r (map Received results ++ rest)
     = Returns (omap Err results, rest))
  ∧ (∀ rejected req resp body rest,
       Z.of_nat (length rejected) < qty r →
       Forall (λ res, is_Some (Err res)) rejected →
       First r (map Received rejected
                ++ Received (mkResult req resp body None) :: rest)
       = Returns (None, rest))
  ∧ (∀ req resp body rest,
       qty r = 1 →
       Wait r (Received (mkResult req resp body None) :: rest)
       = Returns ([], rest)).
Proof.
  intros Hh.
  assert (∀ res, verdict r res = Err res) as Hv
    by (intros res; unfold verdict; by rewrite Hh).
  split_and!.
  - intros results rest Hn. unfold Wait.
    destruct (Z.eqb_spec (qty r) 0) as [H0|H0].
    + by destruct results; [|simpl in Hn; lia].
    + rewrite Wait_loop_all; [|intros ->; simpl in Hn; lia|lia].
      simpl. do 2 f_equal. apply list_omap_ext, Forall2_same_length_lookup.
      split; [done|]. intros i x y Hx Hy. rewrite Hx in Hy.
      injection Hy as <-. apply Hv.
  - intros rejected req resp body rest Hn Hrej.
    unfold First. destruct (Z.eqb_spec (qty r) 0); [lia|].
    apply First_loop_accepted; [done| |by rewrite Hv].
    eapply Forall_impl; [exact Hrej|]. intros res. by rewrite Hv.
  - intros req resp body rest Hq. unfold Wait. rewrite Hq. simpl.
    by rewrite Hh, Hq.
Qed.

(** ** The batch *)

Section BatchFacts.

Context {C : Type} `{!Client C}.
Variable request_error : string → string → option error.

Lemma same_kinds_refl st : same_kinds st st.
Proof. intros a s0 Hs. by exists s0. Qed.

Lemma same_kinds_trans st1 st2 st3 :
  same_kinds st1 st2 → same_kinds st2 st3 → same_kinds st1 st3.
Proof.
  intros H12 H23 a s1 Hs1.
  destruct (H12 a s1 Hs1) as (s2 & Hs2 & Hk2).
  destruct (H23 a s2 Hs2) as (s3 & Hs3 & Hk3).
  exists s3. split; [done|congruence].
Qed.

Lemma same_kinds_alloc st s : same_kinds st (alloc st s).2.
Proof.
  intros a s0 Hs. exists s0. split; [|done].
  simpl. by apply lookup_app_l_Some.
Qed.

Lemma same_kinds_consume st b n : same_kinds st (consume st b n).
Proof.
  destruct b as [[|a]|]; simpl; try apply same_kinds_refl.
  destruct (st !! a) as [s|] eqn:Ha; [|apply same_kinds_refl].
  intros a' s0 Hs. destruct (decide (a' = a)) as [->|Hne].
  - exists (mkStream (kind s) (drop n (unread s))).
    rewrite list_lookup_insert_eq by by eapply lookup_lt_Some.
    split; [done|]. simpl. congruence.
  - exists s0. by rewrite list_lookup_insert_ne.
Qed.

Lemma call_client_store i request (w : @World C) :
  same_kinds (w_store w) (w_store (call_client i request w).2).
Proof.
  unfold call_client. destruct (client_Do _ _ _) as [[[resp err] c] n].
  apply same_kinds_consume.
Qed.

Lemma pass_store (r : Resty) i request (w : @World C) :
  match pass r i request w with
  | Break _ _ _ w' | Again _ w' => same_kinds (w_store w) (w_store w')
  | PassPanics => True
  end.
Proof.
  unfold pass, call_GetBody.
  repeat case_match; try done; simplify_eq.
  all: match goal with
       | H : call_client ?i ?req ?w0 = _ |- _ =>
           pose proof (call_client_store i req w0) as Hc;
           rewrite H in Hc; simpl in Hc
       end.
  all: unfold log; simpl; try done.
  all: eapply same_kinds_trans; [|exact Hc].
  all: match goal with
       | H : alloc ?st ?s = (_, ?l) |- _ =>
           pose proof (same_kinds_alloc st s) as Ha; by rewrite H in Ha
       end.
Qed.

Lemma replayable_ext req req' :
  Method req' = Method req → Body req' = Body req →
  GetBody req' = GetBody req → replayable req → replayable req'.
Proof. unfold replayable, replays. by intros -> -> ->. Qed.

Lemma new_request_replayable method url body st0 st :
  body_ok method body st0 → same_kinds st0 st →
  replayable (new_request method url body st).
Proof.
  intros Hok Hst Hrep. unfold replays in Hrep.
  apply andb_true_iff in Hrep as [Hm Hb].
  destruct body as [a|]; simpl in *; [|done].
  destruct Hok as [Hget|(s0 & Hs0 & Hk)].
  - assert (is_post_or_put (if String.eqb method "" then MethodGet else method)
            = false) as Hf by (by destruct (String.eqb method "")).
    destruct (st !! a) as [[[] bytes]|]; try destruct (decide _);
      simpl in Hm; congruence.
  - destruct (Hst a s0 Hs0) as ([k bytes] & -> & Hk'). simpl in *. subst k.
    destruct (kind s0); try done; by destruct (decide _).
Qed.

Lemma headers_replayable (h : gmap string string) req :
  replayable req →
  replayable (map_fold (λ key value req, Header_Set req key value) req h).
Proof.
  intros Hrep. apply replayable_ext with req; [| | |done].
  all: by apply (map_fold_weak_ind (λ req' _, _ req' = _ req)).
Qed.

Lemma dispatch_config (r r' : Resty) method body url st :
  header r' = header r → requestInterceptor r' = requestInterceptor r →
  dispatch request_error r' method body url st
  = dispatch request_error r method body url st.
Proof. unfold dispatch. by intros -> ->. Qed.

Lemma dispatch_replayable (r : Resty) method body url st0 st req :
  body_ok method body st0 → interceptor_ok r → same_kinds st0 st →
  dispatch request_error r method body url st = Spawn req →
  replayable req.
Proof.
  intros Hbody Hicpt Hst. unfold dispatch, NewRequest.
  destruct (request_error method url); [done|].
  pose proof (new_request_replayable method url body st0 st Hbody Hst) as Hnew.
  apply (headers_replayable (header r)) in Hnew.
  set (req0 := Header_Set _ "Connection" "keep-alive").
  assert (replayable req0) as H0 by by eapply replayable_ext; [..|exact Hnew].
  destruct (requestInterceptor r) as [f|] eqn:Hf.
  - specialize (Hicpt f req0 Hf H0).
    destruct (f req0) as [req1 [err|]]; [done|]. intros [= <-].
    by eapply replayable_ext; [..|exact Hicpt].
  - intros [= <-]. by eapply replayable_ext; [..|exact H0].
Qed.

Lemma call_client_reply i request (w : @World C) :
  (call_client i request w).1
  = reply (w_client w) request (body_bytes (w_store w) (Body request)).
Proof.
  unfold call_client, reply.
  by destruct (client_Do _ _ _) as [[[resp err] c] n].
Qed.

Lemma post_of_finish request resp err (w : @World C) :
  bodied (resp, err) →
  ∃ res w', post_of (finish request resp err w) = Posts res w'
            ∧ w_store w' = w_store w.
Proof.
  intros Hb.
  destruct (finish_outcome request resp err w Hb) as (w' & -> & _ & Hst & _).
  by eexists _, _.
Qed.

(** A turn of a worker never panics; it moves the worker to its next
    pass, or ends it with a [Result]. *)
Lemma worker_step_ok (r r' : Resty) wk (w : @World C) :
  conforming → retry r' = retry r → worker_ok r wk →
  match worker_step r' wk w with
  | Continues wk' w' =>
      worker_ok r wk' ∧ wk_target wk' = wk_target wk ∧
      wk_pass wk' = wk_pass wk + 1 ∧ same_kinds (w_store w) (w_store w')
  | Posts res w' => same_kinds (w_store w) (w_store w')
  | WorkerPanics => False
  end.
Proof.
  intros Hconf Hr [Hrep Hpass]. unfold worker_step. rewrite Hr.
  destruct (Z.ltb_spec 0 (retry r)) as [Hpos|Hneg].
  - destruct (pass_cases r' (wk_pass wk) (wk_request wk) w (Hrep Hpos))
      as [bytes Hp].
    pose proof (pass_store r' (wk_pass wk) (wk_request wk) w) as Hst.
    simpl in Hp. rewrite Hr in Hp.
    destruct (pass r' _ _ w) as [request resp err w'|request w'|]; [| |done].
    + destruct Hp as (_ & Hx & _).
      destruct (post_of_finish request resp err w') as (res & w'' & -> & Hst').
      { rewrite Hx. apply Hconf. }
      by rewrite Hst'.
    + destruct Hp as (_ & Hne & Hrep' & _).
      split_and!; [|done|done|done].
      split; [done|]. simpl. lia.
  - pose proof (call_client_reply 1 (WithContext (wk_request wk) BatchContext) w) as Hx.
    pose proof (call_client_store 1 (WithContext (wk_request wk) BatchContext) w) as Hst.
    destruct (call_client _ _ _) as [[resp err] w']. simpl in Hx, Hst.
    destruct (post_of_finish (wk_request wk) resp err w') as (res & w'' & -> & Hst').
    { rewrite Hx. apply Hconf. }
    by rewrite Hst'.
Qed.

Lemma work_pos (r : Resty) wk : worker_ok r wk → (0 < work r wk)%nat.
Proof. intros [_ Hp]. unfold work. lia. Qed.

Lemma sum_list_middle (l1 l2 : list nat) x :
  sum_list (l1 ++ x :: l2) = (x + sum_list (l1 ++ l2))%nat.
Proof. rewrite !sum_list_with_app. simpl. lia. Qed.

Lemma work_set_done (r : Resty) ch : work (set_done r ch) = work r.
Proof. done. Qed.

Lemma send_free (r : Resty) urls st0 (b : @Batch C) res :
  batch_inv r urls st0 b →
  (length (b_posted b) < length urls)%nat →
  chan_send (done (b_resty b)) res
  = Some (mkChan (chan_buf (done (b_resty b)) ++ [res])
                 (chan_cap (done (b_resty b)))).
Proof.
  intros Hinv Hlt. unfold chan_send.
  rewrite (inv_cap _ _ _ _ Hinv), (inv_queued _ _ _ _ Hinv).
  destruct (Z.ltb_spec (Z.of_nat (length (b_posted b))) (Z.of_nat (length urls)));
    [done|lia].
Qed.

Lemma targets_length (r : Resty) urls st0 (b : @Batch C) :
  batch_inv r urls st0 b →
  (length (b_posted b) + length (b_workers b) + length (b_urls b)
   = length urls)%nat.
Proof.
  intros Hinv. rewrite <- (inv_targets _ _ _ _ Hinv).
  rewrite !length_app, length_fmap. lia.
Qed.

(** A turn keeps the invariant and uses up the bound; it is refused only
    when the goroutine chosen does not exist (any more). *)
Lemma step_inv (r : Resty) method body urls st0 ch (b : @Batch C) :
  conforming →
  admissible r method body st0 →
  batch_inv r urls st0 b →
  match step request_error method body ch b with
  | Moves b' => batch_inv r urls st0 b' ∧ (turns_left b' < turns_left b)%nat
  | Waits =>
      match ch with
      | TurnOfDo => b_urls b = []
      | TurnOfWorker k => b_workers b !! k = None
      end
  | Crashes => False
  end.
Proof.
  intros Hconf Hadm Hinv.
  pose proof (targets_length _ _ _ _ Hinv) as Hlen.
  destruct ch as [|k]; simpl.
  - destruct (b_urls b) as [|url rest] eqn:Hurls; [done|].
    rewrite (dispatch_config r) by apply Hinv.
    destruct (dispatch request_error r method body url _) as [res|req] eqn:Hd.
    + simpl in Hlen.
      rewrite (send_free r urls st0) by (done || lia).
      destruct Hinv. split; [split; simpl; try done|].
      * rewrite <- inv_targets0, Hurls, <- app_assoc. f_equiv. simpl.
        by rewrite Permutation_middle.
      * rewrite !length_app. simpl. lia.
      * unfold turns_left. simpl. rewrite Hurls, work_set_done. simpl length.
        nia.
    + destruct Hinv. split; [split; simpl; try done|].
      * by rewrite <- inv_targets0, Hurls, fmap_app, <- !app_assoc.
      * apply Forall_app. split; [done|]. constructor; [|done].
        split; [|simpl; lia]. intros Hpos. destruct (Hadm Hpos).
        by eapply dispatch_replayable.
      * unfold turns_left. simpl.
        rewrite Hurls, fmap_app, sum_list_with_app. simpl length.
        simpl sum_list_with. unfold work at 2. simpl wk_pass.
        rewrite inv_retry0. nia.
  - destruct (b_workers b !! k) as [wk|] eqn:Hk; [|done].
    assert (worker_ok r wk) as Hwk.
    { eapply Forall_lookup_1; [apply Hinv|done]. }
    pose proof (worker_step_ok r (b_resty b) wk (b_world b) Hconf
                  (inv_retry _ _ _ _ Hinv) Hwk) as Hstep.
    assert (k < length (b_workers b))%nat by by eapply lookup_lt_Some.
    destruct (worker_step _ wk _) as [wk' w'|res w'|]; [| |done].
    + destruct Hstep as (Hwk' & Htgt & Hpass & Hst).
      destruct Hinv. split; [split; simpl; try done|].
      * by rewrite list_fmap_insert, Htgt, list_insert_id
          by (by rewrite list_lookup_fmap, Hk).
      * by apply Forall_insert.
      * by eapply same_kinds_trans.
      * unfold turns_left. simpl.
        rewrite list_fmap_insert, insert_take_drop by by rewrite length_fmap.
        rewrite <- (take_drop_middle (work (b_resty b) <$> b_workers b) k
                      (work (b_resty b) wk)) at 3
          by by rewrite list_lookup_fmap, Hk.
        rewrite !sum_list_middle.
        assert (work (b_resty b) wk' < work (b_resty b) wk)%nat; [|lia].
        destruct Hwk as [_ ?]. unfold work. rewrite Hpass, inv_retry0. lia.
    + rewrite (send_free r urls st0) by (done || lia).
      destruct Hinv. split; [split; simpl; try done|].
      * rewrite <- inv_targets0, <- app_assoc. f_equiv. simpl.
        rewrite (delete_Permutation (b_workers b) k wk) at 2 by done.
        done.
      * rewrite !length_app. simpl. lia.
      * by apply Forall_delete.
      * by eapply same_kinds_trans.
      * unfold turns_left. simpl.
        rewrite work_set_done, list_fmap_delete, delete_take_drop.
        rewrite <- (take_drop_middle (work (b_resty b) <$> b_workers b) k
                      (work (b_resty b) wk)) at 3
          by by rewrite list_lookup_fmap, Hk.
        rewrite sum_list_middle.
        assert (0 < work (b_resty b) wk)%nat; [|lia].
        destruct Hwk as [_ ?]. unfold work. rewrite inv_retry0. lia.
Qed.

Lemma dispatch_count (ds : list Dispatch) :
  (length (omap posted_of ds) + length (omap spawned_of ds) = length ds)%nat.
Proof.
  induction ds as [|[res|req] ds IH]; [done|..]; csimpl; lia.
Qed.

Lemma Do_loop_all (r : Resty) method body (st : Store) urls :
  ∀ (r' : Resty) spawned,
    header r' = header r →
    requestInterceptor r' = requestInterceptor r →
    Z.of_nat (length (chan_buf (done r')) + length urls) ≤ chan_cap (done r') →
    ∃ r'',
      Do_loop request_error r' method body urls st spawned
      = Returns
          (r'',
           spawned
           ++ omap spawned_of
                ((λ url, dispatch request_error r method body url st) <$> urls))
      ∧ chan_buf (done r'')
        = chan_buf (done r')
          ++ omap posted_of
               ((λ url, dispatch request_error r method body url st) <$> urls)
      ∧ qty r'' = qty r' ∧ chan_cap (done r'') = chan_cap (done r').
Proof.
  induction urls as [|url urls IH]; intros r' spawned Hh Hi Hcap.
  - exists r'. simpl. by rewrite !app_nil_r.
  - simpl. rewrite (dispatch_config r) by done.
    destruct (dispatch request_error r method body url st) as [res|req]; simpl.
    + unfold chan_send.
      destruct (Z.ltb_spec (Z.of_nat (length (chan_buf (done r'))))
                           (chan_cap (done r'))); [|simpl in Hcap; lia].
      destruct (IH (set_done r' (mkChan (chan_buf (done r') ++ [res])
                                        (chan_cap (done r')))) spawned)
        as (r'' & -> & Hbuf & Hq & Hc); [done|done| |].
      { simpl. rewrite length_app. simpl in *. lia. }
      exists r''. split_and!; [done| |done|done].
      rewrite Hbuf. simpl. by rewrite <- app_assoc.
    + destruct (IH r' (spawned ++ [req])) as (r'' & -> & Hbuf & Hq & Hc);
        [done|done|simpl in Hcap; lia|].
      exists r''. split_and!; [|done..]. by rewrite <- app_assoc.
Qed.

(** What the body of the loop of [Do] does for a target, from whether the
    target is refused. *)
Lemma dispatch_cases (r : Resty) method body url (st : Store) :
  match refused request_error r method body st url with
  | Some e =>
      ∃ req, dispatch request_error r method body url st
             = Post (mkResult req None [] (Some e))
  | None =>
      dispatch request_error r method body url st
      = Spawn (started r method body st url)
  end.
Proof.
  unfold refused, started, dispatch, NewRequest.
  destruct (request_error method url) as [e|]; [by eexists|].
  fold (prepared r method body url st).
  destruct (requestInterceptor r) as [f|]; [|done].
  destruct (f (prepared r method body url st)) as [req [e|]]; simpl;
    [by eexists|done].
Qed.

Lemma dispatch_all (r : Resty) method body (st : Store) (urls : list string) :
  (λ res, (Response res, Err res))
  <$> omap posted_of
        ((λ url, dispatch request_error r method body url st) <$> urls)
  = (λ e, (None, Some e))
    <$> omap (refused request_error r method body st) urls
  ∧ omap spawned_of
      ((λ url, dispatch request_error r method body url st) <$> urls)
    = started r method body st
      <$> filter (λ url, refused request_error r method body st url = None)
                 urls.
Proof.
  induction urls as [|url urls [IH1 IH2]]; [done|].
  pose proof (dispatch_cases r method body url st) as Hd. csimpl.
  destruct (refused request_error r method body st url) as [e|] eqn:He.
  - destruct Hd as [req ->]. csimpl.
    rewrite filter_cons_False by (by rewrite He). by rewrite IH1.
  - rewrite Hd. csimpl. rewrite filter_cons_True by done. csimpl.
    by rewrite IH2.
Qed.

(** C9.  [Do] returns for every list of targets.  What it has queued is,
    in the order of the targets, one failed [Result] for each target whose
    request cannot be built or is refused by the interceptor, with that
    error and no response; what it has started is, in the order of the
    targets, one goroutine for each of the other targets, those before a
    bad target and those after it alike, with the prepared request under
    the context of the batch.  A bad target gets no goroutine, a good one
    no [Result] from [Do], and a turn of [Do] leaves the client and the
    body streams untouched. *)
Theorem Do_fails_bad_targets_only (r : Resty) method body urls (st : Store) :
  (∃ r' spawned,
     Do request_error r method body urls st = Returns (r', spawned) ∧
     chan_buf (done r')
     = omap posted_of
         ((λ url, dispatch request_error r method body url st) <$> urls) ∧
     spawned
     = omap spawned_of
         ((λ url, dispatch request_error r method body url st) <$> urls) ∧
     (length (chan_buf (done r')) + length spawned = length urls)%nat ∧
     (λ res, (Response res, Err res)) <$> chan_buf (done r')
     = (λ e, (None, Some e))
       <$> omap (refused request_error r method body st) urls ∧
     spawned
     = started r method body st
       <$> filter (λ url, refused request_error r method body st url = None)
                  urls)
  ∧ (∀ url e,
       request_error method url = Some e →
       dispatch request_error r method body url st
       = Post (mkResult None None [] (Some e)))
  ∧ (∀ url f req e,
       request_error method url = None →
       requestInterceptor r = Some f →
       f (prepared r method body url st) = (req, Some e) →
       dispatch request_error r method body url st
       = Post (mkResult (Some req) None [] (Some e)))
  ∧ (∀ url,
       request_error method url = None →
       requestInterceptor r = None →
       dispatch request_error r method body url st
       = Spawn (WithContext (prepared r method body url st) BatchContext))
  ∧ (∀ url f req,
       request_error method url = None →
       requestInterceptor r = Some f →
       f (prepared r method body url st) = (req, None) →
       dispatch request_error r method body url st
       = Spawn (WithContext req BatchContext))
  ∧ (∀ pre bad post e,
       urls = pre ++ bad :: post →
       refused request_error r method body st bad = Some e →
       ∃ r' spawned,
         Do request_error r method body urls st = Returns (r', spawned) ∧
         spawned
         = (started r method body st
            <$> filter (λ url, refused request_error r method body st url
                               = None) pre)
           ++ (started r method body st
               <$> filter (λ url, refused request_error r method body st url
                                  = None) post))
  ∧ (∀ b b' : @Batch C,
       step request_error method body TurnOfDo b = Moves b' →
       b_world b' = b_world b ∧ ∃ url, b_urls b = url :: b_urls b').
Proof.
  assert (∃ r',
            Do request_error r method body urls st
            = Returns
                (r',
                 omap spawned_of
                   ((λ url, dispatch request_error r method body url st)
                    <$> urls))
            ∧ chan_buf (done r')
              = omap posted_of
                  ((λ url, dispatch request_error r method body url st)
                   <$> urls)) as (r' & Hrun & Hbuf).
  { unfold Do.
    destruct (Do_loop_all r method body st urls
                (set_batch r (Z.of_nat (length urls))
                           (make_chan (Z.of_nat (length urls)))) [])
      as (r' & Hrun & Hbuf & _); [done|done|simpl; lia|].
    by exists r'. }
  destruct (dispatch_all r method body st urls) as [Hposted Hspawned].
  split_and!.
  - exists r', (omap spawned_of
                  ((λ url, dispatch request_error r method body url st) <$> urls)).
    split_and!; [done|done|done| |by rewrite Hbuf|done].
    rewrite Hbuf. rewrite dispatch_count. apply length_fmap.
  - intros url e He. unfold dispatch, NewRequest. by rewrite He.
  - intros url f req e He Hf Hicpt. unfold dispatch, NewRequest.
    rewrite He, Hf. fold (prepared r method body url st). by rewrite Hicpt.
  - intros url He Hf.
    pose proof (dispatch_cases r method body url st) as Hd.
    unfold refused, started in Hd. by rewrite He, Hf in Hd.
  - intros url f req He Hf Hicpt.
    pose proof (dispatch_cases r method body url st) as Hd.
    unfold refused, started in Hd. by rewrite He, Hf, Hicpt in Hd.
  - intros pre bad post e -> Hbad. eexists r', _. split; [exact Hrun|].
    rewrite Hspawned, filter_app, filter_cons_False by (by rewrite Hbad).
    by rewrite fmap_app.
  - intros b b'. simpl.
    destruct (b_urls b) as [|url rest]; [done|].
    destruct (dispatch _ _ _ _ _ _); [destruct (chan_send _ _); [|done]|];
      intros [= <-]; simpl; eauto.
Qed.

Lemma start_inv (r : Resty) urls (w : @World C) :
  batch_inv r urls (w_store w) (start r urls w).
Proof.
  split; simpl; try done. apply same_kinds_refl.
Qed.

Lemma exec_inv (r : Resty) method body urls st0 :
  conforming →
  admissible r method body st0 →
  ∀ sched (b : @Batch C),
    batch_inv r urls st0 b →
    match exec request_error method body sched b with
    | Moves b' =>
        batch_inv r urls st0 b'
        ∧ (turns_left b' + length sched ≤ turns_left b)%nat
    | Waits => True
    | Crashes => False
    end.
Proof.
  intros Hconf Hadm. induction sched as [|ch sched IH]; intros b Hinv.
  - simpl. split; [done|lia].
  - simpl.
    pose proof (step_inv r method body urls st0 ch b Hconf Hadm Hinv) as Hstep.
    destruct (step _ _ _ ch b) as [b1| |]; [|done|done].
    destruct Hstep as [Hinv1 Hlt]. specialize (IH b1 Hinv1).
    destruct (exec _ _ _ sched b1) as [b2| |]; [|done|done].
    destruct IH as [Hinv2 Hle]. split; [done|simpl; lia].
Qed.

(** While something is left to run, some goroutine can take a turn. *)
Lemma progress (r : Resty) method body urls st0 (b : @Batch C) :
  conforming →
  admissible r method body st0 →
  batch_inv r urls st0 b →
  ¬ finished b →
  ∃ ch b', step request_error method body ch b = Moves b'.
Proof.
  intros Hconf Hadm Hinv Hnot.
  destruct (b_urls b) as [|url rest] eqn:Hurls.
  - destruct (b_workers b) as [|wk wks] eqn:Hwks.
    { destruct Hnot. by split. }
    exists (TurnOfWorker 0).
    pose proof (step_inv r method body urls st0 (TurnOfWorker 0) b Hconf Hadm Hinv)
      as Hstep.
    destruct (step _ _ _ _ b) as [b'| |]; [by exists b'| |done].
    by rewrite Hwks in Hstep.
  - exists TurnOfDo.
    pose proof (step_inv r method body urls st0 TurnOfDo b Hconf Hadm Hinv)
      as Hstep.
    destruct (step _ _ _ _ b) as [b'| |]; [by exists b'| |done].
    by rewrite Hurls in Hstep.
Qed.

(** Every batch can be run to its end. *)
Lemma run_to_end (r : Resty) method body urls st0 :
  conforming →
  admissible r method body st0 →
  ∀ n (b : @Batch C),
    (turns_left b ≤ n)%nat →
    batch_inv r urls st0 b →
    ∃ sched b', exec request_error method body sched b = Moves b' ∧ finished b'.
Proof.
  intros Hconf Hadm. induction n as [|n IH]; intros b Hn Hinv.
  - exists [], b. split; [done|].
    destruct (b_urls b) as [|url rest] eqn:Hurls;
      [|unfold turns_left in Hn; rewrite Hurls in Hn; simpl in Hn; lia].
    destruct (b_workers b) as [|wk wks] eqn:Hwks; [by split|].
    pose proof (inv_workers _ _ _ _ Hinv) as Hall. rewrite Hwks in Hall.
    apply Forall_cons_1 in Hall as [Hwk _].
    apply work_pos in Hwk. unfold turns_left in Hn. rewrite Hwks in Hn.
    simpl in Hn. unfold work in *. rewrite (inv_retry _ _ _ _ Hinv) in Hn. lia.
  - destruct (decide (b_urls b = [] ∧ b_workers b = [])) as [Hfin|Hnot].
    { by exists [], b. }
    destruct (progress r method body urls st0 b Hconf Hadm Hinv Hnot)
      as (ch & b1 & Hstep).
    pose proof (step_inv r method body urls st0 ch b Hconf Hadm Hinv) as Hs.
    rewrite Hstep in Hs. destruct Hs as [Hinv1 Hlt].
    destruct (IH b1) as (sched & b' & Hexec & Hfin); [lia|done|].
    exists (ch :: sched), b'. simpl. by rewrite Hstep.
Qed.

(** C1.  Take a client that returns a body with every response and,
    when retries are on, a body and an interceptor that keep the requests
    replayable ([admissible]).  A batch started by [Do] on [urls] never
    panics; however its goroutines are scheduled, the results queued on
    [r.done] are, one for one, results for distinct targets of the batch;
    no send ever has to wait; every run ends within a fixed number of
    turns; and when nothing is left to run exactly one result has been
    queued for each target, so that [Wait] consumes exactly
    [length urls] of them. *)
Theorem Do_posts_one_result_per_target (r : Resty) method body urls
        (w : @World C) :
  conforming →
  admissible r method body (w_store w) →
  (∀ sched,
     exec request_error method body sched (start r urls w) ≠ Crashes)
  ∧ (∀ sched b,
       exec request_error method body sched (start r urls w) = Moves b →
       (length sched ≤ length urls * S (Z.to_nat (Z.max 1 (retry r))))%nat
       ∧ length (chan_buf (done (b_resty b))) = length (b_posted b)
       ∧ b_posted b ++ (wk_target <$> b_workers b) ++ b_urls b ≡ₚ urls
       ∧ (¬ finished b →
          ∃ ch b', step request_error method body ch b = Moves b')
       ∧ (finished b →
          b_posted b ≡ₚ urls
          ∧ length (chan_buf (done (b_resty b))) = length urls
          ∧ ∃ errs, Wait (b_resty b) (Received <$> chan_buf (done (b_resty b)))
                    = Returns (errs, [])))
  ∧ (∃ sched b,
       exec request_error method body sched (start r urls w) = Moves b
       ∧ finished b).
Proof.
  intros Hconf Hadm.
  pose proof (start_inv r urls w) as Hinv0.
  split_and!.
  - intros sched Hcrash.
    pose proof (exec_inv r method body urls _ Hconf Hadm sched _ Hinv0) as He.
    by rewrite Hcrash in He.
  - intros sched b Hexec.
    pose proof (exec_inv r method body urls _ Hconf Hadm sched _ Hinv0) as He.
    rewrite Hexec in He. destruct He as [Hinv Hle].
    split_and!.
    + unfold turns_left in Hle at 2. simpl in Hle. lia.
    + apply Hinv.
    + apply Hinv.
    + by apply (progress r method body urls (w_store w)).
    + intros [Hurls Hwks].
      pose proof (inv_targets _ _ _ _ Hinv) as Htg.
      rewrite Hurls, Hwks in Htg. simpl in Htg. rewrite app_nil_r in Htg.
      assert (length (chan_buf (done (b_resty b))) = length urls) as Hlen
        by by rewrite (inv_queued _ _ _ _ Hinv), Htg.
      split_and!; [done|done|].
      unfold Wait. destruct (Z.eqb_spec (qty (b_resty b)) 0) as [H0|H0].
      * rewrite (inv_qty _ _ _ _ Hinv) in H0.
        destruct (chan_buf (done (b_resty b))); [by exists []|simpl in *; lia].
      * eexists.
        rewrite <- (app_nil_r (Received <$> _)).
        apply Wait_loop_all.
        -- intros Hnil. rewrite Hnil in Hlen.
           rewrite (inv_qty _ _ _ _ Hinv) in H0. simpl in Hlen. lia.
        -- rewrite (inv_qty _ _ _ _ Hinv). lia.
  - by apply (run_to_end r method body urls (w_store w) Hconf Hadm
                (turns_left (start r urls w))).
Qed.

End BatchFacts.

(** ** Examples *)

Lemma plain_admissible n method st :
  admissible (plain n) method None st.
Proof. intros _. split; [exact I|]. intros f req Hf. discriminate Hf. Qed.

Lemma reply_with_bodied code body : bodied (reply_with code body).
Proof. intros resp [= <-]. by eexists. Qed.

Lemma reply_with_failed code body :
  code ≠ 200 → code ≠ 201 → code ≠ 202 → code ≠ 204 →
  failed (reply_with code body).
Proof.
  intros ????. unfold failed, reply_with, good_status. simpl.
  rewrite !elem_of_cons, elem_of_nil.
  unfold StatusOK, StatusCreated, StatusAccepted, StatusNoContent. lia.
Qed.

Lemma reply_with_succeeded body : succeeded (reply_with 200 body).
Proof. unfold succeeded, reply_with, good_status. simpl. by left. Qed.

Lemma Do_posts_one_result_per_target_witness :
  ∃ sched b,
    @exec nat (stub [] (reply_with 200 "ok")) no_empty_url MethodGet None sched
          (start (plain 3) two_targets fresh_world)
    = Moves b
    ∧ finished b.
Proof.
  apply (@Do_posts_one_result_per_target nat (stub [] (reply_with 200 "ok"))
           no_empty_url (plain 3) MethodGet None two_targets fresh_world).
  - apply stub_conforming; [constructor|apply reply_with_bodied].
  - apply plain_admissible.
Defined.

Lemma retry_until_success_or_limit_witness :
  (∃ res w' tr request' resp,
     @httpDo nat (stub [reply_with 500 "busy"] (reply_with 200 "ok"))
             (plain 3) (get_request "http://blobber-1") fresh_world
     = Returns (res, w') ∧
     w_trace w' = [] ++ tr ∧
     calls tr = 2%nat ∧
     last (filter is_call tr)
     = Some (EvClientDo 2 request' (Some resp) None) ∧
     good_status (StatusCode resp) ∧
     Response res = Some resp)
  ∧ (∃ res w' tr request' resp err,
       @httpDo nat (stub [] (reply_with 500 "busy"))
               (plain 3) (get_request "http://blobber-1") fresh_world
       = Returns (res, w') ∧
       w_trace w' = [] ++ tr ∧
       calls tr = 3%nat ∧
       last (filter is_call tr)
       = Some (EvClientDo 3 request' resp err) ∧
       failed (resp, err) ∧
       Response res = resp ∧
       (read_failure resp = None → Err res = err)).
Proof.
  split.
  - apply (proj1 (@retry_until_success_or_limit nat
                    (stub [reply_with 500 "busy"] (reply_with 200 "ok"))
                    (plain 3) (get_request "http://blobber-1") fresh_world
                    ltac:(simpl; lia)
                    (stub_conforming _ _
                       (Forall_cons_2 _ _ _ (reply_with_bodied _ _) (Forall_nil_2 _))
                       (reply_with_bodied _ _))
                    (get_request_replayable _)) 1%nat).
    + simpl. lia.
    + simpl. intros req bytes.
      split; [apply (reply_with_failed 500 "busy"); lia|].
      intros req' bytes'. split; [apply (reply_with_succeeded "ok")|exact I].
  - apply (proj2 (@retry_until_success_or_limit nat
                    (stub [] (reply_with 500 "busy"))
                    (plain 3) (get_request "http://blobber-1") fresh_world
                    ltac:(simpl; lia)
                    (stub_conforming _ _ (Forall_nil_2 _) (reply_with_bodied _ _))
                    (get_request_replayable _))).
    simpl.
    repeat (intros ? ?; split; [apply (reply_with_failed 500 "busy"); lia|]).
    exact I.
Defined.

Lemma backoff_on_rate_limit_witness :
  ∃ res w' resp3,
    @httpDo nat (stub [] (reply_with 429 "slow")) (plain 3)
            (get_request "http://blobber-1") fresh_world
    = Returns (res, w') ∧
    length (filter is_sleep (w_trace w')) = 2%nat ∧
    calls (w_trace w') = 3%nat ∧
    StatusCode resp3 = StatusTooManyRequests ∧
    Response res = Some resp3.
Proof.
  destruct (@backoff_on_rate_limit nat (stub [] (reply_with 429 "slow"))
              (plain 3) (get_request "http://blobber-1") fresh_world)
    as (res & w' & atts & resp & Hrun & Htr & _ & _ & Hscen).
  - simpl. lia.
  - apply stub_conforming; [constructor|apply reply_with_bodied].
  - apply get_request_replayable.
  - destruct Hscen
      as (req1 & req2 & req3 & resp1 & resp2 & resp3 & err1 & err2 & err3
          & Heq & _ & _ & H3 & Hres); [reflexivity| |].
    + simpl. by repeat (intros ? ?; split; [|]).
    + exists res, w', resp3. rewrite Htr, Heq.
      split_and!; [done| | |done|done].
      * simpl. by destruct (read_failure _).
      * unfold calls. simpl. by destruct (read_failure _).
Defined.

Lemma First_returns_on_first_success_witness :
  First (waiting 3 (Some only_200))
        [Received (result_of (reply_with 500 "busy"));
         Received (result_of (reply_with 200 "ok"));
         Received (result_of (reply_with 200 "late"))]
  = Returns (None, [Received (result_of (reply_with 200 "late"))])
  ∧ First (waiting 2 (Some only_200))
          [Received (result_of (reply_with 500 "busy"));
           Received (result_of (reply_error DeadlineExceeded))]
    = Returns (Some ["unexpected status"%string; DeadlineExceeded], []).
Proof.
  split.
  - apply (proj1 (First_returns_on_first_success (waiting 3 (Some only_200)))
             [result_of (reply_with 500 "busy")]
             (result_of (reply_with 200 "ok"))).
    + simpl. lia.
    + repeat constructor. by eexists.
    + reflexivity.
  - apply (proj2 (First_returns_on_first_success (waiting 2 (Some only_200)))
             [result_of (reply_with 500 "busy");
              result_of (reply_error DeadlineExceeded)] []).
    + reflexivity.
    + repeat constructor; by eexists.
Defined.

Lemma no_handler_judges_by_Err_witness :
  Wait (waiting 2 None)
       [Received (result_of (reply_with 500 "busy"));
        Received (result_of (reply_error DeadlineExceeded))]
  = Returns ([DeadlineExceeded], [])
  ∧ First (waiting 2 None)
          [Received (result_of (reply_with 500 "busy"));
           Received (result_of (reply_with 200 "late"))]
    = Returns (None, [Received (result_of (reply_with 200 "late"))]).
Proof.
  split.
  - apply (proj1 (no_handler_judges_by_Err (waiting 2 None) eq_refl)
             [result_of (reply_with 500 "busy");
              result_of (reply_error DeadlineExceeded)] []).
    reflexivity.
  - apply (proj1 (proj2 (no_handler_judges_by_Err (waiting 2 None) eq_refl))
             [] None _ [] [Received (result_of (reply_with 200 "late"))]).
    + simpl. lia.
    + constructor.
Defined.

(** The witness of C9: three targets, the second cannot be built.  The
    targets before and after it get their goroutine. *)
Lemma Do_fails_bad_targets_only_witness :
  ∃ r' spawned,
    Do no_empty_url (plain 3) MethodGet None
       ["http://blobber-1"; ""; "http://blobber-3"] []
    = Returns (r', spawned)
    ∧ spawned
      = [started (plain 3) MethodGet None [] "http://blobber-1";
         started (plain 3) MethodGet None [] "http://blobber-3"].
Proof.
  destruct (@Do_fails_bad_targets_only nat (stub [] (reply_with 200 "ok"))
              no_empty_url (plain 3) MethodGet None
              ["http://blobber-1"; ""; "http://blobber-3"] [])
    as (_ & _ & _ & _ & _ & Hrest & _).
  destruct (Hrest ["http://blobber-1"%string] ""%string
                  ["http://blobber-3"%string] "parse : empty url"%string)
    as (r' & spawned & Hrun & Hspawned).
  - reflexivity.
  - reflexivity.
  - exists r', spawned. split; [exact Hrun|exact Hspawned].
Defined.

(** C9 on an example: three targets, the second cannot be built; it is
    failed on the spot and the other two get their goroutine. *)
Example Do_skips_a_bad_target :
  ∃ r' req1 req3,
    DoGet no_empty_url (plain 3) ["http://blobber-1"; ""; "http://blobber-3"] []
    = Returns (r', [req1; req3]) ∧
    chan_buf (done r')
    = [mkResult None None [] (Some "parse : empty url"%string)] ∧
    URL req1 = "http://blobber-1"%string ∧ URL req3 = "http://blobber-3"%string.
Proof. eexists _, _, _. split_and!; [vm_compute; reflexivity|done..]. Qed.

(** C5, on the code.  [DoPost] with a [*bytes.Reader] over "hello" and
    two targets, and a client that reads the body it is given.  Both
    requests get the reader itself as their [Body].  When the workers run
    after the loop of [Do], the first reads "hello" and the second reads
    nothing.  When the first worker runs before the loop reaches the
    second target, the second request is built from the reader already
    read to its end: it has no body at all, and no copy to retry with. *)
Theorem DoPost_shares_one_body :
  (∃ r' req1 req2,
     DoPost no_empty_url (plain 3) (Some 0%nat) two_targets hello_reader
     = Returns (r', [req1; req2]) ∧
     Body req1 = Some (ReaderAt 0) ∧ Body req2 = Some (ReaderAt 0))
  ∧ (∃ b,
       @exec _ recorder no_empty_url MethodPost (Some 0%nat)
             [TurnOfDo; TurnOfDo; TurnOfWorker 0; TurnOfWorker 0]
             (start (plain 3) two_targets (mkWorld [] hello_reader []))
       = Moves b ∧
       b_urls b = [] ∧ b_workers b = [] ∧
       length (chan_buf (done (b_resty b))) = 2%nat ∧
       w_client (b_world b) = [hello; []])
  ∧ (∃ b res1 res2 req2,
       @exec _ recorder no_empty_url MethodPost (Some 0%nat)
             [TurnOfDo; TurnOfWorker 0; TurnOfDo; TurnOfWorker 0]
             (start (plain 3) two_targets (mkWorld [] hello_reader []))
       = Moves b ∧
       b_urls b = [] ∧ b_workers b = [] ∧
       chan_buf (done (b_resty b)) = [res1; res2] ∧
       w_client (b_world b) = [hello; []] ∧
       Request res2 = Some req2 ∧
       Body req2 = Some NoBody ∧ GetBody req2 = Some SourceNoBody ∧
       ContentLength req2 = 0).
Proof.
  split_and!.
  - eexists _, _, _. split_and!; [vm_compute; reflexivity|done..].
  - eexists. split_and!; [vm_compute; reflexivity|done..].
  - eexists _, _, _, _. split_and!; [vm_compute; reflexivity|done..].
Qed.

(** Outside the contract [admissible]: a POST whose body is a reader that
    [http.NewRequest] cannot replay makes the worker call a nil [GetBody]
    on its first pass. *)
Example unreplayable_body_panics :
  @exec _ recorder no_empty_url MethodPost (Some 0%nat)
        [TurnOfDo; TurnOfWorker 0]
        (start (plain 3) ["http://blobber-1"] (mkWorld [] hello_file []))
  = Crashes.
Proof. vm_compute. reflexivity. Qed.

End resty_proofs.

Module sdk_proofs.

Import http sdk sdk_facts.

Section ReplicaFacts.

Variable NewCollaboratorRequest :
  string → string → list (string * string) → http.Request + error.
Variable DeleteCollaboratorRequest :
  string → string → list (string * string) → http.Request + error.
Variable FormDataContentType : string.
Variable Client_Do : http.Request → option http.Response * option error.

Lemma report_vote resp err v (ch : Chan bool) :
  vote (resp, err) = Some v →
  Z.of_nat (length (chan_buf ch)) < chan_cap ch →
  report resp err ch
  = Returns (err, mkChan (chan_buf ch ++ [v]) (chan_cap ch)).
Proof.
  intros Hv Hroom. unfold report, chan_send.
  destruct (Z.ltb_spec (Z.of_nat (length (chan_buf ch))) (chan_cap ch)); [|lia].
  destruct resp as [resp|], err as [e|]; simpl in Hv; try done.
  - by injection Hv as <-.
  - destruct (RespBody resp); [|done]. by injection Hv as <-.
  - by injection Hv as <-.
Qed.

Lemma update_worker_reports req blobber i v (ch : Chan bool) :
  update_reports NewCollaboratorRequest FormDataContentType Client_Do
                 req blobber v →
  Z.of_nat (length (chan_buf ch)) < chan_cap ch →
  updateCollaboratorToBlobber NewCollaboratorRequest FormDataContentType
                              Client_Do req blobber i ch
  = Returns (mkChan (chan_buf ch ++ [v]) (chan_cap ch)).
Proof.
  intros (httpreq & Hnew & Hv) Hroom. unfold updateCollaboratorToBlobber, HttpDo.
  unfold fields in Hnew. rewrite Hnew.
  destruct (Client_Do _) as [resp err]. by rewrite (report_vote _ _ v).
Qed.

Lemma remove_worker_reports req blobber i v (ch : Chan bool) :
  remove_reports DeleteCollaboratorRequest Client_Do req blobber v →
  Z.of_nat (length (chan_buf ch)) < chan_cap ch →
  removeCollaboratorFromBlobber DeleteCollaboratorRequest Client_Do
                                req blobber i ch
  = Returns (mkChan (chan_buf ch ++ [v]) (chan_cap ch)).
Proof.
  intros (httpreq & Hnew & Hv) Hroom. unfold removeCollaboratorFromBlobber, HttpDo.
  unfold fields in Hnew. rewrite Hnew.
  destruct (Client_Do _) as [resp err]. by rewrite (report_vote _ _ v).
Qed.

(** Workers that all report fill the channel with their votes. *)
Lemma run_workers_votes worker (reports : StorageNode → bool → Prop) :
  (∀ blobber i v (ch : Chan bool),
     reports blobber v →
     Z.of_nat (length (chan_buf ch)) < chan_cap ch →
     worker blobber i ch = Returns (mkChan (chan_buf ch ++ [v]) (chan_cap ch))) →
  ∀ sched votes (ch : Chan bool),
    Forall2 (λ j v, reports j.2 v) sched votes →
    Z.of_nat (length (chan_buf ch) + length sched) ≤ chan_cap ch →
    run_workers worker sched ch
    = Returns (mkChan (chan_buf ch ++ votes) (chan_cap ch)).
Proof.
  intros Hworker sched votes ch Hall. revert ch.
  induction Hall as [|[i blobber] v sched votes Hv _ IH]; intros ch Hroom.
  - simpl. rewrite app_nil_r. by destruct ch.
  - simpl in *. rewrite (Hworker _ _ v) by (done || lia).
    rewrite IH; simpl; [by rewrite <- app_assoc|].
    rewrite length_app. simpl. lia.
Qed.

Lemma accepted_cons (v : bool) votes :
  accepted (v :: votes) = (if v then 1 else 0) + accepted votes.
Proof.
  unfold accepted. destruct v.
  - rewrite filter_cons_True by done. simpl length. lia.
  - rewrite filter_cons_False; [lia|]. by intros [].
Qed.

Lemma collect_votes votes :
  ∀ cap c,
    collect (length votes) (mkChan votes cap) c
    = Returns (mkConsensus (achievedCount c + accepted votes)
                           (requiredThreshold c)).
Proof.
  induction votes as [|v votes IH]; intros cap c.
  - simpl. unfold accepted. simpl. rewrite Z.add_0_r. by destruct c.
  - rewrite accepted_cons. simpl. rewrite IH.
    destruct v; simpl; do 2 f_equal; lia.
Qed.

Lemma accepted_bounds votes : 0 ≤ accepted votes ≤ Z.of_nat (length votes).
Proof.
  unfold accepted. pose proof (length_filter Is_true votes). lia.
Qed.

Lemma length_jobs req : length (jobs req) = length (Blobbers (a req)).
Proof. unfold jobs. apply length_imap. Qed.

(** The pattern of both operations, when every replica reports. *)
Lemma fan_out_votes worker (reports : StorageNode → bool → Prop) req sched votes :
  (∀ blobber i v (ch : Chan bool),
     reports blobber v →
     Z.of_nat (length (chan_buf ch)) < chan_cap ch →
     worker blobber i ch = Returns (mkChan (chan_buf ch ++ [v]) (chan_cap ch))) →
  sched ≡ₚ jobs req →
  Forall2 (λ j v, reports j.2 v) sched votes →
  fan_out worker req sched
  = Returns
      (isConsensusOk
         (mkConsensus (achievedCount (consensus req) + accepted votes)
                      (requiredThreshold (consensus req))),
       set_consensus req
         (mkConsensus (achievedCount (consensus req) + accepted votes)
                      (requiredThreshold (consensus req)))).
Proof.
  intros Hworker Hperm Hall. unfold fan_out.
  assert (length sched = length (Blobbers (a req))) as Hlen
    by by rewrite Hperm, length_jobs.
  rewrite (run_workers_votes worker reports Hworker sched votes)
    by (done || simpl; lia).
  simpl. rewrite <- Hlen, (Forall2_length _ _ _ Hall).
  by rewrite collect_votes.
Qed.

Lemma isConsensusOk_decide c :
  isConsensusOk c = bool_decide (requiredThreshold c ≤ achievedCount c).
Proof.
  unfold isConsensusOk.
  destruct (Z.leb_spec (requiredThreshold c) (achievedCount c)).
  - by rewrite bool_decide_eq_true_2.
  - rewrite bool_decide_eq_false_2; [done|lia].
Qed.

(** C2.  Started with a count of zero on [M] replicas that all report,
    [A] of them an acceptance, [UpdateCollaboratorToBlobbers] returns
    whether [A] reaches the required threshold, in whatever order the
    replicas answer; and [0 ≤ A ≤ M]. *)
Theorem UpdateCollaboratorToBlobbers_quorum req sched votes :
  achievedCount (consensus req) = 0 →
  sched ≡ₚ jobs req →
  Forall2 (λ j v, update_reports NewCollaboratorRequest FormDataContentType
                                 Client_Do req j.2 v) sched votes →
  ∃ req',
    UpdateCollaboratorToBlobbers NewCollaboratorRequest FormDataContentType
                                 Client_Do req sched
    = Returns (bool_decide (requiredThreshold (consensus req) ≤ accepted votes),
               req') ∧
    achievedCount (consensus req') = accepted votes ∧
    0 ≤ accepted votes ≤ Z.of_nat (length (Blobbers (a req))).
Proof.
  intros Hzero Hperm Hall.
  change (UpdateCollaboratorToBlobbers NewCollaboratorRequest
            FormDataContentType Client_Do req sched)
    with (fan_out (updateCollaboratorToBlobber NewCollaboratorRequest
                     FormDataContentType Client_Do req) req sched).
  rewrite (fan_out_votes _ _ req sched votes
             (update_worker_reports req) Hperm Hall).
  rewrite Hzero, Z.add_0_l, isConsensusOk_decide. simpl.
  eexists. split_and!.
  - done.
  - done.
  - apply accepted_bounds.
  - rewrite <- length_jobs, <- Hperm, (Forall2_length _ _ _ Hall).
    apply accepted_bounds.
Qed.

(** *** A replica whose request cannot be built *)

Lemma collect_short n :
  ∀ (ch : Chan bool) c,
    (length (chan_buf ch) < n)%nat → collect n ch c = Hangs.
Proof.
  induction n as [|n IH]; intros [buf cap] c Hlt; simpl in *; [lia|].
  destruct buf as [|v buf]; [done|]. simpl in *. apply IH. simpl. lia.
Qed.

Lemma report_one resp err (ch ch' : Chan bool) e :
  report resp err ch = Returns (e, ch') →
  length (chan_buf ch') = S (length (chan_buf ch)).
Proof.
  unfold report, chan_send. intros Hr.
  repeat case_match; simplify_eq; simpl; rewrite length_app; simpl; lia.
Qed.

(** A worker sends at most once, and not at all when the request for its
    replica cannot be built. *)
Lemma update_worker_sends req blobber i (ch ch' : Chan bool) :
  updateCollaboratorToBlobber NewCollaboratorRequest FormDataContentType
                              Client_Do req blobber i ch = Returns ch' →
  (length (chan_buf ch')
   = length (chan_buf ch)
     + (if built (NewCollaboratorRequest (Baseurl blobber) (Tx (a req))
                                         (fields req))
        then 1 else 0))%nat.
Proof.
  unfold updateCollaboratorToBlobber, HttpDo, fields.
  destruct (NewCollaboratorRequest _ _ _) as [httpreq|e]; simpl.
  - destruct (Client_Do _) as [resp err].
    destruct (report resp err ch) as [[e ch'']| |] eqn:Hr; [|done..].
    intros [= <-]. rewrite (report_one _ _ _ _ _ Hr). lia.
  - intros [= <-]. lia.
Qed.

Lemma remove_worker_sends req blobber i (ch ch' : Chan bool) :
  removeCollaboratorFromBlobber DeleteCollaboratorRequest Client_Do
                                req blobber i ch = Returns ch' →
  (length (chan_buf ch')
   = length (chan_buf ch)
     + (if built (DeleteCollaboratorRequest (Baseurl blobber) (Tx (a req))
                                            (fields req))
        then 1 else 0))%nat.
Proof.
  unfold removeCollaboratorFromBlobber, HttpDo, fields.
  destruct (DeleteCollaboratorRequest _ _ _) as [httpreq|e]; simpl.
  - destruct (Client_Do _) as [resp err].
    destruct (report resp err ch) as [[e ch'']| |] eqn:Hr; [|done..].
    intros [= <-]. rewrite (report_one _ _ _ _ _ Hr). lia.
  - intros [= <-]. lia.
Qed.

Lemma run_workers_sends worker (sends : StorageNode → bool) :
  (∀ blobber i (ch ch' : Chan bool),
     worker blobber i ch = Returns ch' →
     (length (chan_buf ch')
      = length (chan_buf ch) + (if sends blobber then 1 else 0))%nat) →
  ∀ sched (ch ch' : Chan bool),
    run_workers worker sched ch = Returns ch' →
    (length (chan_buf ch')
     = length (chan_buf ch) + length (filter (λ j, sends j.2) sched))%nat.
Proof.
  intros Hworker. induction sched as [|[i blobber] sched IH]; intros ch ch'; simpl.
  - intros [= <-]. lia.
  - destruct (worker blobber i ch) as [ch1| |] eqn:Hw; [|done..].
    intros Hrun. rewrite (IH _ _ Hrun), (Hworker _ _ _ _ Hw).
    destruct (sends blobber) eqn:Hs.
    + rewrite filter_cons_True by (simpl; rewrite Hs; exact I). simpl. lia.
    + rewrite filter_cons_False by (simpl; rewrite Hs; intros []). simpl. lia.
Qed.

(** With a worker that stays silent, the second loop is never served. *)
Lemma fan_out_blocks worker (sends : StorageNode → bool) req sched j :
  (∀ blobber i (ch ch' : Chan bool),
     worker blobber i ch = Returns ch' →
     (length (chan_buf ch')
      = length (chan_buf ch) + (if sends blobber then 1 else 0))%nat) →
  sched ≡ₚ jobs req →
  j ∈ sched →
  sends j.2 = false →
  ∀ res, fan_out worker req sched ≠ Returns res.
Proof.
  intros Hworker Hperm Hj Hsilent res. unfold fan_out.
  destruct (run_workers _ sched _) as [ch| |] eqn:Hrun; [|done..].
  apply (run_workers_sends worker sends Hworker) in Hrun. simpl in Hrun.
  rewrite collect_short; [done|].
  rewrite Hrun, <- length_jobs, <- Hperm.
  apply list_elem_of_lookup in Hj as [k Hk].
  rewrite <- (take_drop_middle sched k j Hk), filter_app, !length_app.
  rewrite filter_cons_False by (rewrite Hsilent; intros []).
  pose proof (length_filter (λ j, sends j.2) (take k sched)).
  pose proof (length_filter (λ j, sends j.2) (drop (S k) sched)).
  simpl. lia.
Qed.

(** Whatever the other replicas answer and in whatever order, neither
    operation returns once the request for one replica cannot be built. *)
Lemma update_blocks_on_build_failure req sched j e :
  sched ≡ₚ jobs req →
  j ∈ sched →
  NewCollaboratorRequest (Baseurl j.2) (Tx (a req)) (fields req) = inr e →
  ∀ res,
    UpdateCollaboratorToBlobbers NewCollaboratorRequest FormDataContentType
                                 Client_Do req sched
    ≠ Returns res.
Proof.
  intros Hperm Hj He.
  apply (fan_out_blocks _
           (λ blobber, built (NewCollaboratorRequest (Baseurl blobber)
                                (Tx (a req)) (fields req))) req sched j);
    [apply update_worker_sends|done|done|by rewrite He].
Qed.

Lemma remove_blocks_on_build_failure req sched j e :
  sched ≡ₚ jobs req →
  j ∈ sched →
  DeleteCollaboratorRequest (Baseurl j.2) (Tx (a req)) (fields req) = inr e →
  ∀ res,
    RemoveCollaboratorFromBlobbers DeleteCollaboratorRequest Client_Do req sched
    ≠ Returns res.
Proof.
  intros Hperm Hj He.
  apply (fan_out_blocks _
           (λ blobber, built (DeleteCollaboratorRequest (Baseurl blobber)
                                (Tx (a req)) (fields req))) req sched j);
    [apply remove_worker_sends|done|done|by rewrite He].
Qed.

(** The removal decides like the update. *)
Lemma RemoveCollaboratorFromBlobbers_quorum req sched votes :
  achievedCount (consensus req) = 0 →
  sched ≡ₚ jobs req →
  Forall2 (λ j v, remove_reports DeleteCollaboratorRequest Client_Do req j.2 v)
          sched votes →
  ∃ req',
    RemoveCollaboratorFromBlobbers DeleteCollaboratorRequest Client_Do req sched
    = Returns (bool_decide (requiredThreshold (consensus req) ≤ accepted votes),
               req').
Proof.
  intros Hzero Hperm Hall.
  change (RemoveCollaboratorFromBlobbers DeleteCollaboratorRequest Client_Do
            req sched)
    with (fan_out (removeCollaboratorFromBlobber DeleteCollaboratorRequest
                     Client_Do req) req sched).
  rewrite (fan_out_votes _ _ req sched votes
             (remove_worker_reports req) Hperm Hall).
  rewrite Hzero, Z.add_0_l, isConsensusOk_decide. simpl. by eexists.
Qed.

End ReplicaFacts.

(** C4, on the code.  Three replicas, threshold 1; the request for the
    second cannot be built, the other two answer 200.  Both operations
    wait for ever on the third receive from [rspCh]. *)
Theorem build_failure_blocks_the_operation :
  let blobbers :=
    [mkStorageNode "b1" "http://blobber-1"; mkStorageNode "b2" "";
     mkStorageNode "b3" "http://blobber-3"] in
  let net := answers [("http://blobber-1", 200); ("http://blobber-3", 200)] in
  let req := update_request blobbers 1 in
  UpdateCollaboratorToBlobbers build "multipart/form-data" net req (jobs req)
  = Hangs
  ∧ RemoveCollaboratorFromBlobbers build net req (jobs req) = Hangs.
Proof. split; vm_compute; reflexivity. Qed.

(** The witness of C2: five replicas, threshold 3.  Replicas 1, 3 and 4
    answer 200 and replicas 2 and 5 answer 500: [true].  Only replicas 1
    and 3 answer 200: [false]. *)
Lemma UpdateCollaboratorToBlobbers_quorum_witness :
  (∃ req',
     UpdateCollaboratorToBlobbers build "multipart/form-data"
       (answers [("http://blobber-1", 200); ("http://blobber-2", 500);
                 ("http://blobber-3", 200); ("http://blobber-4", 200);
                 ("http://blobber-5", 500)])
       (update_request five 3) (jobs (update_request five 3))
     = Returns (true, req'))
  ∧ (∃ req',
       UpdateCollaboratorToBlobbers build "multipart/form-data"
         (answers [("http://blobber-1", 200); ("http://blobber-2", 500);
                   ("http://blobber-3", 200); ("http://blobber-4", 500);
                   ("http://blobber-5", 500)])
         (update_request five 3) (jobs (update_request five 3))
       = Returns (false, req')).
Proof.
  split.
  - destruct (UpdateCollaboratorToBlobbers_quorum build "multipart/form-data"
                (answers [("http://blobber-1", 200); ("http://blobber-2", 500);
                          ("http://blobber-3", 200); ("http://blobber-4", 200);
                          ("http://blobber-5", 500)])
                (update_request five 3) (jobs (update_request five 3))
                [true; false; true; true; false])
      as (req' & Hrun & _); [reflexivity|reflexivity| |by exists req'].
    repeat constructor; eexists; (split; [reflexivity|vm_compute; reflexivity]).
  - destruct (UpdateCollaboratorToBlobbers_quorum build "multipart/form-data"
                (answers [("http://blobber-1", 200); ("http://blobber-2", 500);
                          ("http://blobber-3", 200); ("http://blobber-4", 500);
                          ("http://blobber-5", 500)])
                (update_request five 3) (jobs (update_request five 3))
                [true; false; true; false; false])
      as (req' & Hrun & _); [reflexivity|reflexivity| |by exists req'].
    repeat constructor; eexists; (split; [reflexivity|vm_compute; reflexivity]).
Defined.

End sdk_proofs.

(** * Further properties *)

Module resty_extra.

Import http resty resty_facts resty_extra_facts resty_proofs.

(** ** Reducers *)

Lemma Wait_loop_cancelled (r : Resty) results :
  ∀ errs n rest,
    n + Z.of_nat (length results) < qty r →
    Wait_loop r errs n (map Received results ++ CtxDone :: rest)
    = Returns (errs ++ omap (verdict r) results, rest).
Proof.
  induction results as [|res results IH]; intros errs n rest Hn.
  - simpl. by rewrite app_nil_r.
  - simpl in *. destruct (Z.leb_spec (qty r) (n + 1)); [lia|].
    rewrite IH by lia. unfold verdict.
    destruct (handle r) as [h|];
      [destruct (h _ _ _ _ _)|destruct (Err res)]; simpl;
      by rewrite <- ?app_assoc.
Qed.

Lemma Wait_loop_starved (r : Resty) results :
  ∀ errs n,
    n + Z.of_nat (length results) < qty r →
    Wait_loop r errs n (map Received results) = Hangs.
Proof.
  induction results as [|res results IH]; intros errs n Hn; [done|].
  simpl in *. destruct (Z.leb_spec (qty r) (n + 1)); [lia|].
  apply IH. lia.
Qed.

Lemma First_loop_cancelled (r : Resty) results :
  ∀ errs n rest,
    n + Z.of_nat (length results) < qty r →
    Forall (λ res, is_Some (verdict r res)) results →
    First_loop r errs n (map Received results ++ CtxDone :: rest)
    = Returns (Some (errs ++ omap (verdict r) results), rest).
Proof.
  induction results as [|res results IH]; intros errs n rest Hn Hrej.
  - simpl. by rewrite app_nil_r.
  - apply Forall_cons_1 in Hrej as [[e He] Hrej].
    simpl in *. rewrite He. unfold verdict in He.
    destruct (Z.leb_spec (qty r) (n + 1)); [lia|].
    destruct (handle r) as [h|]; rewrite He, IH by (done || lia);
      by rewrite <- app_assoc.
Qed.

Lemma First_loop_starved (r : Resty) results :
  ∀ errs n,
    n + Z.of_nat (length results) < qty r →
    Forall (λ res, is_Some (verdict r res)) results →
    First_loop r errs n (map Received results) = Hangs.
Proof.
  induction results as [|res results IH]; intros errs n Hn Hrej; [done|].
  apply Forall_cons_1 in Hrej as [[e He] Hrej].
  simpl in *. unfold verdict in He.
  destruct (Z.leb_spec (qty r) (n + 1)); [lia|].
  destruct (handle r) as [h|]; rewrite He; apply IH; (done || lia).
Qed.

(** X1.  [Wait] consumes exactly [qty r] results, asks the handler (or,
    without one, [Err]) about each, returns the errors in the order of
    arrival and leaves whatever arrives later. *)
Theorem Wait_collects_every_verdict (r : Resty) results rest :
  Z.of_nat (length results) = qty r →
  Wait r (map Received results ++ rest)
  = Returns (omap (verdict r) results, rest).
Proof.
  intros Hn. unfold Wait. destruct (Z.eqb_spec (qty r) 0) as [H0|H0].
  - by destruct results; [|simpl in Hn; lia].
  - rewrite Wait_loop_all; [done| |lia]. intros ->. simpl in Hn. lia.
Qed.

(** X2.  When the context is done before all results have arrived, [Wait]
    returns at once with the errors gathered so far, and so does [First]
    when nothing has been accepted yet: the list can be short, even
    empty, without any target having succeeded. *)
Theorem reducers_return_early_when_cancelled (r : Resty) results rest :
  Z.of_nat (length results) < qty r →
  Wait r (map Received results ++ CtxDone :: rest)
  = Returns (omap (verdict r) results, rest)
  ∧ (Forall (λ res, is_Some (verdict r res)) results →
     First r (map Received results ++ CtxDone :: rest)
     = Returns (Some (omap (verdict r) results), rest))
  ∧ (length (omap (verdict r) results) ≤ length results)%nat.
Proof.
  intros Hn. unfold Wait, First.
  destruct (Z.eqb_spec (qty r) 0) as [H0|H0]; [lia|]. split_and!.
  - by rewrite Wait_loop_cancelled.
  - intros Hrej. by rewrite First_loop_cancelled.
  - clear. induction results as [|res results IH]; [done|]. csimpl.
    destruct (verdict r res); simpl; lia.
Qed.

(** X3.  When fewer than [qty r] results ever arrive and the context is
    never done, [Wait] does not return; neither does [First] unless one
    of them is accepted. *)
Theorem reducers_wait_for_missing_results (r : Resty) results :
  Z.of_nat (length results) < qty r →
  Wait r (map Received results) = Hangs
  ∧ (Forall (λ res, is_Some (verdict r res)) results →
     First r (map Received results) = Hangs).
Proof.
  intros Hn. unfold Wait, First.
  destruct (Z.eqb_spec (qty r) 0) as [H0|H0]; [lia|]. split.
  - by apply Wait_loop_starved.
  - intros Hrej. by apply First_loop_starved.
Qed.

Lemma First_loop_Some_Wait_loop (r : Resty) sel :
  ∀ errs0 n errs rest,
    First_loop r errs0 n sel = Returns (Some errs, rest) →
    Wait_loop r errs0 n sel = Returns (errs, rest).
Proof.
  induction sel as [|[|res] sel IH]; intros errs0 n errs rest; simpl; [done| |].
  - by intros [= <- <-].
  - destruct (handle r) as [h|].
    + destruct (h _ _ _ _ _) as [e|]; [|done].
      destruct (qty r <=? n + 1); [by intros [= <- <-]|apply IH].
    + destruct (Err res) as [e|]; [|done].
      destruct (qty r <=? n + 1); [by intros [= <- <-]|apply IH].
Qed.

Lemma First_loop_None_accepts (r : Resty) sel :
  ∀ errs0 n rest,
    First_loop r errs0 n sel = Returns (None, rest) →
    ∃ rejected accepted,
      sel = map Received rejected ++ Received accepted :: rest ∧
      Forall (λ res, is_Some (verdict r res)) rejected ∧
      verdict r accepted = None.
Proof.
  induction sel as [|[|res] sel IH]; intros errs0 n rest; simpl; [done..|].
  destruct (verdict r res) as [e|] eqn:Hv; unfold verdict in Hv.
  - assert (First_loop r (errs0 ++ [e]) (n + 1) sel = Returns (None, rest)
            → ∃ rejected accepted,
                Received res :: sel
                = map Received rejected ++ Received accepted :: rest ∧
                Forall (λ res, is_Some (verdict r res)) rejected ∧
                verdict r accepted = None) as Hstep.
    { intros Hrec. destruct (IH _ _ _ Hrec) as (rej & acc & -> & Hrej & Hacc).
      exists (res :: rej), acc. split_and!; [done| |done].
      constructor; [|done]. unfold verdict. rewrite Hv. by eexists. }
    destruct (handle r) as [h|]; rewrite Hv;
      (destruct (qty r <=? n + 1); [done|exact Hstep]).
  - intros Hret. exists [], res.
    assert (rest = sel) as ->.
    { by destruct (handle r) as [h|]; rewrite Hv in Hret; injection Hret. }
    split_and!; [done|constructor|]. unfold verdict. exact Hv.
Qed.

(** X4.  [First] and [Wait] agree on failure: whenever [First] returns a
    list of errors, [Wait] on the same arrivals returns the same list and
    leaves the same arrivals; and [First] returns nil only for a result
    that is accepted after rejected ones, with nothing else consumed. *)
Theorem First_agrees_with_Wait (r : Resty) sel rest :
  (∀ errs,
     First r sel = Returns (Some errs, rest) →
     Wait r sel = Returns (errs, rest))
  ∧ (First r sel = Returns (None, rest) →
     ∃ rejected accepted,
       sel = map Received rejected ++ Received accepted :: rest ∧
       Forall (λ res, is_Some (verdict r res)) rejected ∧
       verdict r accepted = None).
Proof.
  unfold First, Wait. destruct (qty r =? 0).
  - split; [by intros errs [= <- <-]|done].
  - split; [intros errs; apply First_loop_Some_Wait_loop
           |apply First_loop_None_accepts].
Qed.

Lemma Wait_loop_bounds (r : Resty) sel :
  ∀ errs0 n errs rest,
    n < qty r →
    Wait_loop r errs0 n sel = Returns (errs, rest) →
    ∃ used,
      sel = used ++ rest ∧
      (length errs ≤ length errs0 + length used)%nat ∧
      (length errs0 ≤ length errs)%nat ∧
      n + Z.of_nat (length used) ≤ qty r.
Proof.
  induction sel as [|[|res] sel IH]; intros errs0 n errs rest Hn; simpl; [done| |].
  - intros [= <- <-]. exists [CtxDone]. simpl. split_and!; [done|lia|lia|lia].
  - set (errs1 := match handle r with
                  | Some h =>
                      match h (Request res) (Response res) (ResponseBody res)
                              cancelFunc (Err res) with
                      | Some err => errs0 ++ [err]
                      | None => errs0
                      end
                  | None =>
                      match Err res with
                      | Some err => errs0 ++ [err]
                      | None => errs0
                      end
                  end).
    assert (length errs0 ≤ length errs1 ≤ S (length errs0))%nat as Hlen.
    { unfold errs1. repeat case_match; rewrite ?length_app; simpl; lia. }
    destruct (Z.leb_spec (qty r) (n + 1)).
    + intros [= <- <-]. exists [Received res]. simpl.
      split_and!; [done|lia|lia|lia].
    + intros Hrec.
      apply IH in Hrec as (used & -> & H1 & H2 & H3); [|lia].
      exists (Received res :: used). simpl. split_and!; [done|lia|lia|lia].
Qed.

(** X5.  Whatever arrives, [Wait] never consumes more than [qty r]
    selects and never returns more errors than it has consumed. *)
Theorem Wait_consumes_at_most_qty (r : Resty) sel errs rest :
  0 ≤ qty r →
  Wait r sel = Returns (errs, rest) →
  ∃ used,
    sel = used ++ rest ∧
    (length errs ≤ length used)%nat ∧
    Z.of_nat (length used) ≤ qty r.
Proof.
  intros Hq. unfold Wait. destruct (Z.eqb_spec (qty r) 0) as [H0|H0].
  - intros [= <- <-]. exists []. simpl. split_and!; [done|lia|lia].
  - intros Hrun.
    apply Wait_loop_bounds in Hrun as (used & -> & H1 & _ & H3); [|lia].
    exists used. simpl in *. split_and!; [done|lia|lia].
Qed.

Lemma Wait_collects_every_verdict_witness :
  Wait (waiting 2 (Some only_200))
       [Received (result_of (reply_with 500 "busy"));
        Received (result_of (reply_with 200 "ok"));
        Received (result_of (reply_with 200 "late"))]
  = Returns (["unexpected status"%string],
             [Received (result_of (reply_with 200 "late"))]).
Proof.
  apply (Wait_collects_every_verdict (waiting 2 (Some only_200))
           [result_of (reply_with 500 "busy"); result_of (reply_with 200 "ok")]
           [Received (result_of (reply_with 200 "late"))]).
  reflexivity.
Defined.

Lemma reducers_return_early_when_cancelled_witness :
  Wait (waiting 3 None) [Received (result_of (reply_with 500 "busy")); CtxDone]
  = Returns ([], [])
  ∧ First (waiting 3 (Some only_200))
          [Received (result_of (reply_with 500 "busy")); CtxDone]
    = Returns (Some ["unexpected status"%string], []).
Proof.
  split.
  - apply (proj1 (reducers_return_early_when_cancelled (waiting 3 None)
                    [result_of (reply_with 500 "busy")] [] ltac:(simpl; lia))).
  - apply (proj1 (proj2 (reducers_return_early_when_cancelled
                           (waiting 3 (Some only_200))
                           [result_of (reply_with 500 "busy")] []
                           ltac:(simpl; lia)))).
    repeat constructor. by eexists.
Defined.

Lemma reducers_wait_for_missing_results_witness :
  Wait (waiting 2 None) [Received (result_of (reply_with 200 "ok"))] = Hangs
  ∧ First (waiting 2 None) [Received (result_of (reply_error DeadlineExceeded))]
    = Hangs.
Proof.
  split.
  - apply (proj1 (reducers_wait_for_missing_results (waiting 2 None)
                    [result_of (reply_with 200 "ok")] ltac:(simpl; lia))).
  - apply (proj2 (reducers_wait_for_missing_results (waiting 2 None)
                    [result_of (reply_error DeadlineExceeded)]
                    ltac:(simpl; lia))).
    repeat constructor. by eexists.
Defined.

Lemma First_agrees_with_Wait_witness :
  Wait (waiting 2 (Some only_200))
       [Received (result_of (reply_with 500 "busy"));
        Received (result_of (reply_error DeadlineExceeded))]
  = Returns (["unexpected status"%string; DeadlineExceeded], [])
  ∧ ∃ rejected accepted,
      [Received (result_of (reply_with 500 "busy"));
       Received (result_of (reply_with 200 "ok"));
       Received (result_of (reply_with 200 "late"))]
      = map Received rejected ++ Received accepted
          :: [Received (result_of (reply_with 200 "late"))]
      ∧ Forall (λ res, is_Some (verdict (waiting 3 (Some only_200)) res))
               rejected
      ∧ verdict (waiting 3 (Some only_200)) accepted = None.
Proof.
  split.
  - apply (proj1 (First_agrees_with_Wait (waiting 2 (Some only_200)) _ [])).
    reflexivity.
  - apply (proj2 (First_agrees_with_Wait (waiting 3 (Some only_200)) _ _)).
    reflexivity.
Defined.

Lemma Wait_consumes_at_most_qty_witness :
  ∃ used,
    [Received (result_of (reply_with 500 "busy")); CtxDone;
     Received (result_of (reply_with 200 "late"))]
    = used ++ [Received (result_of (reply_with 200 "late"))]
    ∧ (length ["unexpected status"%string] ≤ length used)%nat
    ∧ Z.of_nat (length used) ≤ qty (waiting 3 (Some only_200)).
Proof.
  apply (Wait_consumes_at_most_qty (waiting 3 (Some only_200))).
  - simpl. lia.
  - reflexivity.
Defined.

(** ** The executor *)

Section Executor.

Context {C : Type} `{!Client C}.

(** X6.  Without retries ([retry r ≤ 0]) [httpDo] calls the client exactly
    once, with the batch context attached, and never asks the request for
    a copy of its body; the [Result] carries the reply of that call but the
    request as it was handed in.  A response is drained and, unless reading
    it fails, closed. *)
Theorem httpDo_without_retry (r : Resty) (request : http.Request)
        (w : @World C) :
  retry r ≤ 0 →
  let sent := WithContext request BatchContext in
  let bytes := body_bytes (w_store w) (Body request) in
  let x := reply (w_client w) sent bytes in
  bodied x →
  ∃ w',
    httpDo r request w = Returns (outcome request x.1 x.2, w')
    ∧ w_trace w' = w_trace w ++ EvClientDo 1 sent x.1 x.2 :: drain_trace x.1
    ∧ w_client w' = after (w_client w) sent bytes.
Proof.
  intros Hretry sent bytes x. subst sent bytes x.
  unfold httpDo, call_client, reply, after.
  destruct (Z.ltb_spec 0 (retry r)); [lia|].
  change (Body (WithContext request BatchContext)) with (Body request).
  destruct (client_Do (w_client w) (WithContext request BatchContext)
                      (body_bytes (w_store w) (Body request)))
    as [[[resp err] c] n].
  simpl. intros Hbodied.
  destruct (finish_outcome request resp err
              (mkWorld c (consume (w_store w) (Body request) n)
                       (w_trace w
                        ++ [EvClientDo 1 (WithContext request BatchContext)
                                       resp err])) Hbodied)
    as (w' & -> & Hc & _ & Htr).
  exists w'. simpl in *. rewrite Htr, <- app_assoc. by rewrite Hc.
Qed.

(** What [GetBody] hands out. *)
Lemma call_GetBody_fresh (request : http.Request) (st st' : Store) copy :
  call_GetBody request st = Returns (copy, st') →
  ∃ src,
    GetBody request = Some src ∧
    match src with
    | SourceNoBody => copy = Some NoBody ∧ st' = st
    | SourceSnapshot content =>
        copy = Some (ReaderAt (length st))
        ∧ st' = st ++ [mkStream BytesReader content]
    end.
Proof.
  unfold call_GetBody, alloc.
  destruct (GetBody request) as [[|content]|]; [| |done].
  - intros [= <- <-]. by exists SourceNoBody.
  - intros [= <- <-]. by exists (SourceSnapshot content).
Qed.

Lemma consume_length (st : Store) b n : length (consume st b n) = length st.
Proof.
  unfold consume. destruct b as [[|a]|]; [done| |done].
  destruct (st !! a); [|done]. by rewrite length_insert.
Qed.

Lemma consume_other (st : Store) b n (a : nat) :
  b ≠ Some (ReaderAt a) → consume st b n !! a = st !! a.
Proof.
  intros Hb. unfold consume. destruct b as [[|a']|]; [done| |done].
  destruct (st !! a'); [|done]. apply list_lookup_insert_ne. congruence.
Qed.

(** X7.  A POST or PUT request with a body that goes through a failed
    pass of the retry loop comes out with a new body: the next attempt
    reads the whole snapshot of [GetBody] from a reader of its own, however
    much of the old body the client has read; [GetBody] stays as it was. *)
Theorem retried_pass_replays_the_body (r : Resty) (i : Z)
        (request request' : http.Request) (w w' : @World C) :
  pass r i request w = Again request' w' →
  replays request = true →
  (∀ a, Body request = Some (ReaderAt a) → (a < length (w_store w))%nat) →
  ∃ src,
    GetBody request = Some src
    ∧ GetBody request' = Some src
    ∧ body_bytes (w_store w') (Body request')
      = match src with SourceNoBody => [] | SourceSnapshot content => content end
    ∧ replays request' = true
    ∧ ∀ a, Body request' = Some (ReaderAt a) →
           (a < length (w_store w'))%nat ∧ Body request ≠ Some (ReaderAt a).
Proof.
  intros Hpass Hreplays Hvalid. unfold pass in Hpass. rewrite Hreplays in Hpass.
  destruct (call_GetBody request (w_store w)) as [[copy st]| |] eqn:Hcopy;
    [|done..].
  apply call_GetBody_fresh in Hcopy as (src & Hsrc & Hcopy).
  exists src. split; [done|].
  unfold call_client in Hpass. simpl in Hpass.
  destruct (client_Do (w_client w) request (body_bytes st (Body request)))
    as [[[resp err] c] n].
  assert (request' = set_Body request copy
          ∧ w_store w' = consume st (Body request) n) as [-> Hst].
  { unfold log in Hpass. by repeat case_match; simplify_eq. }
  assert (replays (set_Body request copy) = true) as Hagain.
  { unfold replays in *. simpl. apply andb_prop in Hreplays as [-> _].
    by destruct src; destruct Hcopy as [-> _]. }
  rewrite Hst. clear Hpass. split; [done|].
  destruct src as [|content]; destruct Hcopy as [-> ->]; simpl.
  - done.
  - assert (Body request ≠ Some (ReaderAt (length (w_store w)))) as Hne.
    { intros Hb. apply Hvalid in Hb. lia. }
    rewrite consume_other by done.
    rewrite lookup_app_r, Nat.sub_diag by done. simpl.
    split_and!; [done|done|]. intros a [= <-].
    rewrite consume_length, length_app. simpl. split; [lia|done].
Qed.

(** *** The number of calls of the client *)

Lemma calls_snoc (tr : list Event) e :
  calls (tr ++ [e]) = (calls tr + (if is_call e then 1 else 0))%nat.
Proof.
  unfold calls. rewrite filter_app, length_app.
  destruct e; simpl; try done.
Qed.

Lemma finish_calls request resp err (w w' : @World C) res :
  post_of (finish request resp err w) = Posts res w' →
  calls (w_trace w') = calls (w_trace w).
Proof.
  unfold finish, post_of, log.
  repeat case_match; intros; simplify_eq; simpl;
    by rewrite ?calls_snoc, ?Nat.add_0_r.
Qed.

Lemma call_client_calls i request (w : @World C) :
  calls (w_trace (call_client i request w).2) = S (calls (w_trace w)).
Proof.
  unfold call_client. destruct (client_Do _ _ _) as [[[resp err] c] n].
  simpl. rewrite calls_snoc. simpl. lia.
Qed.

Lemma pass_calls (r : Resty) i request (w : @World C) :
  match pass r i request w with
  | Break _ _ _ w' => calls (w_trace w') = S (calls (w_trace w))
  | Again _ w' => calls (w_trace w') = S (calls (w_trace w)) ∧ i ≠ retry r
  | PassPanics => True
  end.
Proof.
  unfold pass.
  destruct (if replays request then call_GetBody request (w_store w)
            else Returns (None, w_store w)) as [[copy st]| |]; [|done..].
  pose proof (call_client_calls i request
                (mkWorld (w_client w) st (w_trace w))) as Hc.
  destruct (call_client i request _) as [[resp err] w1]. simpl in Hc.
  destruct (success_status resp); [done|].
  assert (calls (w_trace (if has_body resp && (i <? retry r)
                          then log w1 (EvBodyClose i) else w1))
          = S (calls (w_trace w))) as Hclose.
  { destruct (_ && _); [|done]. unfold log. simpl.
    rewrite calls_snoc. simpl. lia. }
  destruct (Z.eqb_spec i (retry r)); [done|]. split; [|done].
  destruct (too_many_requests resp); [|done]. unfold log at 1. simpl.
  rewrite calls_snoc. simpl. lia.
Qed.

Lemma worker_step_calls (r r' : Resty) wk (w : @World C) :
  retry r' = retry r →
  pass_in_range r wk →
  match worker_step r' wk w with
  | Continues wk' w' =>
      calls (w_trace w') = S (calls (w_trace w))
      ∧ wk_pass wk' = wk_pass wk + 1 ∧ pass_in_range r wk'
  | Posts _ w' => calls (w_trace w') = S (calls (w_trace w))
  | WorkerPanics => True
  end.
Proof.
  intros Hr Hrange. unfold worker_step, pass_in_range in *. rewrite Hr.
  destruct (Z.ltb_spec 0 (retry r)).
  - pose proof (pass_calls r' (wk_pass wk) (wk_request wk) w) as Hp.
    rewrite Hr in Hp.
    destruct (pass r' _ _ w) as [request resp err w'|request w'|]; [| |done].
    + destruct (post_of (finish _ _ _ _)) as [|res w''|] eqn:Hfin; try done.
      * by destruct (finish request resp err w') as [[]| |].
      * apply finish_calls in Hfin. congruence.
    + destruct Hp as [Hp Hne]. simpl. split_and!; [done|done|lia|lia].
  - pose proof (call_client_calls 1 (WithContext (wk_request wk) BatchContext) w)
      as Hc.
    destruct (call_client _ _ _) as [[resp err] w']. simpl in Hc.
    destruct (post_of (finish _ _ _ _)) as [|res w''|] eqn:Hfin; try done.
    + by destruct (finish (wk_request wk) resp err w') as [[]| |].
    + apply finish_calls in Hfin. congruence.
Qed.

(** *** Response bodies *)

Lemma bodies_snoc (tr : list Event) e :
  bodies (tr ++ [e]) = (bodies tr + (if with_body e then 1 else 0))%nat.
Proof.
  unfold bodies. rewrite filter_app, length_app.
  unfold filter at 2. simpl. by destruct (with_body e).
Qed.

Lemma closes_snoc (tr : list Event) e :
  closes (tr ++ [e]) = (closes tr + (if is_close e then 1 else 0))%nat.
Proof.
  unfold closes. rewrite filter_app, length_app.
  unfold filter at 2. simpl. by destruct (is_close e).
Qed.

Lemma call_client_bodies i request (w : @World C) :
  bodies (w_trace (call_client i request w).2)
  = (bodies (w_trace w)
     + (if has_body (call_client i request w).1.1 then 1 else 0))%nat
  ∧ closes (w_trace (call_client i request w).2) = closes (w_trace w).
Proof.
  unfold call_client. destruct (client_Do _ _ _) as [[[resp err] c] n].
  simpl. rewrite bodies_snoc, closes_snoc. simpl. lia.
Qed.

Lemma pass_closes (r : Resty) i request (w : @World C) :
  i ≤ retry r →
  match pass r i request w with
  | Break _ resp _ w' =>
      closes (w_trace w') = closes (w_trace w)
      ∧ bodies (w_trace w')
        = (bodies (w_trace w) + (if has_body resp then 1 else 0))%nat
  | Again _ w' =>
      (closes (w_trace w') + bodies (w_trace w)
       = closes (w_trace w) + bodies (w_trace w'))%nat
      ∧ i < retry r
  | PassPanics => True
  end.
Proof.
  intros Hi. unfold pass.
  destruct (if replays request then call_GetBody request (w_store w)
            else Returns (None, w_store w)) as [[copy st]| |]; [|done..].
  destruct (call_client_bodies i request
              (mkWorld (w_client w) st (w_trace w))) as [Hb Hc].
  destruct (call_client i request _) as [[resp err] w1]. simpl in Hb, Hc.
  destruct (success_status resp); [done|].
  destruct (Z.eqb_spec i (retry r)) as [->|Hne].
  - rewrite Z.ltb_irrefl, andb_false_r. done.
  - destruct (Z.ltb_spec i (retry r)); [|lia]. rewrite andb_true_r.
    split; [|done].
    assert (∀ w2 : @World C,
              closes (w_trace (if too_many_requests resp
                               then log w2 (EvSleep (1 * Second)) else w2))
              = closes (w_trace w2)
              ∧ bodies (w_trace (if too_many_requests resp
                                 then log w2 (EvSleep (1 * Second)) else w2))
                = bodies (w_trace w2)) as Hsleep.
    { intros w2. destruct (too_many_requests resp); [|done]. unfold log.
      simpl. rewrite closes_snoc, bodies_snoc. simpl. lia. }
    destruct (has_body resp).
    + destruct (Hsleep (log w1 (EvBodyClose i))) as [-> ->]. unfold log. simpl.
      rewrite closes_snoc, bodies_snoc. simpl. lia.
    + destruct (Hsleep w1) as [-> ->]. lia.
Qed.

Lemma retry_loop_closes (r : Resty) :
  ∀ fuel i request (w : @World C) request' resp err w',
    i ≤ retry r →
    retry_loop fuel r i request w = Returns (request', resp, err, w') →
    (closes (w_trace w') + bodies (w_trace w)
     + (if has_body resp then 1 else 0)
     = closes (w_trace w) + bodies (w_trace w'))%nat.
Proof.
  induction fuel as [|fuel IH]; intros i request w request' resp err w' Hi;
    simpl; pose proof (pass_closes r i request w Hi) as Hp;
    destruct (pass r i request w) as [req1 resp1 err1 w1|req1 w1|]; try done.
  - intros [= <- <- <- <-]. lia.
  - intros [= <- <- <- <-]. lia.
  - intros Hrun. apply IH in Hrun; lia.
Qed.

Lemma finish_closes request resp err (w w' : @World C) res :
  finish request resp err w = Returns (res, w') →
  Response res = resp
  ∧ bodies (w_trace w') = bodies (w_trace w)
  ∧ (closes (w_trace w') + left_open res
     = closes (w_trace w) + (if has_body resp then 1 else 0))%nat.
Proof.
  unfold finish, left_open, read_failure, body_of, has_body, log.
  destruct resp as [rsp|]; [|by intros [= <- <-]].
  destruct (RespBody rsp) as [b|] eqn:Hb; [|done].
  rewrite bool_decide_eq_true_2 by by eexists.
  destruct (read_error b) as [e|] eqn:He; intros [= <- <-]; simpl;
    rewrite Hb, He, ?closes_snoc, ?bodies_snoc; simpl;
    rewrite ?closes_snoc, ?bodies_snoc; simpl; split_and!; (done || lia).
Qed.

(** X22.  The response bodies closed balance those received, but for one
    case.  Whenever [httpDo] gets to post its [Result], whatever the retry
    limit and the answers of the client, it has closed as many bodies as
    it has received with the responses, less one exactly when the read of
    the last response fails: that body is left open. *)
Theorem httpDo_closes_every_body (r : Resty) request (w w' : @World C) res :
  httpDo r request w = Returns (res, w') →
  (closes (w_trace w') + bodies (w_trace w) + left_open res
   = closes (w_trace w) + bodies (w_trace w'))%nat.
Proof.
  unfold httpDo. destruct (Z.ltb_spec 0 (retry r)) as [Hpos|Hneg].
  - destruct (retry_loop _ r 1 request w)
      as [[[[request' resp] err] w1]| |] eqn:Hloop; [|done..].
    apply retry_loop_closes in Hloop; [|lia]. intros Hfin.
    apply finish_closes in Hfin as (_ & Hb & Hc). lia.
  - destruct (call_client_bodies 1 (WithContext request BatchContext) w)
      as [Hb1 Hc1].
    destruct (call_client 1 _ w) as [[resp err] w1]. simpl in Hb1, Hc1.
    intros Hfin. apply finish_closes in Hfin as (_ & Hb & Hc). lia.
Qed.

Variable request_error : string → string → option error.

Lemma step_calls (r : Resty) method body ch (b : @Batch C) :
  retry (b_resty b) = retry r →
  Forall (pass_in_range r) (b_workers b) →
  match step request_error method body ch b with
  | Moves b' =>
      retry (b_resty b') = retry r
      ∧ Forall (pass_in_range r) (b_workers b')
      ∧ (calls_budget r b' ≤ calls_budget r b)%nat
  | _ => True
  end.
Proof.
  intros Hr Hrange. unfold calls_budget.
  destruct ch as [|k]; simpl.
  - destruct (b_urls b) as [|url rest] eqn:Hurls; [done|].
    destruct (dispatch _ _ _ _ _ _) as [res|req].
    + destruct (chan_send _ _); [|done]. simpl. split_and!; [done|done|lia].
    + simpl. split_and!; [done| |].
      * apply Forall_app. split; [done|]. constructor; [|done].
        unfold pass_in_range. simpl. lia.
      * rewrite fmap_app, sum_list_with_app. simpl. unfold work at 2. simpl.
        lia.
  - destruct (b_workers b !! k) as [wk|] eqn:Hk; [|done].
    assert (pass_in_range r wk) as Hwk by by eapply Forall_lookup_1.
    pose proof (worker_step_calls r (b_resty b) wk (b_world b) Hr Hwk) as Hstep.
    assert (sum_list (work r <$> b_workers b)
            = work r wk
              + sum_list (take k (work r <$> b_workers b)
                          ++ drop (S k) (work r <$> b_workers b)))%nat as Hsum.
    { rewrite <- (take_drop_middle (work r <$> b_workers b) k (work r wk)) at 1
        by by rewrite list_lookup_fmap, Hk.
      apply sum_list_middle. }
    assert (k < length (b_workers b))%nat by by eapply lookup_lt_Some.
    destruct (worker_step _ wk _) as [wk' w'|res w'|]; [| |done].
    + destruct Hstep as (Hcalls & Hpass & Hwk'). simpl.
      split_and!; [done|by apply Forall_insert|].
      rewrite list_fmap_insert, insert_take_drop by by rewrite length_fmap.
      rewrite sum_list_middle, Hsum, Hcalls.
      assert (S (work r wk') = work r wk)%nat; [|lia].
      unfold work, pass_in_range in *. lia.
    + destruct (chan_send _ _); [|done]. simpl.
      split_and!; [done|by apply Forall_delete|].
      rewrite list_fmap_delete, delete_take_drop, Hsum, Hstep.
      assert (0 < work r wk)%nat; [|lia].
      unfold work, pass_in_range in *. lia.
Qed.

Lemma exec_calls (r : Resty) method body sched :
  ∀ b b' : @Batch C,
    retry (b_resty b) = retry r →
    Forall (pass_in_range r) (b_workers b) →
    exec request_error method body sched b = Moves b' →
    (calls_budget r b' ≤ calls_budget r b)%nat.
Proof.
  induction sched as [|ch sched IH]; intros b b' Hr Hrange; simpl.
  - by intros [= <-].
  - pose proof (step_calls r method body ch b Hr Hrange) as Hstep.
    destruct (step _ _ _ _ b) as [b1| |]; [|done..].
    destruct Hstep as (Hr1 & Hrange1 & Hle). intros Hexec.
    apply IH in Hexec; [lia|done|done].
Qed.

(** X8.  However a batch is scheduled, whatever the client answers and
    whether or not it ends, the client is never called more than
    [max 1 (retry r)] times for each target. *)
Theorem batch_calls_are_bounded (r : Resty) method body urls sched
        (w : @World C) b :
  exec request_error method body sched (start r urls w) = Moves b →
  (calls (w_trace (b_world b))
   ≤ calls (w_trace w) + length urls * Z.to_nat (Z.max 1 (retry r)))%nat.
Proof.
  intros Hexec. apply (exec_calls r) in Hexec; [|done|constructor].
  unfold calls_budget in Hexec. simpl in Hexec. lia.
Qed.

(** *** What [Do] starts *)

Lemma new_request_fields method url body (st : Store) :
  URL (new_request method url body st) = url
  ∧ Method (new_request method url body st)
    = (if String.eqb method "" then MethodGet else method).
Proof.
  unfold new_request. destruct body as [a|]; [|done].
  destruct (st !! a) as [[[] bytes]|]; try destruct (decide _); done.
Qed.

Lemma prepared_fields (r : Resty) method body url (st : Store) :
  URL (prepared r method body url st) = url
  ∧ Method (prepared r method body url st)
    = (if String.eqb method "" then MethodGet else method)
  ∧ Header (prepared r method body url st) !! "Connection"
    = Some "keep-alive"%string.
Proof.
  destruct (new_request_fields method url body st) as [Hurl Hmethod].
  unfold prepared. simpl. split_and!.
  - rewrite <- Hurl at 2.
    by apply (map_fold_weak_ind (λ req' _, URL req' = URL _)).
  - rewrite <- Hmethod.
    by apply (map_fold_weak_ind (λ req' _, Method req' = Method _)).
  - apply lookup_insert_eq.
Qed.

Lemma dispatch_plain (r : Resty) method body url (st : Store) :
  requestInterceptor r = None →
  dispatch request_error r method body url st
  = match request_error method url with
    | Some err => Post (mkResult None None [] (Some err))
    | None => Spawn (WithContext (prepared r method body url st) BatchContext)
    end.
Proof.
  intros Hf. unfold dispatch, NewRequest, prepared. rewrite Hf.
  by destruct (request_error method url).
Qed.

Lemma dispatch_context (r : Resty) method body url (st : Store) req :
  dispatch request_error r method body url st = Spawn req →
  Ctx req = BatchContext.
Proof.
  unfold dispatch. destruct (NewRequest _ _ _ _ _); [|done].
  destruct (requestInterceptor r) as [f|]; [|by intros [= <-]].
  destruct (f _) as [req' [e|]]; [done|by intros [= <-]].
Qed.

(** X9.  [Do] returns a [Resty] set up for [length urls] results and
    leaves handler and retries alone.  Every request it starts a goroutine
    for carries the context of the batch, whatever the interceptor did to
    it.  Without an interceptor the requests started are, in order, those
    of the targets that [http.NewRequest] accepts, each with the target as
    URL, the method asked for (GET for the empty one) and the header
    [Connection: keep-alive], also when the configured headers set
    [Connection] to something else. *)
Theorem Do_starts_requests_in_batch_context (r : Resty) method body urls
        (st : Store) :
  ∃ r' spawned,
    Do request_error r method body urls st = Returns (r', spawned)
    ∧ qty r' = Z.of_nat (length urls)
    ∧ chan_cap (done r') = Z.of_nat (length urls)
    ∧ Forall (λ req, Ctx req = BatchContext) spawned
    ∧ (requestInterceptor r = None →
       URL <$> spawned
       = filter (λ url, request_error method url = None) urls
       ∧ Forall (λ req,
                   Method req
                   = (if String.eqb method "" then MethodGet else method)
                   ∧ Header req !! "Connection" = Some "keep-alive"%string)
                spawned).
Proof.
  unfold Do.
  destruct (Do_loop_all request_error
              (set_batch r (Z.of_nat (length urls))
                         (make_chan (Z.of_nat (length urls))))
              method body st urls
              (set_batch r (Z.of_nat (length urls))
                         (make_chan (Z.of_nat (length urls)))) [])
    as (r' & Hrun & _ & Hqty & Hcap); [done|done|simpl; lia|].
  exists r', (omap spawned_of
                ((λ url, dispatch request_error
                           (set_batch r (Z.of_nat (length urls))
                                      (make_chan (Z.of_nat (length urls))))
                           method body url st) <$> urls)).
  split_and!; [done|done|done| |].
  - clear. generalize (set_batch r (Z.of_nat (length urls))
                                 (make_chan (Z.of_nat (length urls)))).
    intros r0. induction urls as [|url urls IH]; csimpl; [constructor|].
    destruct (dispatch _ _ _ _ _ _) as [res|req] eqn:Hd; simpl; [done|].
    constructor; [|done]. by eapply dispatch_context.
  - intros Hf. clear Hrun Hqty Hcap.
    assert (requestInterceptor (set_batch r (Z.of_nat (length urls))
                                          (make_chan (Z.of_nat (length urls))))
            = None) as Hf0 by done.
    revert Hf0. generalize (set_batch r (Z.of_nat (length urls))
                                      (make_chan (Z.of_nat (length urls)))).
    intros r0 Hf0. induction urls as [|url urls [IH1 IH2]]; csimpl; [done|].
    rewrite dispatch_plain by done.
    destruct (prepared_fields r0 method body url st) as (Hurl & Hm & Hc).
    destruct (request_error method url) as [e|] eqn:He; csimpl.
    + rewrite filter_cons_False by (by rewrite He). done.
    + rewrite filter_cons_True by done. split; [|by constructor].
      f_equal; [exact Hurl|exact IH1].
Qed.

Lemma rejected_dispatches (r : Resty) method body (st : Store) urls errs :
  Forall2 (λ url e, request_error method url = Some e) urls errs →
  omap posted_of
    ((λ url, dispatch request_error r method body url st) <$> urls)
  = (λ e, mkResult None None [] (Some e)) <$> errs
  ∧ omap spawned_of
      ((λ url, dispatch request_error r method body url st) <$> urls)
    = [].
Proof.
  induction 1 as [|url e urls errs He _ [IH1 IH2]]; [done|].
  assert (dispatch request_error r method body url st
          = Post (mkResult None None [] (Some e))) as Hd.
  { unfold dispatch, NewRequest. by rewrite He. }
  csimpl. rewrite Hd. csimpl. split; [by rewrite IH1|exact IH2].
Qed.

Lemma Do_loop_settings method body (st : Store) urls :
  ∀ (r r' : Resty) spawned spawned',
    Do_loop request_error r method body urls st spawned
    = Returns (r', spawned') →
    handle r' = handle r ∧ retry r' = retry r.
Proof.
  induction urls as [|url urls IH]; intros r r' spawned spawned'; simpl.
  - by intros [= <- _].
  - destruct (dispatch _ _ _ _ _ _) as [res|req]; [|apply IH].
    destruct (chan_send _ _) as [ch|]; [|done]. intros Hrun.
    by apply IH in Hrun.
Qed.

Lemma rejected_verdicts (r : Resty) (errs : list error) :
  handle r = None →
  omap (verdict r) ((λ e, mkResult None None [] (Some e)) <$> errs) = errs
  ∧ Forall (λ res, is_Some (verdict r res))
           ((λ e, mkResult None None [] (Some e)) <$> errs).
Proof.
  intros Hh. unfold verdict. rewrite Hh.
  induction errs as [|e errs [IH1 IH2]]; csimpl; [done|].
  rewrite IH1. split; [done|]. constructor; [by eexists|done].
Qed.

(** X10.  When [http.NewRequest] rejects every target of a batch, [Do]
    starts no goroutine and calls nothing; it queues the errors in the
    order of the targets, and without a handler [Wait] and [First] both
    return exactly these errors.  For an empty batch both return at once;
    the list of [First] is then empty but not nil. *)
Theorem rejected_batch_yields_every_error (r : Resty) method body urls
        (st : Store) errs :
  Forall2 (λ url e, request_error method url = Some e) urls errs →
  handle r = None →
  ∃ r',
    Do request_error r method body urls st = Returns (r', [])
    ∧ chan_buf (done r') = (λ e, mkResult None None [] (Some e)) <$> errs
    ∧ Wait r' (map Received (chan_buf (done r'))) = Returns (errs, [])
    ∧ First r' (map Received (chan_buf (done r'))) = Returns (Some errs, []).
Proof.
  intros Hrej Hh. unfold Do.
  pose proof (Forall2_length _ _ _ Hrej) as Hlen.
  set (r0 := set_batch r (Z.of_nat (length urls))
                       (make_chan (Z.of_nat (length urls)))).
  destruct (Do_loop_all request_error r0 method body st urls r0 [])
    as (r' & Hrun & Hbuf & Hqty & _); [done|done|simpl; lia|].
  destruct (rejected_dispatches r0 method body st urls errs Hrej) as [Hp Hs].
  rewrite Hp in Hbuf. rewrite Hs in Hrun. simpl in Hbuf, Hrun, Hqty.
  destruct (Do_loop_settings _ _ _ _ _ _ _ _ Hrun) as [Hh' _].
  simpl in Hh'. rewrite Hh in Hh'.
  destruct (rejected_verdicts r' errs Hh') as [Hv Hall].
  exists r'. rewrite Hbuf. split_and!; [done|done| |].
  - unfold Wait. destruct (Z.eqb_spec (qty r') 0) as [H0|H0].
    + by destruct errs; [|simpl in Hlen; lia].
    + rewrite <- (app_nil_r (map Received _)), Wait_loop_all.
      * by rewrite Hv.
      * intros Hnil. apply fmap_nil_inv in Hnil. subst errs. simpl in Hlen. lia.
      * rewrite length_fmap. lia.
  - unfold First. destruct (Z.eqb_spec (qty r') 0) as [H0|H0].
    + by destruct errs; [|simpl in Hlen; lia].
    + rewrite <- (app_nil_r (map Received _)), First_loop_rejected.
      * by rewrite Hv.
      * intros Hnil. apply fmap_nil_inv in Hnil. subst errs. simpl in Hlen. lia.
      * rewrite length_fmap. lia.
      * done.
Qed.

End Executor.

(** A POST of an [*os.File], which [http.NewRequest] cannot replay, goes
    through when retries are off. *)
Lemma httpDo_without_retry_witness :
  ∃ w',
    @httpDo _ recorder (plain 0)
            (new_request MethodPost "http://blobber-1" (Some 0%nat) hello_file)
            (mkWorld [] hello_file [])
    = Returns
        (mkResult
           (Some (new_request MethodPost "http://blobber-1" (Some 0%nat)
                              hello_file))
           (reply_with 200 "").1 [] None,
         w')
    ∧ calls (w_trace w') = 1%nat
    ∧ w_client w' = [hello].
Proof.
  destruct (@httpDo_without_retry _ recorder (plain 0)
              (new_request MethodPost "http://blobber-1" (Some 0%nat) hello_file)
              (mkWorld [] hello_file []))
    as (w' & Hrun & Htrace & Hclient).
  - simpl. lia.
  - apply reply_with_bodied.
  - exists w'. split_and!; [exact Hrun|by rewrite Htrace|exact Hclient].
Defined.

(** The client has read all of "hello" and answered 503: the request
    that goes into the second pass reads "hello" again. *)
Lemma retried_pass_replays_the_body_witness :
  ∃ request' w',
    @pass _ busy_reader (plain 3) 1
          (new_request MethodPost "http://blobber-1" (Some 0%nat) hello_reader)
          (mkWorld [] hello_reader [])
    = Again request' w'
    ∧ w_client w' = [hello]
    ∧ body_bytes (w_store w') (Body request') = hello.
Proof.
  assert (∃ request' w',
            @pass _ busy_reader (plain 3) 1
                  (new_request MethodPost "http://blobber-1" (Some 0%nat)
                               hello_reader)
                  (mkWorld [] hello_reader [])
            = Again request' w'
            ∧ w_client w' = [hello]) as (request' & w' & Hpass & Hclient).
  { eexists _, _. split; vm_compute; reflexivity. }
  exists request', w'. split_and!; [exact Hpass|exact Hclient|].
  destruct (retried_pass_replays_the_body _ _ _ _ _ _ Hpass)
    as (src & Hsrc & _ & Hbytes & _).
  - reflexivity.
  - intros a [= <-]. simpl. lia.
  - injection Hsrc as <-. exact Hbytes.
Defined.

Lemma batch_calls_are_bounded_witness :
  ∃ b,
    @exec _ (stub [] (reply_with 500 "busy")) no_empty_url MethodGet None
          [TurnOfDo; TurnOfWorker 0; TurnOfDo; TurnOfWorker 0; TurnOfWorker 1]
          (start (plain 3) two_targets fresh_world)
    = Moves b
    ∧ (calls (w_trace (b_world b)) ≤ 0 + 2 * 3)%nat.
Proof.
  assert (∃ b,
            @exec _ (stub [] (reply_with 500 "busy")) no_empty_url MethodGet None
                  [TurnOfDo; TurnOfWorker 0; TurnOfDo; TurnOfWorker 0;
                   TurnOfWorker 1]
                  (start (plain 3) two_targets fresh_world)
            = Moves b) as [b Hexec].
  { eexists. vm_compute. reflexivity. }
  exists b. split; [exact Hexec|].
  exact (batch_calls_are_bounded _ _ _ _ _ _ _ _ Hexec).
Defined.

Lemma Do_starts_requests_in_batch_context_witness :
  ∃ r' spawned,
    Do no_empty_url (plain 3) MethodGet None ["http://blobber-1"; ""] []
    = Returns (r', spawned)
    ∧ qty r' = 2
    ∧ URL <$> spawned = ["http://blobber-1"]
    ∧ Forall (λ req, Ctx req = BatchContext) spawned.
Proof.
  destruct (Do_starts_requests_in_batch_context no_empty_url (plain 3)
              MethodGet None ["http://blobber-1"; ""] [])
    as (r' & spawned & Hrun & Hqty & _ & Hctx & Hplain).
  destruct (Hplain eq_refl) as [Hurls _].
  exists r', spawned. split_and!; [exact Hrun|exact Hqty|exact Hurls|exact Hctx].
Defined.

Lemma rejected_batch_yields_every_error_witness :
  ∃ r',
    Do no_empty_url (plain 3) MethodGet None [""; ""] [] = Returns (r', [])
    ∧ Wait r' (map Received (chan_buf (done r')))
      = Returns (["parse : empty url"; "parse : empty url"]%string, []).
Proof.
  destruct (rejected_batch_yields_every_error no_empty_url (plain 3)
              MethodGet None [""; ""] []
              ["parse : empty url"; "parse : empty url"]%string)
    as (r' & Hrun & _ & Hwait & _).
  - repeat constructor.
  - reflexivity.
  - exists r'. split; [exact Hrun|exact Hwait].
Defined.

(** A 500 and then a 200 whose body breaks off: two bodies received, the
    first closed, the second left open. *)
Lemma httpDo_closes_every_body_witness :
  ∃ res w',
    @httpDo nat
      (stub [reply_with 500 "busy"]
            (Some (mkResponse 200
                     (Some (mkResponseBody [] (Some "unexpected EOF"%string)))),
             None))
      (plain 3) (get_request "http://blobber-1") fresh_world
    = Returns (res, w')
    ∧ left_open res = 1%nat
    ∧ (closes (w_trace w') + 1 = bodies (w_trace w'))%nat.
Proof.
  assert (∃ res w',
            @httpDo nat
              (stub [reply_with 500 "busy"]
                    (Some (mkResponse 200
                             (Some (mkResponseBody
                                      [] (Some "unexpected EOF"%string)))),
                     None))
              (plain 3) (get_request "http://blobber-1") fresh_world
            = Returns (res, w')
            ∧ left_open res = 1%nat) as (res & w' & Hrun & Hopen).
  { eexists _, _. split; vm_compute; reflexivity. }
  exists res, w'. split_and!; [exact Hrun|exact Hopen|].
  pose proof (httpDo_closes_every_body _ _ _ _ _ Hrun) as Hclosed.
  rewrite Hopen in Hclosed.
  change (bodies (w_trace fresh_world)) with 0%nat in Hclosed.
  change (closes (w_trace fresh_world)) with 0%nat in Hclosed. lia.
Defined.

End resty_extra.

Module sdk_extra.

Import http sdk sdk_facts sdk_extra_facts sdk_proofs.

Section ReplicaFacts.

Variable NewCollaboratorRequest :
  string → string → list (string * string) → http.Request + error.
Variable DeleteCollaboratorRequest :
  string → string → list (string * string) → http.Request + error.
Variable FormDataContentType : string.
Variable Client_Do : http.Request → option http.Response * option error.

Lemma report_act resp err (ch : Chan bool) :
  Z.of_nat (length (chan_buf ch)) < chan_cap ch →
  match report resp err ch with
  | Returns (_, ch') =>
      ∃ v, vote (resp, err) = Some v
           ∧ ch' = mkChan (chan_buf ch ++ [v]) (chan_cap ch)
  | Panics => vote (resp, err) = None
  | Hangs => False
  end.
Proof.
  intros Hroom. unfold report, vote, chan_send.
  destruct (Z.ltb_spec (Z.of_nat (length (chan_buf ch))) (chan_cap ch));
    [|lia].
  destruct resp as [resp|], err as [e|]; [by eexists| |by eexists|done].
  destruct (RespBody resp); [by eexists|done].
Qed.

Lemma update_behaves req :
  behaves (updateCollaboratorToBlobber NewCollaboratorRequest
             FormDataContentType Client_Do req)
          (update_act NewCollaboratorRequest FormDataContentType Client_Do req).
Proof.
  intros blobber i ch Hroom.
  unfold updateCollaboratorToBlobber, update_act, act_of, fields, HttpDo.
  destruct (NewCollaboratorRequest _ _ _) as [httpreq|e]; [|done].
  destruct (Client_Do _) as [resp err].
  pose proof (report_act resp err ch Hroom) as Hrep.
  destruct (report resp err ch) as [[e ch']| |]; [| |done].
  - by destruct Hrep as (v & -> & ->).
  - by rewrite Hrep.
Qed.

Lemma remove_behaves req :
  behaves (removeCollaboratorFromBlobber DeleteCollaboratorRequest
             Client_Do req)
          (remove_act DeleteCollaboratorRequest Client_Do req).
Proof.
  intros blobber i ch Hroom.
  unfold removeCollaboratorFromBlobber, remove_act, act_of, fields, HttpDo.
  destruct (DeleteCollaboratorRequest _ _ _) as [httpreq|e]; [|done].
  destruct (Client_Do _) as [resp err].
  pose proof (report_act resp err ch Hroom) as Hrep.
  destruct (report resp err ch) as [[e ch']| |]; [| |done].
  - by destruct Hrep as (v & -> & ->).
  - by rewrite Hrep.
Qed.

Lemma run_workers_acts worker act :
  behaves worker act →
  ∀ sched (ch : Chan bool),
    Z.of_nat (length (chan_buf ch) + length sched) ≤ chan_cap ch →
    run_workers worker sched ch
    = if decide (Dies ∈ (λ j, act j.2) <$> sched) then Panics
      else Returns (mkChan (chan_buf ch
                            ++ omap said ((λ j, act j.2) <$> sched))
                           (chan_cap ch)).
Proof.
  intros Hb. induction sched as [|[i blobber] sched IH]; intros ch Hcap.
  - destruct (decide (Dies ∈ _)) as [Hd|Hd]; [by apply elem_of_nil in Hd|].
    simpl. rewrite app_nil_r. by destruct ch.
  - rewrite fmap_cons.
    change (run_workers worker ((i, blobber) :: sched) ch)
      with (match worker blobber i ch with
            | Returns ch => run_workers worker sched ch
            | Panics => Panics
            | Hangs => Hangs
            end).
    simpl length in Hcap. rewrite Hb by lia.
    change ((i, blobber).2) with blobber.
    destruct (act blobber) as [|v|] eqn:Hact.
    + rewrite IH by lia. csimpl.
      destruct (decide (Dies ∈ _)) as [Hd|Hd].
      * rewrite decide_True; [done|by right].
      * rewrite decide_False; [done|].
        intros Hin. apply elem_of_cons in Hin as [|]; done.
    + rewrite IH by (simpl; rewrite length_app; simpl; lia). csimpl.
      destruct (decide (Dies ∈ _)) as [Hd|Hd].
      * rewrite decide_True; [done|by right].
      * rewrite decide_False.
        -- by rewrite <- app_assoc.
        -- intros Hin. apply elem_of_cons in Hin as [|]; done.
    + rewrite decide_True; [done|by left].
Qed.

Lemma said_short (acts : list Act) :
  Silent ∈ acts → (length (omap said acts) < length acts)%nat.
Proof.
  induction acts as [|x acts IH]; intros Hin; [by apply elem_of_nil in Hin|].
  assert (length (omap said acts) ≤ length acts)%nat as Hle.
  { clear. induction acts as [|[] acts IH]; csimpl; lia. }
  apply elem_of_cons in Hin as [<-|Hin]; csimpl; [lia|].
  apply IH in Hin. destruct x; csimpl; lia.
Qed.

Lemma said_all (acts : list Act) :
  Dies ∉ acts → Silent ∉ acts → length (omap said acts) = length acts.
Proof.
  induction acts as [|x acts IH]; intros Hd Hs; [done|].
  apply not_elem_of_cons in Hd as [Hd1 Hd2].
  apply not_elem_of_cons in Hs as [Hs1 Hs2].
  destruct x; csimpl; [done| |done]. by rewrite IH.
Qed.

(** Both operations end as [decided] says. *)
Lemma fan_out_acts worker act req sched :
  behaves worker act →
  length sched = length (Blobbers (a req)) →
  fan_out worker req sched = decided req ((λ j, act j.2) <$> sched).
Proof.
  intros Hb Hlen. unfold fan_out, decided.
  rewrite (run_workers_acts worker act Hb) by (simpl; lia).
  destruct (decide (Dies ∈ _)) as [Hd|Hd]; [done|]. simpl.
  destruct (decide (Silent ∈ _)) as [Hs|Hs].
  - rewrite collect_short; [done|]. simpl.
    apply said_short in Hs. rewrite length_fmap in Hs. lia.
  - pose proof (said_all _ Hd Hs) as Hall. rewrite length_fmap in Hall.
    rewrite <- Hlen, <- Hall. by rewrite collect_votes.
Qed.

Lemma decided_Permutation req acts1 acts2 :
  acts1 ≡ₚ acts2 → decided req acts1 = decided req acts2.
Proof.
  intros Hp. unfold decided, accepted.
  destruct (decide (Dies ∈ acts1)) as [Hd|Hd].
  - rewrite decide_True; [done|by rewrite <- Hp].
  - rewrite (decide_False (P := Dies ∈ acts2)) by by rewrite <- Hp.
    destruct (decide (Silent ∈ acts1)) as [Hs|Hs].
    + rewrite decide_True; [done|by rewrite <- Hp].
    + rewrite (decide_False (P := Silent ∈ acts2)) by by rewrite <- Hp.
      by rewrite Hp.
Qed.

Lemma jobs_length req sched :
  sched ≡ₚ jobs req → length sched = length (Blobbers (a req)).
Proof. intros ->. apply length_jobs. Qed.

(** X11.  The outcome of an update, and of a removal, does not depend on
    the order in which the scheduler lets the workers run: two schedules
    of the same workers end in the same way, with the same decision and
    the same count. *)
Theorem outcome_does_not_depend_on_the_schedule req sched1 sched2 :
  sched1 ≡ₚ jobs req →
  sched2 ≡ₚ jobs req →
  UpdateCollaboratorToBlobbers NewCollaboratorRequest FormDataContentType
                               Client_Do req sched1
  = UpdateCollaboratorToBlobbers NewCollaboratorRequest FormDataContentType
                                 Client_Do req sched2
  ∧ RemoveCollaboratorFromBlobbers DeleteCollaboratorRequest Client_Do
                                   req sched1
    = RemoveCollaboratorFromBlobbers DeleteCollaboratorRequest Client_Do
                                     req sched2.
Proof.
  intros H1 H2.
  pose proof (jobs_length _ _ H1) as Hl1.
  pose proof (jobs_length _ _ H2) as Hl2.
  assert (sched1 ≡ₚ sched2) as Hp by by rewrite H1, H2.
  split.
  - change (fan_out (updateCollaboratorToBlobber NewCollaboratorRequest
                       FormDataContentType Client_Do req) req sched1
            = fan_out (updateCollaboratorToBlobber NewCollaboratorRequest
                         FormDataContentType Client_Do req) req sched2).
    rewrite !(fan_out_acts _ _ _ _ (update_behaves req)) by done.
    apply decided_Permutation. by rewrite Hp.
  - change (fan_out (removeCollaboratorFromBlobber DeleteCollaboratorRequest
                       Client_Do req) req sched1
            = fan_out (removeCollaboratorFromBlobber DeleteCollaboratorRequest
                         Client_Do req) req sched2).
    rewrite !(fan_out_acts _ _ _ _ (remove_behaves req)) by done.
    apply decided_Permutation. by rewrite Hp.
Qed.

Lemma elem_of_acts (build : StorageNode → http.Request + error) answer
      (sched : list (nat * StorageNode)) :
  (Dies ∈ (λ j, act_of (build j.2) answer) <$> sched
   ↔ ∃ j httpreq, j ∈ sched ∧ build j.2 = inl httpreq
                  ∧ vote (answer httpreq) = None)
  ∧ (Silent ∈ (λ j, act_of (build j.2) answer) <$> sched
     ↔ ∃ j e, j ∈ sched ∧ build j.2 = inr e).
Proof.
  split; rewrite list_elem_of_fmap; unfold act_of.
  - split.
    + intros (j & Hact & Hj). destruct (build j.2) as [httpreq|e] eqn:Hb; [|done].
      exists j, httpreq. split_and!; [done|done|].
      by destruct (vote (answer httpreq)).
    + intros (j & httpreq & Hj & Hb & Hv). exists j. by rewrite Hb, Hv.
  - split.
    + intros (j & Hact & Hj). destruct (build j.2) as [httpreq|e] eqn:Hb.
      * by destruct (vote (answer httpreq)).
      * by exists j, e.
    + intros (j & e & Hj & Hb). exists j. by rewrite Hb.
Qed.

Lemma fan_out_ends (build : StorageNode → http.Request + error) answer
      worker req sched :
  behaves worker (λ blobber, act_of (build blobber) answer) →
  sched ≡ₚ jobs req →
  (fan_out worker req sched = Panics
   ↔ ∃ j httpreq, j ∈ sched ∧ build j.2 = inl httpreq
                  ∧ vote (answer httpreq) = None)
  ∧ (fan_out worker req sched = Hangs
     ↔ fan_out worker req sched ≠ Panics
       ∧ ∃ j e, j ∈ sched ∧ build j.2 = inr e).
Proof.
  intros Hb Hp. rewrite (fan_out_acts _ _ _ _ Hb) by by apply jobs_length.
  destruct (elem_of_acts build answer sched) as [<- <-].
  unfold decided.
  destruct (decide (Dies ∈ _)) as [Hd|Hd].
  - split; [done|]. split; [done|]. by intros [? _].
  - destruct (decide (Silent ∈ _)) as [Hs|Hs].
    + split; [done|]. done.
    + split; [done|]. split; [done|]. by intros [_ ?].
Qed.

(** X12.  How an update and a removal fail to return.  The operation
    panics exactly when some replica answers against the contract of the
    client: no error, and no response or a response without a body.
    Otherwise it blocks for ever exactly when the request of some replica
    cannot be built: that worker returns without a word on [rspCh], and
    the loop that collects the answers waits for it. *)
Theorem operations_panic_or_block req sched :
  sched ≡ₚ jobs req →
  let update :=
    UpdateCollaboratorToBlobbers NewCollaboratorRequest FormDataContentType
                                 Client_Do req sched in
  let remove :=
    RemoveCollaboratorFromBlobbers DeleteCollaboratorRequest Client_Do
                                   req sched in
  (update = Panics
   ↔ ∃ j httpreq,
       j ∈ sched
       ∧ NewCollaboratorRequest (Baseurl j.2) (Tx (a req)) (fields req)
         = inl httpreq
       ∧ vote (Client_Do (Header_Set httpreq "Content-Type"
                                     FormDataContentType)) = None)
  ∧ (update = Hangs
     ↔ update ≠ Panics
       ∧ ∃ j e,
           j ∈ sched
           ∧ NewCollaboratorRequest (Baseurl j.2) (Tx (a req)) (fields req)
             = inr e)
  ∧ (remove = Panics
     ↔ ∃ j httpreq,
         j ∈ sched
         ∧ DeleteCollaboratorRequest (Baseurl j.2) (Tx (a req)) (fields req)
           = inl httpreq
         ∧ vote (Client_Do httpreq) = None)
  ∧ (remove = Hangs
     ↔ remove ≠ Panics
       ∧ ∃ j e,
           j ∈ sched
           ∧ DeleteCollaboratorRequest (Baseurl j.2) (Tx (a req)) (fields req)
             = inr e).
Proof.
  intros Hp update remove.
  destruct (fan_out_ends
              (λ blobber,
                 NewCollaboratorRequest (Baseurl blobber) (Tx (a req))
                                        (fields req))
              (λ httpreq,
                 Client_Do (Header_Set httpreq "Content-Type"
                                       FormDataContentType))
              _ req sched (update_behaves req) Hp) as [Hu1 Hu2].
  destruct (fan_out_ends
              (λ blobber,
                 DeleteCollaboratorRequest (Baseurl blobber) (Tx (a req))
                                           (fields req))
              Client_Do _ req sched (remove_behaves req) Hp) as [Hr1 Hr2].
  by split_and!.
Qed.

(** X13.  A removal decides like an update.  When the request to every
    replica can be built and is answered within the contract of the
    client, [RemoveCollaboratorFromBlobbers] returns whether the count the
    request came with plus the number of replicas that answered 200
    reaches the threshold, and leaves that sum in the request; an error
    of the transport or of the deadline counts as a refusal. *)
Theorem RemoveCollaboratorFromBlobbers_decides_by_quorum req sched votes :
  sched ≡ₚ jobs req →
  Forall2 (λ j v, remove_reports DeleteCollaboratorRequest Client_Do req j.2 v)
          sched votes →
  RemoveCollaboratorFromBlobbers DeleteCollaboratorRequest Client_Do req sched
  = Returns
      (bool_decide (requiredThreshold (consensus req)
                    ≤ achievedCount (consensus req) + accepted votes),
       set_consensus req
         (mkConsensus (achievedCount (consensus req) + accepted votes)
                      (requiredThreshold (consensus req))))
  ∧ 0 ≤ accepted votes ≤ Z.of_nat (length (Blobbers (a req))).
Proof.
  intros Hp Hvotes. split.
  - change (RemoveCollaboratorFromBlobbers DeleteCollaboratorRequest Client_Do
              req sched)
      with (fan_out (removeCollaboratorFromBlobber DeleteCollaboratorRequest
                       Client_Do req) req sched).
    rewrite (fan_out_votes _
               (remove_reports DeleteCollaboratorRequest Client_Do req)
               req sched votes); [|by apply remove_worker_reports|done|done].
    by rewrite isConsensusOk_decide.
  - rewrite <- (jobs_length req sched Hp), (Forall2_length _ _ _ Hvotes).
    apply accepted_bounds.
Qed.

(** X14.  The count is never reset.  An update run on the request that an
    earlier update has returned starts from the count of that one: its
    decision is taken on the acceptances of both rounds together. *)
Theorem a_second_update_adds_to_the_count req sched1 sched2 votes1 votes2 :
  sched1 ≡ₚ jobs req →
  sched2 ≡ₚ jobs req →
  Forall2 (λ j v, update_reports NewCollaboratorRequest FormDataContentType
                                 Client_Do req j.2 v) sched1 votes1 →
  Forall2 (λ j v, update_reports NewCollaboratorRequest FormDataContentType
                                 Client_Do req j.2 v) sched2 votes2 →
  ∃ ok1 req1 req2,
    UpdateCollaboratorToBlobbers NewCollaboratorRequest FormDataContentType
                                 Client_Do req sched1
    = Returns (ok1, req1)
    ∧ UpdateCollaboratorToBlobbers NewCollaboratorRequest FormDataContentType
                                   Client_Do req1 sched2
      = Returns
          (bool_decide (requiredThreshold (consensus req)
                        ≤ achievedCount (consensus req)
                          + accepted votes1 + accepted votes2),
           req2)
    ∧ achievedCount (consensus req2)
      = achievedCount (consensus req) + accepted votes1 + accepted votes2.
Proof.
  intros Hp1 Hp2 Hv1 Hv2.
  set (c1 := mkConsensus (achievedCount (consensus req) + accepted votes1)
                         (requiredThreshold (consensus req))).
  set (c2 := mkConsensus (achievedCount c1 + accepted votes2)
                         (requiredThreshold c1)).
  exists (isConsensusOk c1), (set_consensus req c1),
         (set_consensus (set_consensus req c1) c2).
  split_and!; [| |done].
  - change (UpdateCollaboratorToBlobbers NewCollaboratorRequest
              FormDataContentType Client_Do req sched1)
      with (fan_out (updateCollaboratorToBlobber NewCollaboratorRequest
                       FormDataContentType Client_Do req) req sched1).
    by rewrite (fan_out_votes _
                  (update_reports NewCollaboratorRequest FormDataContentType
                                  Client_Do req)
                  req sched1 votes1);
      [|apply update_worker_reports|done|done].
  - change (UpdateCollaboratorToBlobbers NewCollaboratorRequest
              FormDataContentType Client_Do (set_consensus req c1) sched2)
      with (fan_out (updateCollaboratorToBlobber NewCollaboratorRequest
                       FormDataContentType Client_Do (set_consensus req c1))
                    (set_consensus req c1) sched2).
    rewrite (fan_out_votes _
               (update_reports NewCollaboratorRequest FormDataContentType
                               Client_Do (set_consensus req c1))
               (set_consensus req c1) sched2 votes2);
      [|by apply update_worker_reports|done|done].
    by rewrite isConsensusOk_decide.
Qed.

End ReplicaFacts.

Lemma outcome_does_not_depend_on_the_schedule_witness :
  UpdateCollaboratorToBlobbers build "multipart/form-data"
    (answers [("http://blobber-1", 200); ("http://blobber-3", 200)])
    (update_request five 2) (jobs (update_request five 2))
  = UpdateCollaboratorToBlobbers build "multipart/form-data"
      (answers [("http://blobber-1", 200); ("http://blobber-3", 200)])
      (update_request five 2) (reverse (jobs (update_request five 2))).
Proof.
  apply (outcome_does_not_depend_on_the_schedule build build
           "multipart/form-data"
           (answers [("http://blobber-1", 200); ("http://blobber-3", 200)])
           (update_request five 2)).
  - reflexivity.
  - apply reverse_Permutation.
Defined.

(** Three replicas.  The second answers 200 without a body: the update
    panics.  The second has no base URL: the removal blocks. *)
Lemma operations_panic_or_block_witness :
  UpdateCollaboratorToBlobbers build "multipart/form-data" (bodiless 200)
    (update_request (take 3 five) 1) (jobs (update_request (take 3 five) 1))
  = Panics
  ∧ RemoveCollaboratorFromBlobbers build
      (answers [("http://blobber-1", 200); ("http://blobber-3", 200)])
      (update_request
         [mkStorageNode "b1" "http://blobber-1"; mkStorageNode "b2" "";
          mkStorageNode "b3" "http://blobber-3"] 1)
      (jobs (update_request
               [mkStorageNode "b1" "http://blobber-1"; mkStorageNode "b2" "";
                mkStorageNode "b3" "http://blobber-3"] 1))
    = Hangs.
Proof.
  split.
  - apply (operations_panic_or_block build build "multipart/form-data"
             (bodiless 200) (update_request (take 3 five) 1)
             (jobs (update_request (take 3 five) 1)) ltac:(reflexivity)).
    exists (1%nat, mkStorageNode "b2" "http://blobber-2"),
           (new_request MethodPost "http://blobber-2" None []).
    split_and!; [|reflexivity|reflexivity].
    apply list_elem_of_lookup. by exists 1%nat.
  - apply (operations_panic_or_block build build "multipart/form-data"
             (answers [("http://blobber-1", 200); ("http://blobber-3", 200)])
             (update_request
                [mkStorageNode "b1" "http://blobber-1"; mkStorageNode "b2" "";
                 mkStorageNode "b3" "http://blobber-3"] 1)
             _ ltac:(reflexivity)).
    split.
    + intros Hpanics. vm_compute in Hpanics. discriminate Hpanics.
    + exists (1%nat, mkStorageNode "b2" ""), "parse : empty url"%string.
      split; [|reflexivity].
      apply list_elem_of_lookup. by exists 1%nat.
Defined.

(** Five replicas, threshold 3; replicas 1, 3 and 4 answer 200 to the
    removal, replica 2 answers 500 and replica 5 not at all. *)
Lemma RemoveCollaboratorFromBlobbers_decides_by_quorum_witness :
  ∃ req',
    RemoveCollaboratorFromBlobbers build
      (answers [("http://blobber-1", 200); ("http://blobber-2", 500);
                ("http://blobber-3", 200); ("http://blobber-4", 200)])
      (update_request five 3) (jobs (update_request five 3))
    = Returns (true, req').
Proof.
  destruct (RemoveCollaboratorFromBlobbers_decides_by_quorum build
              (answers [("http://blobber-1", 200); ("http://blobber-2", 500);
                        ("http://blobber-3", 200); ("http://blobber-4", 200)])
              (update_request five 3) (jobs (update_request five 3))
              [true; false; true; true; false]) as [Hrun _].
  - reflexivity.
  - repeat constructor; eexists; (split; [reflexivity|vm_compute; reflexivity]).
  - eexists. exact Hrun.
Defined.

(** Five replicas, threshold 3, two of which accept: the first update is
    refused, and the same update run again on the request it returned is
    granted, on a count of 4. *)
Lemma a_second_update_adds_to_the_count_witness :
  ∃ req1 req2,
    UpdateCollaboratorToBlobbers build "multipart/form-data"
      (answers [("http://blobber-1", 200); ("http://blobber-2", 500);
                ("http://blobber-3", 200)])
      (update_request five 3) (jobs (update_request five 3))
    = Returns (false, req1)
    ∧ UpdateCollaboratorToBlobbers build "multipart/form-data"
        (answers [("http://blobber-1", 200); ("http://blobber-2", 500);
                  ("http://blobber-3", 200)])
        req1 (jobs (update_request five 3))
      = Returns (true, req2)
    ∧ achievedCount (consensus req2) = 4.
Proof.
  destruct (a_second_update_adds_to_the_count build "multipart/form-data"
              (answers [("http://blobber-1", 200); ("http://blobber-2", 500);
                        ("http://blobber-3", 200)])
              (update_request five 3)
              (jobs (update_request five 3)) (jobs (update_request five 3))
              [true; false; true; false; false]
              [true; false; true; false; false])
    as (ok1 & req1 & req2 & Hrun1 & Hrun2 & Hcount).
  - reflexivity.
  - reflexivity.
  - repeat constructor; eexists; (split; [reflexivity|vm_compute; reflexivity]).
  - repeat constructor; eexists; (split; [reflexivity|vm_compute; reflexivity]).
  - rewrite bool_decide_eq_true_2 in Hrun2 by (by vm_compute).
    exists req1, req2. split_and!; [|exact Hrun2|exact Hcount].
    assert (ok1 = false) as Hok.
    { pose proof Hrun1 as Hrun. vm_compute in Hrun. by injection Hrun as <- _. }
    rewrite Hok in Hrun1. exact Hrun1.
Defined.

End sdk_extra.

Module authorizers_proofs.

Import authorizers authorizers_facts.

Section IteratorFacts.

Variable UnpackLog :
  string → types.Log → common.Address * common.Address * option error.

Lemma received_ok (it : AuthorizersOwnershipTransferredIterator) log rest :
  unpacks UnpackLog (event it) log →
  received UnpackLog it log rest
  = (true,
     mkAuthorizersOwnershipTransferredIterator
       (Some (event_of UnpackLog (event it) log)) (event it) rest (sub it)
       (done it) (fail it)).
Proof.
  unfold unpacks, received, event_of.
  destruct (UnpackLog (event it) log) as [[previousOwner newOwner] err].
  simpl. by intros ->.
Qed.

Lemma received_failed (it : AuthorizersOwnershipTransferredIterator) log rest e :
  (UnpackLog (event it) log).2 = Some e →
  ∃ ev,
    received UnpackLog it log rest
    = (false,
       mkAuthorizersOwnershipTransferredIterator
         (Some ev) (event it) rest (sub it) (done it) (Some e)).
Proof.
  unfold received.
  destruct (UnpackLog (event it) log) as [[previousOwner newOwner] err].
  simpl. intros ->. by eexists.
Qed.

Lemma received_cases (it : AuthorizersOwnershipTransferredIterator) log rest :
  match received UnpackLog it log rest with
  | (true, it') =>
      unpacks UnpackLog (event it) log
      ∧ it' = mkAuthorizersOwnershipTransferredIterator
                (Some (event_of UnpackLog (event it) log)) (event it) rest
                (sub it) (done it) (fail it)
  | (false, it') =>
      is_Some (fail it') ∧ done it' = done it ∧ logs it' = rest
  end.
Proof.
  unfold unpacks, received, event_of.
  destruct (UnpackLog (event it) log) as [[previousOwner newOwner] [e|]];
    simpl; [|done].
  split_and!; [by eexists|done|done].
Qed.

(** An iterator on which [Next] has nothing more to do. *)
Lemma Next_stopped takes_err (it : AuthorizersOwnershipTransferredIterator) :
  is_Some (fail it) ∨ (done it = true ∧ logs it = []) →
  Next UnpackLog takes_err it = Returns (false, it).
Proof.
  unfold Next, Next_completed. intros [[e ->]|[-> ->]]; [done|].
  by destruct (fail it).
Qed.

Lemma Next_completed_false (it it' : AuthorizersOwnershipTransferredIterator) :
  done it = true →
  Next_completed UnpackLog it = (false, it') →
  is_Some (fail it') ∨ (done it' = true ∧ logs it' = []).
Proof.
  intros Hdone. unfold Next_completed.
  destruct (fail it) as [e|] eqn:Hfail.
  - intros [= <-]. left. by rewrite Hfail.
  - destruct (logs it) as [|log rest] eqn:Hlogs.
    + intros [= <-]. by right.
    + pose proof (received_cases it log rest) as Hrec. intros Heq.
      rewrite Heq in Hrec. left. apply Hrec.
Qed.

(** X15.  Once [Next] has returned false it returns false for ever, and
    leaves the iterator alone: a failure is never cleared, no log is
    consumed after it, and a retrieval that is complete stays
    complete. *)
Theorem Next_false_is_final takes_err
        (it it' : AuthorizersOwnershipTransferredIterator) :
  Next UnpackLog takes_err it = Returns (false, it') →
  ∀ takes_err', Next UnpackLog takes_err' it' = Returns (false, it').
Proof.
  intros Hnext takes_err'. apply Next_stopped. revert Hnext. unfold Next.
  destruct (fail it) as [e|] eqn:Hfail.
  { intros [= <-]. left. by rewrite Hfail. }
  destruct (done it) eqn:Hdone.
  { intros [= Hc]. by apply Next_completed_false in Hc. }
  assert (∀ log rest,
            received UnpackLog it log rest = (false, it') →
            is_Some (fail it') ∨ (done it' = true ∧ logs it' = [])) as Hrec.
  { intros log rest Heq. pose proof (received_cases it log rest) as Hc.
    rewrite Heq in Hc. left. apply Hc. }
  destruct (logs it) as [|log rest], (sub it) as [err|]; [|done| |].
  - intros [= Hc]. by apply Next_completed_false in Hc.
  - destruct takes_err; intros [= Hc]; [|by eapply Hrec].
    by apply Next_completed_false in Hc.
  - intros [= Hc]. by eapply Hrec.
Qed.

(** The loop on an iterator whose retrieval is complete. *)
Lemma iterate_completed takes_err (logs0 : list types.Log) :
  ∀ fuel k (it : AuthorizersOwnershipTransferredIterator),
    logs it = logs0 →
    fail it = None →
    done it = true →
    Forall (unpacks UnpackLog (event it)) logs0 →
    (length logs0 < fuel)%nat →
    ∃ it',
      iterate UnpackLog fuel takes_err k it
      = Returns (event_of UnpackLog (event it) <$> logs0, it')
      ∧ fail it' = None ∧ logs it' = [] ∧ done it' = true.
Proof.
  induction logs0 as [|log rest IH]; intros fuel k it Hlogs Hfail Hdone Hok Hfuel;
    (destruct fuel as [|fuel]; [simpl in Hfuel; lia|]); simpl.
  - rewrite Next_stopped by (right; done). by exists it.
  - unfold Next, Next_completed. rewrite Hfail, Hdone, Hlogs.
    apply Forall_cons_1 in Hok as [Hlog Hok]. rewrite received_ok by done.
    destruct (IH fuel (S k)
                (mkAuthorizersOwnershipTransferredIterator
                   (Some (event_of UnpackLog (event it) log)) (event it) rest
                   (sub it) (done it) (fail it)))
      as (it' & -> & Hrest); [done|done|done|done|simpl in Hfuel; lia|].
    by exists it'.
Qed.

(** The loop on an iterator whose subscription is about to end without
    error. *)
Lemma iterate_in_progress takes_err name (logs0 : list types.Log) :
  Forall (unpacks UnpackLog name) logs0 →
  ∀ fuel k ev,
    (length logs0 < fuel)%nat →
    ∃ it',
      iterate UnpackLog fuel takes_err k
              (mkAuthorizersOwnershipTransferredIterator
                 ev name logs0 (Some None) false None)
      = Returns (event_of UnpackLog name <$> logs0, it')
      ∧ fail it' = None ∧ logs it' = [] ∧ done it' = true.
Proof.
  induction 1 as [|log rest Hlog Hok IH]; intros fuel k ev Hfuel;
    (destruct fuel as [|fuel]; [simpl in Hfuel; lia|]).
  - by eexists.
  - cbn [iterate]. unfold Next. cbn [fail done logs sub Event event].
    destruct (takes_err k).
    + unfold Next_completed. cbn [fail done logs sub Event event].
      rewrite received_ok by done. cbn [fail done logs sub Event event].
      destruct (iterate_completed takes_err rest fuel (S k)
                  (mkAuthorizersOwnershipTransferredIterator
                     (Some (event_of UnpackLog name log)) name rest
                     (Some None) true None))
        as (it' & -> & Hrest); [done|done|done|done|simpl in Hfuel; lia|].
      by exists it'.
    + rewrite received_ok by done. cbn [fail done logs sub Event event].
      destruct (IH fuel (S k) (Some (event_of UnpackLog name log)))
        as (it' & -> & Hrest); [simpl in Hfuel; lia|].
      by exists it'.
Qed.

(** X16.  A retrieval that ends without error delivers every log.  On an
    iterator whose subscription ends by closing its error channel, with
    logs that all unpack, the loop [for it.Next()] sees the events of all
    the logs still in the channel, in order and each with its log as
    [Raw], whenever the select notices the end of the subscription; then
    [Next] returns false and [Error] returns nil. *)
Theorem iteration_delivers_every_log takes_err fuel k
        (it : AuthorizersOwnershipTransferredIterator) :
  fail it = None →
  done it = true ∨ sub it = Some None →
  Forall (unpacks UnpackLog (event it)) (logs it) →
  (length (logs it) < fuel)%nat →
  ∃ it',
    iterate UnpackLog fuel takes_err k it
    = Returns (event_of UnpackLog (event it) <$> logs it, it')
    ∧ Error it' = None ∧ logs it' = [] ∧ done it' = true.
Proof.
  intros Hfail Hend Hok Hfuel.
  destruct (done it) eqn:Hdone; [by apply iterate_completed|].
  destruct Hend as [?|Hsub]; [done|].
  destruct it as [ev name logs0 sb dn fl]. simpl in *. subst sb dn fl.
  by apply iterate_in_progress.
Qed.

(** X17.  A log that does not unpack ends the iteration.  The loop sees
    the events of the logs before it; then [Next] returns false, [Error]
    returns the error of [UnpackLog], and the logs behind the bad one stay
    in the channel, never to be delivered. *)
Theorem iteration_stops_at_a_bad_log takes_err fuel k
        (it : AuthorizersOwnershipTransferredIterator) good bad rest e :
  fail it = None →
  done it = true ∨ (∀ e', sub it ≠ Some (Some e')) →
  logs it = good ++ bad :: rest →
  Forall (unpacks UnpackLog (event it)) good →
  (UnpackLog (event it) bad).2 = Some e →
  (length good < fuel)%nat →
  ∃ it',
    iterate UnpackLog fuel takes_err k it
    = Returns (event_of UnpackLog (event it) <$> good, it')
    ∧ Error it' = Some e ∧ logs it' = rest.
Proof.
  intros Hfail Hsub Hlogs Hok Hbad Hfuel.
  destruct it as [ev name logs0 sb dn fl]. simpl in *. subst fl logs0.
  revert fuel k ev dn Hsub Hfuel.
  induction good as [|log good IH]; intros fuel k ev dn Hsub Hfuel;
    (destruct fuel as [|fuel]; [simpl in Hfuel; lia|]);
    cbn [iterate]; unfold Next, Next_completed;
    cbn [fail done logs sub Event event app].
  - assert (∀ dn',
              ∃ it',
                match received UnpackLog
                        (mkAuthorizersOwnershipTransferredIterator
                           ev name (bad :: rest) sb dn' None) bad rest with
                | (true, it) =>
                    match iterate UnpackLog fuel takes_err (S k) it with
                    | Returns (evs, it') =>
                        Returns (option_list (Event it) ++ evs, it')
                    | Panics => Panics
                    | Hangs => Hangs
                    end
                | (false, it) => Returns ([], it)
                end = Returns ([], it')
                ∧ Error it' = Some e ∧ logs it' = rest) as Hrec.
    { intros dn'.
      destruct (received_failed
                  (mkAuthorizersOwnershipTransferredIterator
                     ev name (bad :: rest) sb dn' None) bad rest e Hbad)
        as [ev' ->].
      by eexists. }
    destruct dn; [apply Hrec|].
    destruct Hsub as [?|Hsub]; [done|].
    destruct sb as [[e'|]|]; [by destruct (Hsub e')| |apply Hrec].
    destruct (takes_err k); apply Hrec.
  - apply Forall_cons_1 in Hok as [Hlog Hok].
    assert (∀ dn',
              dn' = true ∨ (∀ e', sb ≠ Some (Some e')) →
              ∃ it',
                match received UnpackLog
                        (mkAuthorizersOwnershipTransferredIterator
                           ev name (log :: good ++ bad :: rest) sb dn' None)
                        log (good ++ bad :: rest) with
                | (true, it) =>
                    match iterate UnpackLog fuel takes_err (S k) it with
                    | Returns (evs, it') =>
                        Returns (option_list (Event it) ++ evs, it')
                    | Panics => Panics
                    | Hangs => Hangs
                    end
                | (false, it) => Returns ([], it)
                end
                = Returns (event_of UnpackLog name log
                           :: (event_of UnpackLog name <$> good), it')
                ∧ Error it' = Some e ∧ logs it' = rest) as Hrec.
    { intros dn' Hsub'. rewrite received_ok by done.
      cbn [fail done logs sub Event event].
      destruct (IH Hok fuel (S k) (Some (event_of UnpackLog name log)) dn')
        as (it' & -> & Hrest); [done|simpl in Hfuel; lia|].
      by exists it'. }
    destruct dn; [apply Hrec; by left|].
    destruct Hsub as [?|Hsub]; [done|].
    destruct sb as [[e'|]|]; [by destruct (Hsub e')| |apply Hrec; by right].
    destruct (takes_err k); apply Hrec; [by left|by right].
Qed.

(** X18.  A subscription that ends with an error cuts the iteration short.
    The loop sees the events of the first [n] logs, where call number [n]
    is the first whose select takes the error although a log is ready;
    the logs behind stay in the channel and [Error] returns the error of
    the subscription.  When the very first select takes it, nothing is
    delivered at all. *)
Theorem failed_subscription_cuts_the_iteration takes_err fuel k
        (it : AuthorizersOwnershipTransferredIterator) e :
  fail it = None →
  done it = false →
  sub it = Some (Some e) →
  Forall (unpacks UnpackLog (event it)) (logs it) →
  (length (logs it) < fuel)%nat →
  ∃ n it',
    (n ≤ length (logs it))%nat
    ∧ (∀ j, (j < n)%nat → takes_err (k + j)%nat = false)
    ∧ ((n < length (logs it))%nat → takes_err (k + n)%nat = true)
    ∧ iterate UnpackLog fuel takes_err k it
      = Returns (event_of UnpackLog (event it) <$> take n (logs it), it')
    ∧ Error it' = Some e
    ∧ logs it' = drop n (logs it).
Proof.
  intros Hfail Hdone Hsub Hok Hfuel.
  destruct it as [ev name logs0 sb dn fl]. simpl in *. subst fl dn sb.
  revert fuel k ev Hfuel.
  induction logs0 as [|log rest IH]; intros fuel k ev Hfuel;
    (destruct fuel as [|fuel]; [simpl in Hfuel; lia|]);
    cbn [iterate]; unfold Next, Next_completed;
    cbn [fail done logs sub Event event].
  - exists 0%nat. eexists. split_and!; [done|lia|simpl; lia|done|done|done].
  - apply Forall_cons_1 in Hok as [Hlog Hok].
    destruct (takes_err k) eqn:Hk.
    + exists 0%nat. eexists.
      split_and!; [lia|lia|by rewrite Nat.add_0_r|done|done|done].
    + rewrite received_ok by done. cbn [fail done logs sub Event event].
      destruct (IH Hok fuel (S k) (Some (event_of UnpackLog name log)))
        as (n & it' & Hn & Hbefore & Hat & -> & Herr & Hleft);
        [simpl in Hfuel; lia|].
      exists (S n), it'. split_and!; [simpl; lia| | |done|done|done].
      * intros [|j] Hj; [by rewrite Nat.add_0_r|].
        rewrite Nat.add_succ_r. apply (Hbefore j). lia.
      * intros Hlt. rewrite Nat.add_succ_r. apply Hat. simpl in Hlt. lia.
Qed.

(** X19.  What [Next] delivers is what [ParseOwnershipTransferred] returns
    for the log.  When [Next] returns true on an iterator made for the
    event, it has taken the oldest log from the channel, that log unpacks,
    and [it.Event] is the event that [ParseOwnershipTransferred] builds
    from it, with the log itself as [Raw]; [Error] is still nil. *)
Theorem Next_delivers_the_parsed_log takes_err
        (it it' : AuthorizersOwnershipTransferredIterator) :
  Next UnpackLog takes_err it = Returns (true, it') →
  event it = "OwnershipTransferred"%string →
  ∃ log ev,
    logs it = log :: logs it'
    ∧ Event it' = Some ev
    ∧ ParseOwnershipTransferred UnpackLog log = (Some ev, None)
    ∧ Raw ev = log
    ∧ Error it' = None.
Proof.
  intros Hnext Hname.
  assert (∀ dn log rest,
            fail it = None →
            received UnpackLog
              (mkAuthorizersOwnershipTransferredIterator
                 (Event it) (event it) (logs it) (sub it) dn (fail it))
              log rest = (true, it') →
            ∃ ev,
              rest = logs it'
              ∧ Event it' = Some ev
              ∧ ParseOwnershipTransferred UnpackLog log = (Some ev, None)
              ∧ Raw ev = log
              ∧ Error it' = None) as Hrec.
  { intros dn log rest Hfail. unfold received, ParseOwnershipTransferred.
    cbn [event fail]. rewrite Hname, Hfail.
    destruct (UnpackLog "OwnershipTransferred" log)
      as [[previousOwner newOwner] [err|]]; [done|].
    intros [= <-]. by eexists. }
  revert Hnext. unfold Next, Next_completed.
  destruct (fail it) as [err|] eqn:Hfail; [done|].
  destruct it as [ev0 name logs0 sb dn fl]. simpl in *. subst fl name.
  destruct dn.
  - destruct logs0 as [|log rest]; [done|]. intros [= Heq].
    apply (Hrec true) in Heq as (ev & -> & Hev); [|done]. by exists log, ev.
  - destruct logs0 as [|log rest], sb as [err|]; [|done| |].
    + by destruct err.
    + destruct takes_err.
      * destruct err as [err|]; [done|]. intros [= Heq].
        apply (Hrec true) in Heq as (ev & -> & Hev); [|done].
        by exists log, ev.
      * intros [= Heq].
        apply (Hrec false) in Heq as (ev & -> & Hev); [|done].
        by exists log, ev.
    + intros [= Heq].
      apply (Hrec false) in Heq as (ev & -> & Hev); [|done].
      by exists log, ev.
Qed.

Variable FilterOpts : Type.
Variable FilterLogs :
  FilterOpts → string → list (list common.Address) →
  list types.Log * option (option error) + error.

Lemma rule_of_items (items rule : list common.Address) :
  foldl (λ rule item, rule ++ [item]) rule items = rule ++ items.
Proof.
  revert rule. induction items as [|item items IH]; intros rule; simpl.
  - by rewrite app_nil_r.
  - by rewrite IH, <- app_assoc.
Qed.

Lemma parsed_events (logs0 : list types.Log) :
  Forall (unpacks UnpackLog "OwnershipTransferred") logs0 →
  Forall2 (λ log ev, ParseOwnershipTransferred UnpackLog log = (Some ev, None))
          logs0 (event_of UnpackLog "OwnershipTransferred" <$> logs0).
Proof.
  induction 1 as [|log logs0 Hlog _ IH]; csimpl; constructor; [|done].
  unfold unpacks, event_of, ParseOwnershipTransferred in *.
  destruct (UnpackLog "OwnershipTransferred" log)
    as [[previousOwner newOwner] err].
  simpl in *. by subst err.
Qed.

(** X20.  [FilterOwnershipTransferred] hands the two address lists to
    [FilterLogs] as the two topic rules, unchanged and in this order, and
    returns its error as it is.  On the iterator it returns otherwise, for
    a retrieval that completes with logs that all unpack, the loop
    [for it.Next()] sees one event for each log found, in order, each the
    one [ParseOwnershipTransferred] returns for the log, and [Error] is
    nil at the end. *)
Theorem FilterOwnershipTransferred_delivers_what_is_found opts
        previousOwner newOwner :
  (∀ err,
     FilterLogs opts "OwnershipTransferred" [previousOwner; newOwner]
     = inr err →
     FilterOwnershipTransferred FilterOpts FilterLogs opts
                                previousOwner newOwner
     = inr err)
  ∧ (∀ logs0 takes_err,
       FilterLogs opts "OwnershipTransferred" [previousOwner; newOwner]
       = inl (logs0, Some None) →
       Forall (unpacks UnpackLog "OwnershipTransferred") logs0 →
       ∃ it evs it',
         FilterOwnershipTransferred FilterOpts FilterLogs opts
                                    previousOwner newOwner
         = inl it
         ∧ iterate UnpackLog (S (length logs0)) takes_err 0 it
           = Returns (evs, it')
         ∧ Forall2 (λ log ev,
                      ParseOwnershipTransferred UnpackLog log = (Some ev, None))
                   logs0 evs
         ∧ Error it' = None).
Proof.
  unfold FilterOwnershipTransferred. rewrite !rule_of_items. simpl.
  split; [by intros err ->|].
  intros logs0 takes_err -> Hok.
  destruct (iterate_in_progress takes_err "OwnershipTransferred" logs0 Hok
              (S (length logs0)) 0 None)
    as (it' & Hrun & Herr & _); [lia|].
  exists (fresh logs0 (Some None)),
         (event_of UnpackLog "OwnershipTransferred" <$> logs0), it'.
  split_and!; [done|exact Hrun|by apply parsed_events|done].
Qed.

Variable WatchOpts : Type.
Variable WatchLogs :
  WatchOpts → string → list (list common.Address) → option error.

Lemma forward_until_it_ends good :
  ∀ stop rest sink result,
    Forall (unpacks UnpackLog "OwnershipTransferred") good →
    ends UnpackLog stop = Some result →
    forward UnpackLog
            (((λ log, LogArrives log SinkTakes) <$> good) ++ stop :: rest) sink
    = Returns (result,
               sink ++ (event_of UnpackLog "OwnershipTransferred" <$> good)).
Proof.
  induction good as [|log good IH]; intros stop rest sink result Hok Hends.
  - rewrite app_nil_r. revert Hends. unfold ends. simpl.
    destruct stop as [log sending|err|]; [|by intros [= <-]..].
    destruct (UnpackLog "OwnershipTransferred" log)
      as [[previousOwner newOwner] [err|]]; simpl; [by intros [= <-]|].
    destruct sending; [done|by intros [= <-]..].
  - apply Forall_cons_1 in Hok as [Hlog Hok]. csimpl.
    unfold unpacks in Hlog. unfold event_of at 1.
    destruct (UnpackLog "OwnershipTransferred" log)
      as [[previousOwner newOwner] err].
    simpl in Hlog. subst err. simpl.
    rewrite (IH stop rest _ result Hok Hends). by rewrite <- app_assoc.
Qed.

Lemma forward_starved good :
  ∀ sink,
    Forall (unpacks UnpackLog "OwnershipTransferred") good →
    forward UnpackLog ((λ log, LogArrives log SinkTakes) <$> good) sink = Hangs.
Proof.
  induction good as [|log good IH]; intros sink Hok; [done|].
  apply Forall_cons_1 in Hok as [Hlog Hok]. csimpl.
  unfold unpacks in Hlog.
  destruct (UnpackLog "OwnershipTransferred" log)
    as [[previousOwner newOwner] err].
  simpl in *. subst err. by apply IH.
Qed.

(** X21.  [WatchOwnershipTransferred] returns the error of [WatchLogs] as
    it is.  Otherwise the function it subscribes puts on [sink] the event
    of every log that arrives, in order, each with its log as [Raw], until
    a select ends the loop: a log that does not unpack ends it with the
    error of [UnpackLog], the end of the upstream subscription with its
    error, an unsubscribe with nil; the event of a log whose send is
    interrupted is dropped.  With nothing to end it the loop waits. *)
Theorem WatchOwnershipTransferred_forwards_until_it_ends opts
        previousOwner newOwner :
  (∀ err,
     WatchLogs opts "OwnershipTransferred" [previousOwner; newOwner]
     = Some err →
     WatchOwnershipTransferred UnpackLog WatchOpts WatchLogs opts
                               previousOwner newOwner
     = inr err)
  ∧ (WatchLogs opts "OwnershipTransferred" [previousOwner; newOwner] = None →
     ∃ run,
       WatchOwnershipTransferred UnpackLog WatchOpts WatchLogs opts
                                 previousOwner newOwner
       = inl run
       ∧ ∀ good sink,
           Forall (unpacks UnpackLog "OwnershipTransferred") good →
           run ((λ log, LogArrives log SinkTakes) <$> good) sink = Hangs
           ∧ ∀ stop rest result,
               ends UnpackLog stop = Some result →
               run (((λ log, LogArrives log SinkTakes) <$> good)
                    ++ stop :: rest) sink
               = Returns
                   (result,
                    sink ++ (event_of UnpackLog "OwnershipTransferred"
                             <$> good))).
Proof.
  unfold WatchOwnershipTransferred. rewrite !rule_of_items. simpl.
  split; [by intros err ->|].
  intros ->. eexists. split; [done|].
  intros good sink Hok. split; [by apply forward_starved|].
  intros stop rest result Hends. by apply forward_until_it_ends.
Qed.

End IteratorFacts.

(** The subscription has failed and the select takes its error first:
    the log that is ready is never delivered. *)
Lemma Next_false_is_final_witness :
  Next unpack_topics false
       (mkAuthorizersOwnershipTransferredIterator
          None "OwnershipTransferred" [transfer "0x01" "0x02" 7]
          (Some (Some "connection reset"%string)) true
          (Some "connection reset"%string))
  = Returns
      (false,
       mkAuthorizersOwnershipTransferredIterator
         None "OwnershipTransferred" [transfer "0x01" "0x02" 7]
         (Some (Some "connection reset"%string)) true
         (Some "connection reset"%string)).
Proof.
  apply (Next_false_is_final unpack_topics true
           (fresh [transfer "0x01" "0x02" 7]
                  (Some (Some "connection reset"%string)))).
  reflexivity.
Defined.

Lemma iteration_delivers_every_log_witness :
  ∃ it',
    iterate unpack_topics 3 (λ k, Nat.eqb k 1) 0
            (fresh [transfer "0x01" "0x02" 7; transfer "0x02" "0x03" 9]
                   (Some None))
    = Returns
        ([mkAuthorizersOwnershipTransferred "0x01" "0x02"
            (transfer "0x01" "0x02" 7);
          mkAuthorizersOwnershipTransferred "0x02" "0x03"
            (transfer "0x02" "0x03" 9)],
         it')
    ∧ Error it' = None ∧ logs it' = [] ∧ done it' = true.
Proof.
  apply (iteration_delivers_every_log unpack_topics (λ k, Nat.eqb k 1) 3 0
           (fresh [transfer "0x01" "0x02" 7; transfer "0x02" "0x03" 9]
                  (Some None))).
  - reflexivity.
  - right. reflexivity.
  - repeat constructor.
  - simpl. lia.
Defined.

Lemma iteration_stops_at_a_bad_log_witness :
  ∃ it',
    iterate unpack_topics 2 (λ _, false) 0
            (fresh [transfer "0x01" "0x02" 7; types.zero;
                    transfer "0x02" "0x03" 9] None)
    = Returns
        ([mkAuthorizersOwnershipTransferred "0x01" "0x02"
            (transfer "0x01" "0x02" 7)],
         it')
    ∧ Error it' = Some "abi: topic/field count mismatch"%string
    ∧ logs it' = [transfer "0x02" "0x03" 9].
Proof.
  apply (iteration_stops_at_a_bad_log unpack_topics (λ _, false) 2 0
           (fresh [transfer "0x01" "0x02" 7; types.zero;
                   transfer "0x02" "0x03" 9] None)
           [transfer "0x01" "0x02" 7] types.zero [transfer "0x02" "0x03" 9]).
  - reflexivity.
  - right. intros e'. discriminate.
  - reflexivity.
  - repeat constructor.
  - reflexivity.
  - simpl. lia.
Defined.

(** Two logs are ready and the subscription has failed; the select of the
    second call takes the error: one event is delivered, one log is
    lost. *)
Lemma failed_subscription_cuts_the_iteration_witness :
  ∃ n it',
    (n ≤ 2)%nat
    ∧ (∀ j, (j < n)%nat → Nat.eqb (0 + j) 1 = false)
    ∧ ((n < 2)%nat → Nat.eqb (0 + n) 1 = true)
    ∧ iterate unpack_topics 3 (λ k, Nat.eqb k 1) 0
              (fresh [transfer "0x01" "0x02" 7; transfer "0x02" "0x03" 9]
                     (Some (Some "connection reset"%string)))
      = Returns
          (event_of unpack_topics "OwnershipTransferred"
           <$> take n [transfer "0x01" "0x02" 7; transfer "0x02" "0x03" 9],
           it')
    ∧ Error it' = Some "connection reset"%string
    ∧ logs it' = drop n [transfer "0x01" "0x02" 7; transfer "0x02" "0x03" 9].
Proof.
  apply (failed_subscription_cuts_the_iteration unpack_topics
           (λ k, Nat.eqb k 1) 3 0
           (fresh [transfer "0x01" "0x02" 7; transfer "0x02" "0x03" 9]
                  (Some (Some "connection reset"%string)))).
  - reflexivity.
  - reflexivity.
  - reflexivity.
  - repeat constructor.
  - simpl. lia.
Defined.

Lemma Next_delivers_the_parsed_log_witness :
  ∃ log ev,
    [transfer "0x01" "0x02" 7] = log :: []
    ∧ Some (mkAuthorizersOwnershipTransferred "0x01" "0x02"
              (transfer "0x01" "0x02" 7))
      = Some ev
    ∧ ParseOwnershipTransferred unpack_topics log = (Some ev, None)
    ∧ Raw ev = log
    ∧ @None error = None.
Proof.
  apply (Next_delivers_the_parsed_log unpack_topics false
           (fresh [transfer "0x01" "0x02" 7] None)
           (mkAuthorizersOwnershipTransferredIterator
              (Some (mkAuthorizersOwnershipTransferred "0x01" "0x02"
                       (transfer "0x01" "0x02" 7)))
              "OwnershipTransferred" [] None false None)).
  - reflexivity.
  - reflexivity.
Defined.

Lemma FilterOwnershipTransferred_delivers_what_is_found_witness :
  ∃ it evs it',
    FilterOwnershipTransferred unit
      (λ _ _ _, inl ([transfer "0x01" "0x02" 7], Some None))
      tt ["0x01"%string] []
    = inl it
    ∧ iterate unpack_topics 2 (λ _, true) 0 it = Returns (evs, it')
    ∧ Forall2 (λ log ev,
                 ParseOwnershipTransferred unpack_topics log = (Some ev, None))
              [transfer "0x01" "0x02" 7] evs
    ∧ Error it' = None.
Proof.
  apply (proj2 (FilterOwnershipTransferred_delivers_what_is_found
                  unpack_topics unit
                  (λ _ _ _, inl ([transfer "0x01" "0x02" 7], Some None))
                  tt ["0x01"%string] [])
               [transfer "0x01" "0x02" 7] (λ _, true)).
  - reflexivity.
  - repeat constructor.
Defined.

(** Two logs arrive and are forwarded; the caller unsubscribes while the
    event of a third is being sent. *)
Lemma WatchOwnershipTransferred_forwards_until_it_ends_witness :
  ∃ run,
    WatchOwnershipTransferred unpack_topics unit (λ _ _ _, None) tt
                              [] ["0x03"%string]
    = inl run
    ∧ run [LogArrives (transfer "0x01" "0x02" 7) SinkTakes;
           LogArrives (transfer "0x02" "0x03" 9) SinkTakes;
           LogArrives (transfer "0x03" "0x04" 11) QuitWhileSending;
           LogArrives (transfer "0x04" "0x05" 12) SinkTakes] []
      = Returns
          (None,
           [mkAuthorizersOwnershipTransferred "0x01" "0x02"
              (transfer "0x01" "0x02" 7);
            mkAuthorizersOwnershipTransferred "0x02" "0x03"
              (transfer "0x02" "0x03" 9)]).
Proof.
  destruct (proj2 (WatchOwnershipTransferred_forwards_until_it_ends
                     unpack_topics unit (λ _ _ _, None) tt [] ["0x03"%string])
                  eq_refl) as (run & Hwatch & Hrun).
  exists run. split; [exact Hwatch|].
  apply (proj2 (Hrun [transfer "0x01" "0x02" 7; transfer "0x02" "0x03" 9] []
                     ltac:(repeat constructor))
               (LogArrives (transfer "0x03" "0x04" 11) QuitWhileSending)
               [LogArrives (transfer "0x04" "0x05" 12) SinkTakes] None).
  reflexivity.
Defined.

End authorizers_proofs.
